(** * LegalEagle: compliance rule evaluation, risk scoring and action items

    A shallow embedding of the Go service code
    ([service/compliance_service.go] and the action-item service) and the
    properties of its specification.

    Conventions of the embedding:
    - a Go [string] is a [string] of bytes; [int] is a 64-bit integer, a [Z]
      with its wrap-around written out ([wrap64]);
    - [map[string]T] is a [gmap string T]; where Go ranges over a map, the
      order of the visit is a parameter of the function;
    - [interface{}] values decoded by encoding/json are [JSON] trees;
    - the risk score is a [float64] that only ever holds sums of the weights
      3.0, 2.0 and 1.0: it is the integer it denotes, and [f64_add] rounds
      the exact sum to 53 significant bits as IEEE 754 does;
    - the clock, the store and the remote service are explicit: a function
      takes the clock readings it consumes, the store it reads and writes,
      and the answers of the network as arguments;
    - a [sync.Mutex] held for the whole body of a function makes the body
      atomic: the embedding is the sequential body. *)

From Stdlib Require Import ZArith String Ascii List Permutation Lia.
From stdpp Require Import gmap strings list fin_maps pretty.

Set Warnings "-register-all".
Set Default Proof Using "Type".

(** ** Go base types *)

Definition maxInt : Z := 2 ^ 63 - 1.
Definition minInt : Z := - 2 ^ 63.

(** Two's complement wrap-around of 64-bit [int] arithmetic. *)
Definition wrap64 (z : Z) : Z := ((z + 2 ^ 63) `mod` 2 ^ 64 - 2 ^ 63)%Z.

Definition int_add (a b : Z) : Z := wrap64 (a + b).

(** [time.Time] is the reading of the monotonic clock in nanoseconds,
    [time.Duration] an [int64] count of nanoseconds. *)
Definition Time : Type := Z.
Definition Duration : Type := Z.

Definition Second : Duration := 1000000000%Z.
Definition Minute : Duration := (60 * Second)%Z.

(** [Time.Sub] saturates instead of wrapping. *)
Definition time_Sub (t u : Time) : Duration :=
  let d := (t - u)%Z in
  if (maxInt <? d)%Z then maxInt
  else if (d <? minInt)%Z then minInt
  else d.

(** [time.Since(t)] at clock reading [now]. *)
Definition time_Since (now t : Time) : Duration := time_Sub now t.

(** Integer-valued [float64]: rounding of an exact integer to 53 significant
    bits, to nearest, ties to even. Magnitudes of 2^1024 and more (which
    would round to infinity) are out of reach of a sum of small weights. *)
Definition f64_round_pos (z : Z) : Z :=
  if (z <? 2 ^ 53)%Z then z
  else
    let e := (Z.log2 z - 52)%Z in
    let q := (z / 2 ^ e)%Z in
    let r := (z `mod` 2 ^ e)%Z in
    let half := (2 ^ (e - 1))%Z in
    if (r <? half)%Z then (q * 2 ^ e)%Z
    else if (half <? r)%Z then ((q + 1) * 2 ^ e)%Z
    else if Z.even q then (q * 2 ^ e)%Z
    else ((q + 1) * 2 ^ e)%Z.

Definition f64_round (z : Z) : Z := (Z.sgn z * f64_round_pos (Z.abs z))%Z.

Definition f64_add (a b : Z) : Z := f64_round (a + b).

(** Results of a Go function that returns [(T, error)] or panics. *)
Inductive result (A : Type) : Type :=
| Ok (a : A)
| Err (msg : string)
| Panic (msg : string).
Arguments Ok {A} a.
Arguments Err {A} msg.
Arguments Panic {A} msg.

(** What encoding/json makes of a piece of text for a given target type. *)
Inductive Decoded (A : Type) : Type :=
| Malformed
| Wellformed (a : A).
Arguments Malformed {A}.
Arguments Wellformed {A} a.

(** Values of type [interface{}] produced by encoding/json. The text of a
    number is kept as it is; no function of the service inspects it. *)
Inductive JSON : Type :=
| JNull
| JBool (b : bool)
| JNumber (lit : string)
| JString (s : string)
| JArray (l : list JSON)
| JObject (m : gmap string JSON).

(** The type assertion [v.(string)] on the result of a map index. *)
Definition asString (v : option JSON) : option string :=
  match v with
  | Some (JString s) => Some s
  | _ => None
  end.

(** ** Strings *)

(** Behaviour of the Go runtime that rests on tables outside the
    repository: Unicode case mapping of text that is not pure ASCII, and
    calendar arithmetic. *)
Record GoRuntime : Type := mkGoRuntime {
  unicode_ToLower : string → string;
  unicode_Title : string → string;
  time_AddDate : Time → Z → Z → Z → Time
}.

Definition byte_in (lo hi : N) (c : ascii) : bool :=
  ((lo <=? N_of_ascii c) && (N_of_ascii c <=? hi))%N.

Definition isASCII (s : string) : bool :=
  forallb (λ c, (N_of_ascii c <? 128)%N) (list_ascii_of_string s).

Definition isUpper (c : ascii) : bool := byte_in 65 90 c.
Definition isLower (c : ascii) : bool := byte_in 97 122 c.
Definition isDigit (c : ascii) : bool := byte_in 48 57 c.

Definition lowerByte (c : ascii) : ascii :=
  if isUpper c then ascii_of_N (N_of_ascii c + 32) else c.

Definition upperByte (c : ascii) : ascii :=
  if isLower c then ascii_of_N (N_of_ascii c - 32) else c.

Definition map_bytes (f : ascii → ascii) (s : string) : string :=
  string_of_list_ascii (map f (list_ascii_of_string s)).

Definition filter_bytes (f : ascii → bool) (s : string) : string :=
  string_of_list_ascii (List.filter f (list_ascii_of_string s)).

(** [strings.ToLower]: bytes are lowered in place when the text is ASCII,
    otherwise the text goes through [unicode.ToLower] rune by rune. *)
Definition strings_ToLower (rt : GoRuntime) (s : string) : string :=
  if isASCII s then map_bytes lowerByte s else unicode_ToLower rt s.

(** [isSeparator] of package strings on an ASCII byte: letters, digits and
    the underscore are not separators, every other ASCII byte is. *)
Definition isSeparator (c : ascii) : bool :=
  negb (isUpper c || isLower c || isDigit c || bool_decide (c = "_"%char)).

Fixpoint titleBytes (prev : ascii) (l : list ascii) : list ascii :=
  match l with
  | [] => []
  | c :: l' => (if isSeparator prev then upperByte c else c) :: titleBytes c l'
  end.

(** [strings.Title]: the first letter of every word in title case. *)
Definition strings_Title (rt : GoRuntime) (s : string) : string :=
  if isASCII s
  then string_of_list_ascii (titleBytes " "%char (list_ascii_of_string s))
  else unicode_Title rt s.

(** [strings.ReplaceAll(s, old, new)] for one-byte [old] and [new]. *)
Definition replaceByte (old new : ascii) (s : string) : string :=
  map_bytes (λ c, if bool_decide (c = old) then new else c) s.

(** [strings.Contains]. *)
Fixpoint strings_Contains (s substr : string) : bool :=
  String.prefix substr s ||
  match s with
  | EmptyString => false
  | String _ s' => strings_Contains s' substr
  end.

(** Helper [contains] of the document service, and its twin
    [sliceContains] of the compliance service. *)
Fixpoint contains (slice : list string) (item : string) : bool :=
  match slice with
  | [] => false
  | s :: rest => if bool_decide (s = item) then true else contains rest item
  end.

Definition sliceContains (slice : list string) (item : string) : bool :=
  contains slice item.

(** ** RateLimiter *)

Record RateLimiter : Type := mkRateLimiter {
  requestCount : gmap string Z;
  limit : Z;
  window : Duration;
  lastReset : Time
}.

(** [NewRateLimiter(limit, window)] at clock reading [now]. *)
Definition NewRateLimiter (limit : Z) (window : Duration) (now : Time)
  : RateLimiter :=
  mkRateLimiter ∅ limit window now.

(** [rl.Allow(key)]. [tSince] is the clock reading of [time.Since], [tNow]
    the one of the [time.Now()] that restarts the window. *)
Definition Allow (rl : RateLimiter) (tSince tNow : Time) (key : string)
  : bool * RateLimiter :=
  let rl1 :=
    if (window rl <? time_Since tSince (lastReset rl))%Z
    then mkRateLimiter ∅ (limit rl) (window rl) tNow
    else rl in
  let count := int_add (default 0%Z (requestCount rl1 !! key)) 1 in
  ((count <=? limit rl1)%Z,
   mkRateLimiter (<[key := count]> (requestCount rl1))
                 (limit rl1) (window rl1) (lastReset rl1)).

(** A sequence of calls of [Allow], each with its key and clock readings. *)
Fixpoint AllowAll (rl : RateLimiter) (calls : list (string * Time * Time))
  : list bool * RateLimiter :=
  match calls with
  | [] => ([], rl)
  | (key, tSince, tNow) :: rest =>
    let '(ok, rl1) := Allow rl tSince tNow key in
    let '(oks, rl2) := AllowAll rl1 rest in
    (ok :: oks, rl2)
  end.

(** The two process-wide limiters. *)
Record Limiters : Type := mkLimiters {
  groqRateLimiter : RateLimiter;
  ruleRateLimiter : RateLimiter
}.

Definition initialLimiters (now : Time) : Limiters :=
  mkLimiters (NewRateLimiter 50 Minute now) (NewRateLimiter 100 Minute now).

(** ** Data model *)

Record ComplianceRule : Type := mkComplianceRule {
  rule_ID : string;
  rule_Name : string;
  rule_Description : string;
  rule_Pattern : string;
  rule_Severity : string
}.

(** A rule outcome as the components exchange it: [map[string]interface{}]. *)
Abbreviation Outcome := (gmap string JSON).

(** [GetAllComplianceRules]: gated by the rule limiter, then one read of
    the store, whose answer is [dbFind]. *)
Definition GetAllComplianceRules (rl : RateLimiter) (tSince tNow : Time)
    (dbFind : string + list ComplianceRule)
  : result (list ComplianceRule) * RateLimiter :=
  let '(ok, rl') := Allow rl tSince tNow "rule_retrieval" in
  if negb ok then (Err "rate limit exceeded for rule retrieval", rl')
  else match dbFind with
       | inl e => (Err e, rl')
       | inr rules => (Ok rules, rl')
       end.

(** ** RiskScorer *)

Definition severityWeights : gmap string Z :=
  <["low" := 1%Z]> (<["medium" := 2%Z]> (<["high" := 3%Z]> ∅)).

(** The lookup table built by the first loop of [CalculateRiskScore]. *)
Definition ruleMapOf (rules : list ComplianceRule) : gmap string ComplianceRule :=
  fold_left (λ ruleMap rule, <[rule_Name rule := rule]> ruleMap) rules ∅.

(** The second loop of [CalculateRiskScore], from index [i] on, with the
    running total [riskScore]. *)
Fixpoint scoreLoop (ruleMap : gmap string ComplianceRule)
    (rules : list ComplianceRule) (i : nat) (results : list Outcome)
    (riskScore : Z) : Z :=
  match results with
  | [] => riskScore
  | result :: rest =>
    let continue := scoreLoop ruleMap rules (S i) rest in
    match asString (result !! "status") with
    | None => continue riskScore
    | Some status =>
      let ruleName :=
        match asString (result !! "rule_name") with
        | Some name => Some name
        | None => rule_Name <$> rules !! i
        end in
      match ruleName with
      | None => continue riskScore
      | Some ruleName =>
        if bool_decide (status = "fail") then
          match ruleMap !! ruleName with
          | Some rule =>
            let weight := default 1%Z (severityWeights !! rule_Severity rule) in
            continue (f64_add riskScore weight)
          | None => continue riskScore
          end
        else continue riskScore
      end
    end
  end.

Definition CalculateRiskScore (rl : RateLimiter) (tSince tNow : Time)
    (results : list Outcome) (rules : list ComplianceRule)
  : Z * RateLimiter :=
  let '(ok, rl') := Allow rl tSince tNow "risk_score_calculation" in
  if negb ok then (0%Z, rl')
  else (scoreLoop (ruleMapOf rules) rules 0 results 0%Z, rl').

(** ** FallbackMatcher *)

(** The literal of the map [ruleMatchers], in the order of the source. *)
Definition ruleMatchers : list (string * list string) :=
  [ ("Confidentiality Marking",
     ["confidential"; "private"; "restricted"; "secret"; "sensitive"]);
    ("NDA Check",
     ["nda"; "non-disclosure"; "confidential"; "agreement"; "secret"]);
    ("Signature Requirement",
     ["sign"; "signature"; "date"; "signed"; "execute"; "approval"]);
    ("Data Protection Clause",
     ["data"; "privacy"; "protection"; "personal"; "information"; "secure"]);
    ("Liability Clause Requirement",
     ["liability"; "responsibility"; "limit"; "clause"; "legal"; "risk"]);
    ("Payment Terms Specification",
     ["payment"; "due"; "terms"; "money"; "cost"; "invoice"; "charge"]) ].

(** The class [[a-z0-9\s]] of the regular expression; [\s] is tab, line
    feed, form feed, carriage return and space. Every byte of a rune outside
    ASCII, and every byte that is not valid UTF-8, matches the negated class
    and is removed. *)
Definition keptByte (c : ascii) : bool :=
  isLower c || isDigit c ||
  bool_decide (N_of_ascii c ∈ [9; 10; 12; 13; 32]%N).

(** The normalisation at the head of [fallbackRuleExtraction]. *)
Definition normalize (rt : GoRuntime) (ocrText : string) : string :=
  let ocrLower := strings_ToLower rt ocrText in
  let ocrLower := replaceByte "-"%char " "%char ocrLower in
  let ocrLower := replaceByte "_"%char " "%char ocrLower in
  filter_bytes keptByte ocrLower.

(** The inner loop: how many terms of [matchTerms] occur in the text. *)
Definition countMatches (ocrLower : string) (matchTerms : list string) : Z :=
  fold_left
    (λ matchCount term,
       if strings_Contains ocrLower term then int_add matchCount 1
       else matchCount)
    matchTerms 0%Z.

(** [fallbackRuleExtraction]. [order] lists the entries of [ruleMatchers] in
    the order in which [range] visits the map, which Go leaves unspecified.
    The parameter [ruleNames] is not used by the body. *)
Definition fallbackRuleExtraction (rt : GoRuntime)
    (order : list (string * list string))
    (ocrText : string) (ruleNames : list string) : list string :=
  if bool_decide (ocrText = "") then []
  else
    let ocrLower := normalize rt ocrText in
    fold_left
      (λ violated '(ruleName, matchTerms),
         if (0 <? countMatches ocrLower matchTerms)%Z
         then violated ++ [ruleName]
         else violated)
      order [].

(** ** RuleClassifier *)

(** An HTTP response as the classifier reads it: the status code and the
    body, [None] when [io.ReadAll] fails. The body is given by what
    encoding/json decodes it to: the list of [choices], each with what its
    [message.content] decodes to. *)
Record Response (A : Type) : Type := mkResponse {
  StatusCode : Z;
  Body : option (Decoded (list (Decoded A)))
}.
Arguments mkResponse {A} _ _.
Arguments StatusCode {A} _.
Arguments Body {A} _.

(** One [client.Do(req)]: an error (with the response Go returns beside it,
    [nil] for a transport failure) or a response. *)
Inductive Attempt (A : Type) : Type :=
| DoErr (resp : option (Response A))
| DoOk (resp : Response A).
Arguments DoErr {A} resp.
Arguments DoOk {A} resp.

(** What the surroundings of one [DetermineApplicableRules] call provide. *)
Record ClassifyEnv : Type := mkClassifyEnv {
  groqClock : Time * Time;
  ruleClock : Time * Time;
  dbRules : string + list ComplianceRule;
  VITE_GROQ_API_KEY : string;
  marshalFails : bool;
  newRequestErr : nat → option string;
  clientDo : nat → Attempt (list string);
  rangeOrder : list (string * list string)
}.

Definition maxRetries : nat := 3.

(** The retry loop: [left] iterations remain, [attempt] is the loop
    variable, [resp] the variable declared before the loop. The [err] that
    [client.Do] assigns is local to the loop body. *)
Fixpoint retryLoop (env : ClassifyEnv) (left attempt : nat)
    (resp : option (Response (list string)))
  : result (option (Response (list string))) :=
  match left with
  | O => Ok resp
  | S left' =>
    match newRequestErr env attempt with
    | Some e => Err ("failed to create Groq request: " +:+ e)
    | None =>
      match clientDo env attempt with
      | DoOk r =>
        if bool_decide (StatusCode r ≠ 429%Z) then Ok (Some r)
        else retryLoop env left' (S attempt) (Some r)
      | DoErr r => retryLoop env left' (S attempt) r
      end
    end
  end.

(** The validation of the names suggested by the remote service. *)
Definition validateViolated (ruleNames violatedRules : list string)
  : list string :=
  match violatedRules with
  | [] => violatedRules
  | _ => List.filter (contains ruleNames) violatedRules
  end.

Definition DetermineApplicableRules (rt : GoRuntime) (env : ClassifyEnv)
    (g : Limiters) (ocrText : string) : result (list string) * Limiters :=
  let '(ok, groq') :=
    Allow (groqRateLimiter g) (groqClock env).1 (groqClock env).2
          "groq_api_call" in
  if negb ok then
    (Ok (fallbackRuleExtraction rt (rangeOrder env) ocrText []),
     mkLimiters groq' (ruleRateLimiter g))
  else
    let '(allRules, rule') :=
      GetAllComplianceRules (ruleRateLimiter g) (ruleClock env).1
                            (ruleClock env).2 (dbRules env) in
    let g' := mkLimiters groq' rule' in
    match allRules with
    | Err e => (Err e, g')
    | Panic e => (Panic e, g')
    | Ok allRules =>
      let ruleNames := map rule_Name allRules in
      let fallback :=
        Ok (fallbackRuleExtraction rt (rangeOrder env) ocrText ruleNames) in
      if bool_decide (VITE_GROQ_API_KEY env = "") then
        (Err "VITE_GROQ_API_KEY environment variable is not set", g')
      else if marshalFails env then (fallback, g')
      else
        match retryLoop env maxRetries 0 None with
        | Err e => (Err e, g')
        | Panic e => (Panic e, g')
        | Ok None =>
          (Panic "invalid memory address or nil pointer dereference", g')
        | Ok (Some resp) =>
          if bool_decide (StatusCode resp ≠ 200%Z) then (fallback, g')
          else
            match Body resp with
            | None => (fallback, g')
            | Some Malformed => (fallback, g')
            | Some (Wellformed []) => (Ok (validateViolated ruleNames []), g')
            | Some (Wellformed (Malformed :: _)) => (fallback, g')
            | Some (Wellformed (Wellformed violatedRules :: _)) =>
              (Ok (validateViolated ruleNames violatedRules), g')
            end
        end
    end.

(** ** BatchClassifier *)

Record DocumentComplianceCheck : Type := mkDocumentComplianceCheck {
  check_ID : string;
  check_OCRText : string
}.

Record BatchComplianceRequest : Type := mkBatchComplianceRequest {
  Documents : list DocumentComplianceCheck;
  RuleNames : list string
}.

(** [BatchComplianceResponse.Results]. *)
Abbreviation BatchResults := (gmap string (list string)).

(** The identifier [fmt.Sprintf("doc_%d", i)]. *)
Definition docID (i : nat) : string := "doc_" +:+ pretty i.

Definition prepareBatchComplianceRequest (documents ruleNames : list string)
  : BatchComplianceRequest :=
  mkBatchComplianceRequest
    (imap (λ i doc, mkDocumentComplianceCheck (docID i) doc) documents)
    ruleNames.

Definition validateRules (suggestedRules availableRules : list string)
  : list string :=
  List.filter (sliceContains availableRules) suggestedRules.

(** What the surroundings of one [DetermineApplicableRulesBatch] call
    provide. [batchDo chunk attempt] answers the [attempt]-th
    [client.Do] of the request sent for the [chunk]-th group. *)
Record BatchEnv : Type := mkBatchEnv {
  batchGroqClock : Time * Time;
  batchRuleClock : Time * Time;
  batchDbRules : string + list ComplianceRule;
  batchApiKey : string;
  batchMarshalFails : bool;
  batchNewRequestErr : option string;
  batchDo : nat → nat → Attempt BatchResults
}.

(** The retry loop of [sendBatchComplianceRequest]: the first response that
    comes without an error, [None] when [err] is still set after the last
    of [left] attempts. *)
Fixpoint batchRetry (env : BatchEnv) (chunk left attempt : nat)
  : option (Response BatchResults) :=
  match left with
  | O => None
  | S left' =>
    match batchDo env chunk attempt with
    | DoOk r => Some r
    | DoErr _ => batchRetry env chunk left' (S attempt)
    end
  end.

Definition sendBatchComplianceRequest (env : BatchEnv) (chunk : nat)
    (batchRequest : BatchComplianceRequest) (apiKey : string)
  : result BatchResults :=
  if batchMarshalFails env then Err "failed to create request body"
  else
    match batchNewRequestErr env with
    | Some e => Err ("failed to create Groq request: " +:+ e)
    | None =>
      match batchRetry env chunk 3 0 with
      | None => Err "failed to send Groq API request after 3 attempts"
      | Some resp =>
        if bool_decide (StatusCode resp ≠ 200%Z) then Err "non-200 status code"
        else
          match Body resp with
          | None => Err "failed to read Groq response"
          | Some Malformed => Err "failed to parse Groq response structure"
          | Some (Wellformed []) => Ok ∅
          | Some (Wellformed (Malformed :: _)) =>
            Err "failed to parse batch results"
          | Some (Wellformed (Wellformed batchResponse :: _)) =>
            Ok batchResponse
          end
      end
    end.

(** What is stored for one entry of a response. *)
Definition storedRules (ruleNames applicableRules : list string)
  : list string :=
  let validRules := validateRules applicableRules ruleNames in
  if bool_decide (length validRules = 0) then ["General Compliance"]
  else validRules.

(** The loop over [batchResponse.Results]. The keys of a map are distinct,
    so the order of the visit does not show in the result. *)
Definition storeBatchResults (ruleNames : list string)
    (batchResponse results : BatchResults) : BatchResults :=
  map_fold
    (λ docID applicableRules results,
       <[docID := storedRules ruleNames applicableRules]> results)
    results batchResponse.

(** The loop over the groups, from index [i] on. The loop ends when the
    model returns [Some]; [None] is a loop that outlives its [fuel]. *)
Fixpoint batchLoop (fuel : nat) (env : BatchEnv) (documents : list string)
    (batchSize : Z) (ruleNames : list string) (apiKey : string)
    (i : Z) (chunk : nat) (results : BatchResults)
  : option (result BatchResults) :=
  match fuel with
  | O => None
  | S fuel' =>
    let len := Z.of_nat (length documents) in
    if bool_decide (i < len)%Z then
      let end_ := int_add i batchSize in
      let end_ := if bool_decide (len < end_)%Z then len else end_ in
      if bool_decide (i < 0 ∨ end_ < i)%Z
      then Some (Panic "slice bounds out of range")
      else
        let batchDocuments :=
          take (Z.to_nat (end_ - i)) (drop (Z.to_nat i) documents) in
        let batchRequest :=
          prepareBatchComplianceRequest batchDocuments ruleNames in
        let next := batchLoop fuel' env documents batchSize ruleNames apiKey
                              (int_add i batchSize) (S chunk) in
        match sendBatchComplianceRequest env chunk batchRequest apiKey with
        | Ok batchResponse =>
          next (storeBatchResults ruleNames batchResponse results)
        | Err _ => next results
        | Panic e => Some (Panic e)
        end
    else Some (Ok results)
  end.

(** The slice [ruleNames] of the batch classifier: made with one empty
    string per rule, then the names appended behind them. *)
Definition batchRuleNames (allRules : list ComplianceRule) : list string :=
  fold_left (λ ruleNames rule, ruleNames ++ [rule_Name rule]) allRules
            (replicate (length allRules) "").

(** [DetermineApplicableRulesBatch]. A group size of 0 never advances the
    loop: the call does not return, which is the result [None]. For every
    other size the loop is over after at most one round per document. *)
Definition DetermineApplicableRulesBatch (env : BatchEnv) (g : Limiters)
    (documents : list string) (batchSize : Z)
  : option (result BatchResults) * Limiters :=
  if bool_decide (length documents = 0) then
    (Some (Err "no documents provided for batch processing"), g)
  else
    let '(ok, groq') :=
      Allow (groqRateLimiter g) (batchGroqClock env).1 (batchGroqClock env).2
            "batch_rule_determination" in
    if negb ok then
      (Some (Err "rate limit exceeded for batch rule determination"),
       mkLimiters groq' (ruleRateLimiter g))
    else
      let '(allRules, rule') :=
        GetAllComplianceRules (ruleRateLimiter g) (batchRuleClock env).1
                              (batchRuleClock env).2 (batchDbRules env) in
      let g' := mkLimiters groq' rule' in
      match allRules with
      | Err e => (Some (Err e), g')
      | Panic e => (Some (Panic e), g')
      | Ok allRules =>
        let ruleNames := batchRuleNames allRules in
        if bool_decide (batchApiKey env = "") then
          (Some (Err "VITE_GROQ_API_KEY environment variable is not set"), g')
        else
          (batchLoop (S (length documents)) env documents batchSize ruleNames
                     (batchApiKey env) 0%Z 0 ∅, g')
      end.

(** ** ActionItemLifecycle: the store *)

(** A [datatypes.JSON] column: bytes that are not JSON text, or the JSON
    text of a value. The empty column is [NotJSON ""]. *)
Inductive RawJSON : Type :=
| NotJSON (bytes : string)
| Encodes (v : JSON).

Record ActionItem : Type := mkActionItem {
  ai_ID : string;
  ai_DocumentID : string;
  ai_RuleID : string;
  ai_Description : string;
  ai_AssignedTo : string;
  ai_Status : string;
  ai_Priority : string;
  ai_DueDate : Time;
  ai_CreatedAt : Time;
  ai_UpdatedAt : Time
}.

Record DocumentRuleResult : Type := mkDocumentRuleResult {
  drr_ID : string;
  drr_DocumentID : string;
  drr_RuleID : string;
  drr_Status : string;
  drr_Details : RawJSON;
  drr_CreatedAt : Time
}.

Record Document : Type := mkDocument {
  doc_ID : string;
  doc_Title : string;
  doc_FileType : string;
  doc_OriginalURL : string;
  doc_OcrText : string;
  doc_ParsedData : RawJSON;
  doc_RiskScore : Z;
  doc_CreatedAt : Time;
  doc_UpdatedAt : Time
}.

(** The four tables, each with its rows in the order of their creation. *)
Record Store : Type := mkStore {
  compliance_rules : list ComplianceRule;
  action_items : list ActionItem;
  document_rule_results : list DocumentRuleResult;
  documents : list Document
}.

Inductive LogArg : Type :=
| LStr (s : string)
| LMap (m : Outcome).

(** One [log.Printf]: the format and its arguments. *)
Record LogEntry : Type := Printf {
  log_format : string;
  log_args : list LogArg
}.

(** The world of the action-item functions: the store, the clock and the
    log. [faults n] is the error with which the [n]-th call of the store
    fails, if it does; [uuids n] the key the store generates for a row
    created by its [n]-th call; [clock n] the [n]-th reading of
    [time.Now()]. *)
Record World : Type := mkWorld {
  store : Store;
  faults : nat → option string;
  uuids : nat → string;
  calls : nat;
  clock : nat → Time;
  ticks : nat;
  logged : list LogEntry
}.

Definition M (A : Type) : Type := World → A * World.

#[global] Instance M_ret : MRet M := λ A a w, (a, w).

#[global] Instance M_bind : MBind M :=
  λ A B k m w, let '(a, w') := m w in k a w'.

Definition time_Now : M Time :=
  λ w, (clock w (ticks w),
        mkWorld (store w) (faults w) (uuids w) (calls w) (clock w)
                (S (ticks w)) (logged w)).

Definition log_Printf (format : string) (args : list LogArg) : M unit :=
  λ w, (tt,
        mkWorld (store w) (faults w) (uuids w) (calls w) (clock w) (ticks w)
                (logged w ++ [Printf format args])).

(** One call of the store: it fails with the fault due for it and leaves
    the store as it is, or runs [op], which is given the key the store
    would generate. *)
Definition storeCall {A : Type} (op : string → Store → (string + A) * Store)
  : M (string + A) :=
  λ w,
    let w' s := mkWorld s (faults w) (uuids w) (S (calls w)) (clock w)
                        (ticks w) (logged w) in
    match faults w (calls w) with
    | Some e => (inl e, w' (store w))
    | None => let '(r, s) := op (uuids w (calls w)) (store w) in (r, w' s)
    end.

Definition ErrRecordNotFound : string := "record not found".

(** [First]: gorm orders the rows that meet the condition by the primary
    key and returns the first of them. The keys are UUIDs, which the store
    compares byte by byte, as [String.ltb] compares their canonical text;
    of two rows with one key, which the store does not hold, the earlier
    one is kept. *)
Definition firstByKey {A : Type} (key : A → string) (cond : A → bool)
    (rows : list A) : option A :=
  fold_left
    (λ best row,
       if cond row then
         match best with
         | Some least =>
           if String.ltb (key row) (key least) then Some row else best
         | None => Some row
         end
       else best)
    rows None.

Definition firstOr {A : Type} (found : option A) : string + A :=
  match found with
  | Some row => inr row
  | None => inl ErrRecordNotFound
  end.

(** [s.db.Where("name = ?", ruleName).First(&rule)]. *)
Definition db_FirstRuleByName (ruleName : string) : M (string + ComplianceRule) :=
  storeCall (λ _ s,
    (firstOr (firstByKey rule_ID (λ r, bool_decide (rule_Name r = ruleName))
                         (compliance_rules s)), s)).

(** [s.db.Omit("AssignedTo").Create(&action)]: the store fills in the key
    and leaves the omitted column empty. *)
Definition db_CreateActionItem (action : ActionItem) : M (string + unit) :=
  storeCall (λ id s,
    let row := mkActionItem id (ai_DocumentID action) (ai_RuleID action)
                 (ai_Description action) "" (ai_Status action)
                 (ai_Priority action) (ai_DueDate action)
                 (ai_CreatedAt action) (ai_UpdatedAt action) in
    (inr tt, mkStore (compliance_rules s) (action_items s ++ [row])
                     (document_rule_results s) (documents s))).

(** [s.db.Create(&docResult)]. *)
Definition db_CreateDocumentRuleResult (docResult : DocumentRuleResult)
  : M (string + unit) :=
  storeCall (λ id s,
    let row := mkDocumentRuleResult id (drr_DocumentID docResult)
                 (drr_RuleID docResult) (drr_Status docResult)
                 (drr_Details docResult) (drr_CreatedAt docResult) in
    (inr tt, mkStore (compliance_rules s) (action_items s)
                     (document_rule_results s ++ [row]) (documents s))).

(** [s.db.First(&action, "id = ?", actionID)]. *)
Definition db_FirstActionItem (actionID : string) : M (string + ActionItem) :=
  storeCall (λ _ s,
    (firstOr (firstByKey ai_ID (λ a, bool_decide (ai_ID a = actionID))
                         (action_items s)), s)).

(** [s.db.Model(&action).Omit("AssignedTo").Updates(...)] with the columns
    [Status] and [UpdatedAt]. *)
Definition db_UpdateActionItem (action : ActionItem) (status : string)
    (updatedAt : Time) : M (string + unit) :=
  storeCall (λ _ s,
    (inr tt,
     mkStore (compliance_rules s)
       (map (λ a, if bool_decide (ai_ID a = ai_ID action)
                  then mkActionItem (ai_ID a) (ai_DocumentID a) (ai_RuleID a)
                         (ai_Description a) (ai_AssignedTo a) status
                         (ai_Priority a) (ai_DueDate a) (ai_CreatedAt a)
                         updatedAt
                  else a)
            (action_items s))
       (document_rule_results s) (documents s))).

(** [s.db.Where("document_id = ? AND rule_id = ?", ...).First(&docResult)]. *)
Definition db_FirstDocumentRuleResult (documentID ruleID : string)
  : M (string + DocumentRuleResult) :=
  storeCall (λ _ s,
    (firstOr (firstByKey drr_ID
                         (λ r, bool_decide (drr_DocumentID r = documentID)
                               && bool_decide (drr_RuleID r = ruleID))
                         (document_rule_results s)), s)).

(** [s.db.Save(&docResult)]: every column of the row with that key. *)
Definition db_SaveDocumentRuleResult (docResult : DocumentRuleResult)
  : M (string + unit) :=
  storeCall (λ _ s,
    (inr tt,
     mkStore (compliance_rules s) (action_items s)
       (map (λ r, if bool_decide (drr_ID r = drr_ID docResult)
                  then docResult else r)
            (document_rule_results s))
       (documents s))).

(** [s.db.First(&doc, "id = ?", documentID)]. *)
Definition db_FirstDocument (documentID : string) : M (string + Document) :=
  storeCall (λ _ s,
    (firstOr (firstByKey doc_ID (λ d, bool_decide (doc_ID d = documentID))
                         (documents s)), s)).

(** [s.db.Model(&doc).Updates(...)] with the columns [ParsedData] and
    [UpdatedAt]. *)
Definition db_UpdateDocument (doc : Document) (parsedData : RawJSON)
    (updatedAt : Time) : M (string + unit) :=
  storeCall (λ _ s,
    (inr tt,
     mkStore (compliance_rules s) (action_items s) (document_rule_results s)
       (map (λ d, if bool_decide (doc_ID d = doc_ID doc)
                  then mkDocument (doc_ID d) (doc_Title d) (doc_FileType d)
                         (doc_OriginalURL d) (doc_OcrText d) parsedData
                         (doc_RiskScore d) (doc_CreatedAt d) updatedAt
                  else d)
            (documents s)))).

(** [s.db.Create(&doc)]: the store fills in the key, also in the value
    the caller holds. *)
Definition db_CreateDocument (doc : Document) : M (string + Document) :=
  storeCall (λ id s,
    let row := mkDocument id (doc_Title doc) (doc_FileType doc)
                 (doc_OriginalURL doc) (doc_OcrText doc) (doc_ParsedData doc)
                 (doc_RiskScore doc) (doc_CreatedAt doc) (doc_UpdatedAt doc) in
    (inr row, mkStore (compliance_rules s) (action_items s)
                      (document_rule_results s) (documents s ++ [row]))).

(** ** ActionItemLifecycle: the two transitions *)

(** [json.Unmarshal] of a column into [[]map[string]interface{}]: [null]
    leaves the slice empty, an array decodes element by element, an object
    to its map and [null] to the nil map, which reads like the empty map. *)
Definition unmarshalOutcomes (raw : RawJSON) : string + list Outcome :=
  match raw with
  | NotJSON _ => inl "invalid character looking for beginning of value"
  | Encodes JNull => inr []
  | Encodes (JArray l) =>
    match mapM (λ v, match v with
                     | JObject m => Some m
                     | JNull => Some ∅
                     | _ => None
                     end) l with
    | Some results => inr results
    | None => inl "json: cannot unmarshal into Go value of type map[string]interface {}"
    end
  | Encodes _ =>
    inl "json: cannot unmarshal into Go value of type []map[string]interface {}"
  end.

(** [marshalResult]: the JSON text of the outcome. *)
Definition marshalResult (result : Outcome) : RawJSON := Encodes (JObject result).

Definition fieldOr (result : Outcome) (key : string) : string :=
  default "" (asString (result !! key)).

(** The loop of [CreateActionItems]. *)
Fixpoint createLoop (rt : GoRuntime) (doc : Document) (results : list Outcome)
  : M (result unit) :=
  match results with
  | [] => mret (Ok tt)
  | result :: rest =>
    match asString (result !! "status") with
    | None => createLoop rt doc rest
    | Some status =>
      if bool_decide (status ≠ "fail") then createLoop rt doc rest
      else
        match asString (result !! "rule_name") with
        | None =>
          log_Printf "Missing rule_name in compliance result: %+v" [LMap result];;
          createLoop rt doc rest
        | Some ruleName =>
          log_Printf "Processing failed rule: %s" [LStr ruleName];;
          found ← db_FirstRuleByName ruleName;
          match found with
          | inl err =>
            log_Printf "Rule %s not found in compliance_rules: %v"
                       [LStr ruleName; LStr err];;
            createLoop rt doc rest
          | inr rule =>
            if bool_decide (rule_ID rule = "") then
              log_Printf "Invalid RuleID for %s; skipping action item creation"
                         [LStr ruleName];;
              createLoop rt doc rest
            else
              let explanation := fieldOr result "explanation" in
              let severity := fieldOr result "severity" in
              createdAt ← time_Now;
              updatedAt ← time_Now;
              now ← time_Now;
              let action :=
                mkActionItem "" (doc_ID doc) (rule_ID rule)
                  ("Address " +:+ ruleName +:+ " non-compliance: "
                   +:+ explanation)
                  ""
                  "pending"
                  (strings_Title rt (strings_ToLower rt severity))
                  (time_AddDate rt now 0 1 0)
                  createdAt updatedAt in
              created ← db_CreateActionItem action;
              match created with
              | inl err =>
                log_Printf "Error creating action item: %v" [LStr err];;
                mret (Err err)
              | inr _ =>
                log_Printf "Action item created: %s for document %s"
                           [LStr (ai_Description action); LStr (doc_ID doc)];;
                resultAt ← time_Now;
                let docResult :=
                  mkDocumentRuleResult "" (doc_ID doc) (rule_ID rule) "fail"
                    (marshalResult result) resultAt in
                created ← db_CreateDocumentRuleResult docResult;
                match created with
                | inl err =>
                  log_Printf "Error creating document rule result: %v"
                             [LStr err];;
                  mret (Err err)
                | inr _ =>
                  log_Printf
                    "Document rule result created for rule %s, document %s"
                    [LStr ruleName; LStr (doc_ID doc)];;
                  createLoop rt doc rest
                end
              end
          end
        end
    end
  end.

Definition CreateActionItems (rt : GoRuntime) (doc : Document)
  : M (result unit) :=
  match unmarshalOutcomes (doc_ParsedData doc) with
  | inl err =>
    log_Printf "Error unmarshaling parsed_data: %v" [LStr err];;
    mret (Err err)
  | inr results => createLoop rt doc results
  end.

(** Steps 5 and 6 of [UploadAndProcessDocument]: the document is saved
    with the marshalled compliance results, then its action items and rule
    results are created. The title and the file type are those computed
    from the URL of the file; the result is the error returned, if any. *)
Definition UploadAndProcessDocument_save (rt : GoRuntime)
    (title fileType fileURL ocrText : string) (parsedDataJSON : RawJSON)
    (riskScore : Z) : M (result unit) :=
  createdAt ← time_Now;
  updatedAt ← time_Now;
  let doc := mkDocument "" title fileType fileURL ocrText parsedDataJSON
                        riskScore createdAt updatedAt in
  created ← db_CreateDocument doc;
  match created with
  | inl err =>
    log_Printf "ERROR saving document to database: %v" [LStr err];;
    mret (Err ("failed to save to database: " +:+ err))
  | inr doc =>
    log_Printf "Document saved to database successfully with ID: %s"
               [LStr (doc_ID doc)];;
    created ← CreateActionItems rt doc;
    match created with
    | Err err =>
      log_Printf "Error creating action items: %v" [LStr err];;
      mret (Err ("failed to create action items: " +:+ err))
    | Panic msg => mret (Panic msg)
    | Ok _ =>
      log_Printf "Action items processed for document %s" [LStr (doc_ID doc)];;
      mret (Ok tt)
    end
  end.

(** A map made empty, then filled by [json.Unmarshal] when the column is
    not empty: an object gives its map, [null] sets the map to nil, any
    other text is an error, after which the code makes a new map. *)
Inductive MapDecode : Type :=
| MapNil
| MapOf (m : Outcome)
| MapError (err : string).

Definition unmarshalMap (raw : RawJSON) : MapDecode :=
  match raw with
  | NotJSON _ => MapError "invalid character looking for beginning of value"
  | Encodes JNull => MapNil
  | Encodes (JObject m) => MapOf m
  | Encodes _ =>
    MapError "json: cannot unmarshal into Go value of type map[string]interface {}"
  end.

Definition isEmptyColumn (raw : RawJSON) : bool :=
  match raw with
  | NotJSON bytes => bool_decide (bytes = "")
  | Encodes _ => false
  end.

(** The decoding block shared by the two columns; [None] is the nil map. *)
Definition decodeColumn (raw : RawJSON) (format : string)
    (args : list LogArg) : M (option Outcome) :=
  if isEmptyColumn raw then mret (Some ∅)
  else
    match unmarshalMap raw with
    | MapOf m => mret (Some m)
    | MapNil => mret None
    | MapError err =>
      log_Printf format (args ++ [LStr err]);;
      mret (Some ∅)
    end.

Definition nilMapPanic : string := "assignment to entry in nil map".

Definition UpdateActionItem (actionID : string) : M (result unit) :=
  found ← db_FirstActionItem actionID;
  match found with
  | inl err =>
    log_Printf "[UpdateActionItem] Error fetching action item %s: %v"
               [LStr actionID; LStr err];;
    mret (Err err)
  | inr action =>
    _ ← time_Now;
    updatedAt ← time_Now;
    updated ← db_UpdateActionItem action "completed" updatedAt;
    match updated with
    | inl err =>
      log_Printf "[UpdateActionItem] Error updating action item %s: %v"
                 [LStr actionID; LStr err];;
      mret (Err err)
    | inr _ =>
      found ← db_FirstDocumentRuleResult (ai_DocumentID action)
                                         (ai_RuleID action);
      match found with
      | inl err =>
        log_Printf
          "[UpdateActionItem] Error fetching document rule result for action %s: %v"
          [LStr actionID; LStr err];;
        mret (Err err)
      | inr docResult =>
        details ← decodeColumn (drr_Details docResult)
                    "[UpdateActionItem] Error unmarshaling Details JSON: %v" [];
        match details with
        | None => mret (Panic nilMapPanic)
        | Some details =>
          let details := <["explanation" := JString "No issues"]> details in
          createdAt ← time_Now;
          let docResult :=
            mkDocumentRuleResult (drr_ID docResult) (drr_DocumentID docResult)
              (drr_RuleID docResult) "resolved" (Encodes (JObject details))
              createdAt in
          saved ← db_SaveDocumentRuleResult docResult;
          match saved with
          | inl err =>
            log_Printf
              "[UpdateActionItem] Error updating document rule result for action %s: %v"
              [LStr actionID; LStr err];;
            mret (Err err)
          | inr _ =>
            found ← db_FirstDocument (ai_DocumentID action);
            match found with
            | inl err =>
              log_Printf "[UpdateActionItem] Error fetching document %s: %v"
                         [LStr (ai_DocumentID action); LStr err];;
              mret (Err err)
            | inr doc =>
              parsedData ← decodeColumn (doc_ParsedData doc)
                "[UpdateActionItem] Error unmarshaling parsed data for document %s: %v"
                [LStr (ai_DocumentID action)];
              match parsedData with
              | None => mret (Panic nilMapPanic)
              | Some parsedData =>
                let parsedData := <["status" := JBool true]> parsedData in
                updatedAt ← time_Now;
                updated ← db_UpdateDocument doc (Encodes (JObject parsedData))
                                            updatedAt;
                match updated with
                | inl err =>
                  log_Printf
                    "[UpdateActionItem] Error updating document %s parsed data: %v"
                    [LStr (ai_DocumentID action); LStr err];;
                  mret (Err err)
                | inr _ =>
                  log_Printf
                    "[UpdateActionItem] Successfully updated document %s parsed_data status to true"
                    [LStr (ai_DocumentID action)];;
                  mret (Ok tt)
                end
              end
            end
          end
        end
      end
    end
  end.

(** ** Notions used in the statements *)

(** How many calls of a sequence carry the key [key]. *)
Fixpoint sameKeyCalls (key : string) (calls : list (string * Time * Time))
  : nat :=
  match calls with
  | [] => 0
  | c :: rest =>
    (if bool_decide (c.1.1 = key) then 1 else 0) + sameKeyCalls key rest
  end.

(** Every call of the sequence reads the clock within [W] of [t0]. *)
Definition inWindow (W : Duration) (t0 : Time)
    (calls : list (string * Time * Time)) : Prop :=
  Forall (λ c, (time_Since c.1.2 t0 ≤ W)%Z) calls.

(** In a sequence of calls with answers [oks], the [n]-th call with a key
    is admitted exactly when [n ≤ L], for every [n] up to [L + 1]. *)
Definition admitsFirst (L : Z) (calls : list (string * Time * Time))
    (oks : list bool) : Prop :=
  ∀ i key tSince tNow,
    calls !! i = Some (key, tSince, tNow) →
    let n := Z.of_nat (sameKeyCalls key (take (S i) calls)) in
    (n ≤ L + 1)%Z →
    oks !! i = Some (bool_decide (n ≤ L)%Z).

(** The weight of a severity: high 3, medium 2, low and anything else 1. *)
Definition weightOf (severity : string) : Z :=
  if bool_decide (severity = "high") then 3%Z
  else if bool_decide (severity = "medium") then 2%Z
  else 1%Z.

(** The rule found in the catalog under a name: the last one that bears
    it. *)
Definition catalogRule (rules : list ComplianceRule) (name : string)
  : option ComplianceRule :=
  last (filter (λ r, rule_Name r = name) rules).

(** The name under which the outcome at index [i] is looked up: its
    [rule_name], or the name of the rule at the same index. *)
Definition lookupName (rules : list ComplianceRule) (i : nat) (o : Outcome)
  : option string :=
  match asString (o !! "rule_name") with
  | Some name => Some name
  | None => rule_Name <$> rules !! i
  end.

Definition hasFailed (o : Outcome) : bool :=
  bool_decide (asString (o !! "status") = Some "fail").

(** What the outcome at index [i] adds to the score. *)
Definition contribution (rules : list ComplianceRule) (i : nat) (o : Outcome)
  : Z :=
  if hasFailed o then
    match lookupName rules i o ≫= catalogRule rules with
    | Some rule => weightOf (rule_Severity rule)
    | None => 0%Z
    end
  else 0%Z.

Definition sumZ (l : list Z) : Z := foldr Z.add 0%Z l.

Definition expectedScore (rules : list ComplianceRule) (results : list Outcome)
  : Z :=
  sumZ (imap (contribution rules) results).

(** A failed outcome names its rule. *)
Definition failedIsNamed (o : Outcome) : Prop :=
  hasFailed o = true → is_Some (asString (o !! "rule_name")).

(** The normalisation as the specification words it, byte by byte. Of the
    lowercased text a hyphen and an underscore become a space; a small
    letter, a digit and white space (tab, line feed, form feed, carriage
    return, space) stay; every other byte, punctuation among them, is
    dropped. *)
Definition normalizedByte (c : ascii) : list ascii :=
  let n := N_of_ascii c in
  if ((n =? 45) || (n =? 95))%N then [" "%char]
  else if ((97 <=? n) && (n <=? 122) || (48 <=? n) && (n <=? 57)
           || (n =? 9) || (n =? 10) || (n =? 12) || (n =? 13)
           || (n =? 32))%N
  then [c]
  else [].

Definition normalizedText (rt : GoRuntime) (text : string) : string :=
  string_of_list_ascii
    (flat_map normalizedByte (list_ascii_of_string (strings_ToLower rt text))).

(** The same for a byte of ASCII text, whose lowercasing needs no table: a
    capital letter becomes the small one, 32 places further on. *)
Definition normalizedASCIIByte (c : ascii) : list ascii :=
  let n := N_of_ascii c in
  if ((65 <=? n) && (n <=? 90))%N then [ascii_of_N (n + 32)]
  else normalizedByte c.

(** ** Sample data *)

(** A runtime for the examples: the text they use is ASCII, which never
    reaches the Unicode tables; a month is taken as thirty days. *)
Definition sampleRuntime : GoRuntime :=
  mkGoRuntime (λ s, s) (λ s, s)
              (λ t years months days,
                 (t + ((years * 365 + months * 30 + days) * 24 * 3600 * Second))%Z).

Definition outcomeOf (name status severity explanation : string) : Outcome :=
  <["rule_name" := JString name]>
    (<["status" := JString status]>
       (<["severity" := JString severity]>
          (<["explanation" := JString explanation]> ∅))).

Definition ndaRule : ComplianceRule :=
  mkComplianceRule "rule1" "NDA Check" "A non-disclosure agreement is in place"
                   "non-disclosure" "high".

Definition paymentRule : ComplianceRule :=
  mkComplianceRule "rule2" "Payment Terms Specification" "Payment terms are stated"
                   "payment" "low".

Definition customRule : ComplianceRule :=
  mkComplianceRule "rule3" "Custom Rule" "A rule of the house" "custom" "medium".

(** The rule limiter after a hundred score computations in one window. *)
Definition spentRuleLimiter : RateLimiter :=
  (AllowAll (NewRateLimiter 100 Minute 0%Z)
            (replicate 100 ("risk_score_calculation", 1%Z, 1%Z))).2.

(** The surroundings of a classification with the catalog [catalog], the
    service key set, and [remote] answering the attempts. *)
Definition classifyEnvOf (catalog : list ComplianceRule)
    (remote : nat → Attempt (list string)) : ClassifyEnv :=
  mkClassifyEnv (1%Z, 1%Z) (1%Z, 1%Z) (inr catalog) "gsk-key" false
                (λ _, None) remote ruleMatchers.

(** A remote service that answers every attempt with status 500. *)
Definition remoteStatus500 : nat → Attempt (list string) :=
  λ _, DoOk (mkResponse 500%Z None).

(** A network on which every attempt fails before a response arrives. *)
Definition remoteUnreachable : nat → Attempt (list string) :=
  λ _, DoErr None.

(** The same for a batch: catalog, key, and the answers per group. *)
Definition batchEnvOf (catalog : list ComplianceRule)
    (remote : nat → nat → Attempt BatchResults) : BatchEnv :=
  mkBatchEnv (1%Z, 1%Z) (1%Z, 1%Z) (inr catalog) "gsk-key" false None remote.

Definition batchUnreachable : nat → nat → Attempt BatchResults :=
  λ _ _, DoErr None.

(** The first group is answered: a known rule for [doc_0], an unknown name
    for [doc_1]; requests for later groups fail. *)
Definition batchFirstGroupOnly : nat → nat → Attempt BatchResults :=
  λ chunk _,
    match chunk with
    | O => DoOk (mkResponse 200%Z
             (Some (Wellformed
                [Wellformed (insert "doc_0" ["NDA Check"]
                               (insert "doc_1" ["Unheard Of"] ∅))])))
    | S _ => DoErr None
    end.

(** ** Notions used in the statements on the batch classifier *)

(** The texts of the [k]-th group. *)
Definition groupOf (documents : list string) (batchSize : Z) (k : nat)
  : list string :=
  take (Z.to_nat batchSize) (drop (k * Z.to_nat batchSize) documents).

(** The number of groups: the length over the group size, rounded up. *)
Definition groupCount (documents : list string) (batchSize : Z) : nat :=
  Z.to_nat ((Z.of_nat (length documents) + batchSize - 1) / batchSize).

(** The rule lists with which the request for the [k]-th group is
    answered; none when that request fails. *)
Definition groupAnswer (env : BatchEnv) (documents : list string)
    (batchSize : Z) (ruleNames : list string) (apiKey : string) (k : nat)
  : option BatchResults :=
  match sendBatchComplianceRequest env k
          (prepareBatchComplianceRequest (groupOf documents batchSize k)
                                         ruleNames)
          apiKey with
  | Ok batchResponse => Some batchResponse
  | _ => None
  end.

(** What the last of the groups [from], ..., [from + count - 1] that is
    answered with a list for [docID] suggests for it. *)
Fixpoint lastMention (answer : nat → option BatchResults) (docID : string)
    (from count : nat) : option (list string) :=
  match count with
  | O => None
  | S count' =>
    match lastMention answer docID (S from) count' with
    | Some applicableRules => Some applicableRules
    | None => answer from ≫= (λ batchResponse, batchResponse !! docID)
    end
  end.

(** ** Notions used in the statements on action items *)

(** The row the store returns for a rule name. *)
Definition ruleNamed (s : Store) (name : string) : option ComplianceRule :=
  firstByKey rule_ID (λ r, bool_decide (rule_Name r = name))
             (compliance_rules s).

(** An outcome that leads to an action item, with the rule found for it:
    the outcome has failed, it names a rule, and the store has a row of
    that name whose key is not empty. *)
Definition actionable (s : Store) (o : Outcome)
  : option (Outcome * ComplianceRule) :=
  if hasFailed o then
    name ← asString (o !! "rule_name");
    rule ← ruleNamed s name;
    if bool_decide (rule_ID rule = "") then None else Some (o, rule)
  else None.

(** The calls of the store in a pass of [CreateActionItems]. *)
Inductive StoreOp : Type :=
| OpFirstRule
| OpCreateActionItem
| OpCreateRuleResult.

#[global] Instance StoreOp_eq_dec : EqDecision StoreOp.
Proof. solve_decision. Defined.

(** The calls that the pass makes for one outcome, as long as each of them
    is answered: a failed outcome with a rule name has its rule looked up
    and, when it is actionable, the two rows written. *)
Definition outcomeCalls (s : Store) (o : Outcome) : list StoreOp :=
  if hasFailed o then
    match asString (o !! "rule_name") with
    | None => []
    | Some _ =>
      match actionable s o with
      | Some _ => [OpFirstRule; OpCreateActionItem; OpCreateRuleResult]
      | None => [OpFirstRule]
      end
    end
  else [].

(** The calls of a pass over the outcomes, in their order. *)
Definition passCalls (s : Store) (results : list Outcome) : list StoreOp :=
  flat_map (outcomeCalls s) results.

(** How many of the calls are [op]. *)
Definition countOp (op : StoreOp) (calls : list StoreOp) : nat :=
  length (filter (λ o, o = op) calls).

(** The action item created for an actionable outcome. Its three times
    are consecutive readings of the clock: creation, update, and the
    reading to which the month is added. *)
Definition actionItemFor (rt : GoRuntime) (doc : Document)
    (clock : nat → Time) (found : Outcome * ComplianceRule) (a : ActionItem)
  : Prop :=
  ai_DocumentID a = doc_ID doc ∧
  ai_RuleID a = rule_ID found.2 ∧
  ai_Status a = "pending" ∧
  ai_Priority a =
    strings_Title rt (strings_ToLower rt (fieldOr found.1 "severity")) ∧
  ai_Description a =
    "Address " +:+ fieldOr found.1 "rule_name" +:+ " non-compliance: "
    +:+ fieldOr found.1 "explanation" ∧
  ai_AssignedTo a = "" ∧
  ∃ k, ai_CreatedAt a = clock k ∧ ai_UpdatedAt a = clock (S k) ∧
       ai_DueDate a = time_AddDate rt (clock (S (S k))) 0 1 0.

(** The rule result created for an actionable outcome. *)
Definition ruleResultFor (doc : Document)
    (found : Outcome * ComplianceRule) (r : DocumentRuleResult) : Prop :=
  drr_DocumentID r = doc_ID doc ∧
  drr_RuleID r = rule_ID found.2 ∧
  drr_Status r = "fail" ∧
  drr_Details r = Encodes (JObject found.1).

(** No call of the store fails from now on. *)
Definition storeAnswers (w : World) : Prop :=
  ∀ n, calls w ≤ n → faults w n = None.

(** ** Sample worlds *)

(** A world whose store answers every call, with a clock that advances one
    second per reading. *)
Definition quietWorld (s : Store) : World :=
  mkWorld s (λ _, None) (λ n, "uuid-" +:+ pretty n) 0
          (λ n, (Z.of_nat n * Second)%Z) 0 [].

(** The same, but the [k]-th call of the store fails. *)
Definition faultyWorld (s : Store) (k : nat) (e : string) : World :=
  mkWorld s (λ n, if bool_decide (n = k) then Some e else None)
          (λ n, "uuid-" +:+ pretty n) 0 (λ n, (Z.of_nat n * Second)%Z) 0 [].

Definition ndaOutcome : Outcome :=
  outcomeOf "NDA Check" "fail" "high" "Missing NDA".

Definition ndaDocument : Document :=
  mkDocument "doc1" "agreement" "pdf" "https://store/agreement.pdf"
             "The parties agree." (Encodes (JArray [JObject ndaOutcome]))
             3%Z 0%Z 0%Z.

Definition pendingItem : ActionItem :=
  mkActionItem "action1" "doc1" "rule1"
               "Address NDA Check non-compliance: Missing NDA" "" "pending"
               "High" 100%Z 0%Z 0%Z.

(** A store as [CreateActionItems] leaves it for [ndaDocument]. *)
Definition ingestedStore : Store :=
  mkStore [ndaRule] [pendingItem]
          [mkDocumentRuleResult "result1" "doc1" "rule1" "fail"
                                (Encodes (JObject ndaOutcome)) 0%Z]
          [ndaDocument].

(** A document whose parsed data is an object, and a store that holds it
    with a pending action item and its rule result. *)
Definition annotatedDocument : Document :=
  mkDocument "doc1" "agreement" "pdf" "https://store/agreement.pdf"
             "The parties agree."
             (Encodes (JObject (<["department" := JString "legal"]> ∅)))
             3%Z 0%Z 0%Z.

Definition annotatedStore : Store :=
  mkStore [ndaRule] [pendingItem]
          [mkDocumentRuleResult "result1" "doc1" "rule1" "fail"
                                (Encodes (JObject ndaOutcome)) 0%Z]
          [annotatedDocument].


(** ** Helpers of the compliance service *)

(** [removeDuplicates]: [seen] is the map of the items met so far. *)
Definition removeDuplicates (slice : list string) : list string :=
  (fold_left
     (λ '(seen, result) item,
        if negb (default false ((seen : gmap string bool) !! item))
        then (<[item := true]> seen, result ++ [item])
        else (seen, result))
     slice (∅, [])).2.

(** [fuzzyContains]: the loop is the one of [countMatches]; the bound is
    [len(keywords)/2+1] in [int] arithmetic. *)
Definition fuzzyContains (text : string) (keywords : list string) : bool :=
  let matchCount := countMatches text keywords in
  (int_add (Z.quot (Z.of_nat (length keywords)) 2) 1 <=? matchCount)%Z.

(** [fuzzyContainsAny]: returns at the first keyword found. *)
Fixpoint fuzzyContainsAny (text : string) (keywords : list string) : bool :=
  match keywords with
  | [] => false
  | keyword :: rest =>
    if strings_Contains text keyword then true
    else fuzzyContainsAny text rest
  end.

(** ** Notions used in the statements on the classifiers *)

(** The surroundings [env] with another remote service. *)
Definition withClientDo (env : ClassifyEnv)
    (remote : nat → Attempt (list string)) : ClassifyEnv :=
  mkClassifyEnv (groqClock env) (ruleClock env) (dbRules env)
                (VITE_GROQ_API_KEY env) (marshalFails env)
                (newRequestErr env) remote (rangeOrder env).

(** An attempt after which the loop goes on: an error, or status 429. *)
Definition retried (attempt : Attempt (list string)) : Prop :=
  match attempt with
  | DoErr _ => True
  | DoOk r => StatusCode r = 429%Z
  end.

(** A remote service that answers every attempt with status 429. *)
Definition remoteBusy : nat → Attempt (list string) :=
  λ _, DoOk (mkResponse 429%Z None).

(** A remote service whose first answer suggests [names]; it would fail on
    every later attempt. *)
Definition remoteSuggests (names : list string)
  : nat → Attempt (list string) :=
  λ attempt,
    match attempt with
    | O => DoOk (mkResponse 200%Z (Some (Wellformed [Wellformed names])))
    | S _ => DoErr None
    end.

(** ** Notions used in the statements on the store *)

(** [w'] is [w] after rows were appended to the action items and to the
    rule results: the rules and the documents are as they were, and so are
    the answers the surroundings will give. *)
Definition appended (w w' : World) (newActions : list ActionItem)
    (newResults : list DocumentRuleResult) : Prop :=
  compliance_rules (store w') = compliance_rules (store w) ∧
  documents (store w') = documents (store w) ∧
  action_items (store w') = action_items (store w) ++ newActions ∧
  document_rule_results (store w') =
    document_rule_results (store w) ++ newResults ∧
  faults w' = faults w ∧ uuids w' = uuids w ∧ clock w' = clock w ∧
  (calls w ≤ calls w')%nat ∧ (ticks w ≤ ticks w')%nat.

(** A new action item of the document: pending, and assigned to nobody. *)
Definition pendingFor (doc : Document) (a : ActionItem) : Prop :=
  ai_DocumentID a = doc_ID doc ∧ ai_Status a = "pending" ∧
  ai_AssignedTo a = "".

(** A new rule result of the document. *)
Definition failedFor (doc : Document) (r : DocumentRuleResult) : Prop :=
  drr_DocumentID r = doc_ID doc ∧ drr_Status r = "fail".

(** The rows the store returns for the lookups of [UpdateActionItem]. *)
Definition findActionItem (s : Store) (actionID : string)
  : option ActionItem :=
  firstByKey ai_ID (λ a, bool_decide (ai_ID a = actionID)) (action_items s).

Definition findRuleResult (s : Store) (documentID ruleID : string)
  : option DocumentRuleResult :=
  firstByKey drr_ID
             (λ r, bool_decide (drr_DocumentID r = documentID)
                   && bool_decide (drr_RuleID r = ruleID))
             (document_rule_results s).

Definition findDocument (s : Store) (documentID : string) : option Document :=
  firstByKey doc_ID (λ d, bool_decide (doc_ID d = documentID)) (documents s).

(** The map [decodeColumn] hands on for a column; [None] is the nil map. *)
Definition decodedObject (raw : RawJSON) : option Outcome :=
  if isEmptyColumn raw then Some ∅
  else
    match unmarshalMap raw with
    | MapOf m => Some m
    | MapNil => None
    | MapError _ => Some ∅
    end.

(** The store [s'] has the rows of [s], by their keys, and the same rules;
    its action items with another key than [actionID] are rows of [s]. *)
Definition sameRows (actionID : string) (s s' : Store) : Prop :=
  compliance_rules s' = compliance_rules s ∧
  map ai_ID (action_items s') = map ai_ID (action_items s) ∧
  map drr_ID (document_rule_results s') = map drr_ID (document_rule_results s) ∧
  map doc_ID (documents s') = map doc_ID (documents s) ∧
  ∀ a, In a (action_items s') → ai_ID a ≠ actionID → In a (action_items s).

(** ** Document ingestion: the compliance analysis *)

(** The outcome [UploadAndProcessDocument] writes for one rule of the
    catalog: a pass, turned into a failure when the classifier has named
    the rule. *)
Definition complianceResultOf (violatedRuleNames : list string)
    (rule : ComplianceRule) : Outcome :=
  let result : Outcome :=
    <["rule_name" := JString (rule_Name rule)]>
      (<["severity" := JString (rule_Severity rule)]>
         (<["status" := JString "pass"]>
            (<["explanation" :=
                 JString ("The document complies with the '"
                          +:+ rule_Name rule +:+ "' rule.")]> ∅))) in
  if contains violatedRuleNames (rule_Name rule) then
    <["explanation" :=
        JString ("The document violates the '" +:+ rule_Name rule
                 +:+ "' rule: does not meet the required pattern '"
                 +:+ rule_Pattern rule +:+ "'.")]>
      (<["status" := JString "fail"]> result)
  else result.

(** The loop that builds [complianceResults]. *)
Definition complianceResults (violatedRuleNames : list string)
    (allRules : list ComplianceRule) : list Outcome :=
  fold_left
    (λ complianceResults rule,
       complianceResults ++ [complianceResultOf violatedRuleNames rule])
    allRules [].

(** [json.Marshal(complianceResults)]: the slice is nil when the catalog
    has no rule, and nil is written as [null]. *)
Definition marshalResults (complianceResults : list Outcome) : RawJSON :=
  match complianceResults with
  | [] => Encodes JNull
  | _ => Encodes (JArray (JObject <$> complianceResults))
  end.

(** ** RuleChecker *)

(** An HTTP response as [CheckRuleCompliance] reads it: the status code
    and the body, [None] when [io.ReadAll] fails. The body is given by
    what encoding/json decodes it to: the list of [choices], each with the
    text of its [message.content], which is the empty text, text that is
    not JSON, or the JSON text of a value. *)
Record CheckResponse : Type := mkCheckResponse {
  check_StatusCode : Z;
  check_Body : option (Decoded (list RawJSON))
}.

(** One [client.Do(req)] of the checker: an error or a response. *)
Inductive CheckAttempt : Type :=
| CheckFailed
| CheckAnswered (resp : CheckResponse).

(** What the surroundings of one [CheckRuleCompliance] call provide. *)
Record CheckEnv : Type := mkCheckEnv {
  checkClock : Time * Time;
  checkMarshalFails : bool;
  checkNewRequestErr : option string;
  checkDo : nat → CheckAttempt
}.

(** The retry loop: the first response that comes without an error. *)
Fixpoint checkRetry (env : CheckEnv) (left attempt : nat)
  : option CheckResponse :=
  match left with
  | O => None
  | S left' =>
    match checkDo env attempt with
    | CheckAnswered resp => Some resp
    | CheckFailed => checkRetry env left' (S attempt)
    end
  end.

(** [CheckRuleCompliance]. The pattern matching at its head only feeds the
    prompt and the log. A content of [null] decodes to the nil map, whose
    status reads as the empty text, so that the default case assigns to
    the nil map. *)
Definition CheckRuleCompliance (env : CheckEnv) (rl : RateLimiter)
    (ocrText ruleName rulePattern : string) : result Outcome * RateLimiter :=
  let '(ok, rl') :=
    Allow rl (checkClock env).1 (checkClock env).2 "rule_compliance_check" in
  (if negb ok then Err "rate limit exceeded for rule compliance check"
   else if bool_decide (ocrText = "") then Err "empty OCR text provided"
   else if bool_decide (ruleName = "") then Err "empty rule name provided"
   else if checkMarshalFails env
   then Err "failed to serialize request payload"
   else
     match checkNewRequestErr env with
     | Some e => Err ("failed to create Groq API request: " +:+ e)
     | None =>
       match checkRetry env 3 0 with
       | None => Err "failed to send Groq API request after 3 attempts"
       | Some resp =>
         if bool_decide (check_StatusCode resp ≠ 200%Z)
         then Err "non-200 status code"
         else
           match check_Body resp with
           | None => Err "failed to read Groq response"
           | Some Malformed => Err "failed to parse Groq response structure"
           | Some (Wellformed []) =>
             Err "no compliance analysis returned from Groq"
           | Some (Wellformed (content :: _)) =>
             if isEmptyColumn content
             then Err "no compliance analysis returned from Groq"
             else
               match unmarshalMap content with
               | MapError e =>
                 Err ("failed to parse compliance response JSON: " +:+ e)
               | MapNil => Panic nilMapPanic
               | MapOf complianceResponse =>
                 let status :=
                   default "" (asString (complianceResponse !! "status")) in
                 let complianceResponse :=
                   if bool_decide (status = "partial_pass"
                                   ∨ status = "soft_fail")
                   then <["status" := JString "fail"]> complianceResponse
                   else if bool_decide (status = "pass")
                   then complianceResponse
                   else <["status" := JString "fail"]> complianceResponse in
                 Ok (<["rule_name" := JString ruleName]> complianceResponse)
               end
           end
       end
     end,
   rl').

(** A checker's surroundings in which the first attempt is answered with
    status 200 and one choice of content [content]. *)
Definition checkEnvOf (content : RawJSON) : CheckEnv :=
  mkCheckEnv (1%Z, 1%Z) false None
    (λ _, CheckAnswered
            (mkCheckResponse 200%Z (Some (Wellformed [content])))).

(** ** Document listing: [processDocumentCompliance] *)

(** The values of the map that describes a document in a listing. *)
Inductive DocValue : Type :=
| DString (s : string)
| DFloat (x : Z)
| DRaw (raw : RawJSON)
| DNames (names : list string)
| DOutcomes (details : list Outcome).

(** What [processDocumentCompliance] returns: the map and the error, or a
    panic. *)
Inductive Processed : Type :=
| Returned (docMap : gmap string DocValue) (err : option string)
| Panicked (msg : string).

(** [json.Unmarshal] into [[]map[string]interface{}], with the nil map
    that an element [null] decodes to kept apart as [None]. *)
Definition unmarshalMaps (raw : RawJSON) : string + list (option Outcome) :=
  match raw with
  | NotJSON _ => inl "invalid character looking for beginning of value"
  | Encodes JNull => inr []
  | Encodes (JArray l) =>
    match mapM (λ v, match v with
                     | JObject m => Some (Some m)
                     | JNull => Some None
                     | _ => None
                     end) l with
    | Some results => inr results
    | None => inl "json: cannot unmarshal into Go value of type map[string]interface {}"
    end
  | Encodes _ =>
    inl "json: cannot unmarshal into Go value of type []map[string]interface {}"
  end.

(** The dynamic type that a failed type assertion names in its panic. *)
Definition goTypeName (v : option JSON) : string :=
  match v with
  | None | Some JNull => "nil"
  | Some (JBool _) => "bool"
  | Some (JNumber _) => "float64"
  | Some (JString _) => "string"
  | Some (JArray _) => "[]interface {}"
  | Some (JObject _) => "map[string]interface {}"
  end.

Definition conversionPanic (v : option JSON) : string :=
  "interface conversion: interface {} is " +:+ goTypeName v +:+ ", not string".

(** [name, ok := result[key].(string); ok && name != ""]. *)
Definition nonEmptyString (v : option JSON) : option string :=
  match asString v with
  | Some name => if bool_decide (name ≠ "") then Some name else None
  | None => None
  end.

(** The rule name chosen for one outcome; [None] is the nil map, which
    reads like the empty map. The type assertion on the explanation is not
    checked: it is evaluated in the first round of the loop over the
    applicable names. *)
Definition chooseRuleName (rt : GoRuntime) (outcome : option Outcome)
    (applicableRuleNames : list string) : result string :=
  let get (key : string) : option JSON := outcome ≫= (λ m, m !! key) in
  match nonEmptyString (get "rule_name") with
  | Some name => Ok name
  | None =>
    match nonEmptyString (get "rule") with
    | Some name => Ok name
    | None =>
      match applicableRuleNames with
      | [] => Ok ""
      | first :: _ =>
        match get "explanation" with
        | Some (JString explanation) =>
          let ruleName :=
            default ""
              (List.find
                 (λ name, strings_Contains (strings_ToLower rt explanation)
                                           (strings_ToLower rt name))
                 applicableRuleNames) in
          Ok (if bool_decide (ruleName = "") then first else ruleName)
        | v => Panic (conversionPanic v)
        end
      end
    end
  end.

(** The loop over the decoded outcomes. *)
Fixpoint processResults (rt : GoRuntime) (applicableRuleNames : list string)
    (complianceResults : list (option Outcome)) (overallStatus : string)
    (processedComplianceDetails : list Outcome)
  : result (string * list Outcome) :=
  match complianceResults with
  | [] => Ok (overallStatus, processedComplianceDetails)
  | result :: rest =>
    match chooseRuleName rt result applicableRuleNames with
    | Panic e => Panic e
    | Err e => Err e
    | Ok ruleName =>
      match result with
      | None => Panic nilMapPanic
      | Some result =>
        let result := <["rule_name" := JString ruleName]> result in
        let overallStatus :=
          match asString (result !! "status") with
          | Some status =>
            if bool_decide (status ≠ "pass") then "fail" else overallStatus
          | None => "fail"
          end in
        processResults rt applicableRuleNames rest overallStatus
                       (processedComplianceDetails ++ [result])
      end
    end
  end.

Definition processDocumentCompliance (rt : GoRuntime) (env : ClassifyEnv)
    (g : Limiters) (doc : Document) : Processed * Limiters :=
  let docMap : gmap string DocValue :=
    <["id" := DString (doc_ID doc)]>
      (<["title" := DString (doc_Title doc)]>
         (<["file_type" := DString (doc_FileType doc)]>
            (<["original_url" := DString (doc_OriginalURL doc)]>
               (<["ocr_text" := DString (doc_OcrText doc)]>
                  (<["risk_score" := DFloat (doc_RiskScore doc)]>
                     (<["parsed_data" := DRaw (doc_ParsedData doc)]> ∅)))))) in
  if bool_decide (doc_OcrText doc = "") then (Returned docMap None, g)
  else
    let '(applicableRuleNames, g') :=
      DetermineApplicableRules rt env g (doc_OcrText doc) in
    match applicableRuleNames with
    | Panic e => (Panicked e, g')
    | Err e => (Returned docMap (Some e), g')
    | Ok applicableRuleNames =>
      if bool_decide (length applicableRuleNames = 0)
      then (Returned docMap None, g')
      else if isEmptyColumn (doc_ParsedData doc)
      then (Returned (<["applicable_rules" := DNames applicableRuleNames]>
                        docMap) None, g')
      else
        match unmarshalMaps (doc_ParsedData doc) with
        | inl err =>
          (Returned (<["compliance_parsing_error" := DString err]> docMap)
                    (Some err), g')
        | inr complianceResults =>
          match processResults rt applicableRuleNames complianceResults
                               "pass" [] with
          | Panic e => (Panicked e, g')
          | Err e => (Panicked e, g')
          | Ok (overallStatus, processedComplianceDetails) =>
            (Returned
               (<["applicable_rules" := DNames applicableRuleNames]>
                  (<["compliance_details" :=
                       DOutcomes processedComplianceDetails]>
                     (<["compliance_status" := DString overallStatus]>
                        docMap)))
               None, g')
          end
        end
    end.

(** * Verification *)

Local Open Scope Z_scope.

(** ** Arithmetic of the base types *)

Lemma wrap64_id (z : Z) : (minInt ≤ z ≤ maxInt)%Z → wrap64 z = z.
Proof.
  unfold wrap64, minInt, maxInt. intros H.
  rewrite Z.mod_small; lia.
Qed.

Lemma int_add_id (a b : Z) : (minInt ≤ a + b ≤ maxInt)%Z → int_add a b = (a + b)%Z.
Proof. apply wrap64_id. Qed.

Lemma f64_round_id (z : Z) : (0 ≤ z < 2 ^ 53)%Z → f64_round z = z.
Proof.
  intros H. unfold f64_round, f64_round_pos.
  rewrite Z.abs_eq by lia.
  destruct (Z.ltb_spec (Z.abs z) (2 ^ 53)) as [_|Hge]; [|lia].
  destruct (Z.eq_dec z 0) as [->|Hne]; [reflexivity|].
  rewrite Z.sgn_pos by lia. 
  destruct (Z.ltb_spec z (2 ^ 53)); lia.
Qed.

(** ** RateGate *)

Lemma Allow_in_window (rl : RateLimiter) (tSince tNow : Time) (key : string) :
  (time_Since tSince (lastReset rl) ≤ window rl)%Z →
  Allow rl tSince tNow key =
    let count := int_add (default 0%Z (requestCount rl !! key)) 1 in
    ((count <=? limit rl)%Z,
     mkRateLimiter (<[key := count]> (requestCount rl)) (limit rl) (window rl)
                   (lastReset rl)).
Proof.
  intros H. unfold Allow.
  destruct (Z.ltb_spec (window rl) (time_Since tSince (lastReset rl))); [lia|].
  reflexivity.
Qed.

Lemma Allow_elapsed (rl : RateLimiter) (tSince tNow : Time) (key : string) :
  (window rl < time_Since tSince (lastReset rl))%Z →
  Allow rl tSince tNow key =
    ((1 <=? limit rl)%Z,
     mkRateLimiter {[key := 1%Z]} (limit rl) (window rl) tNow).
Proof.
  intros H. unfold Allow.
  destruct (Z.ltb_spec (window rl) (time_Since tSince (lastReset rl))); [|lia].
  cbn [requestCount limit window lastReset].
  rewrite lookup_empty. cbn [default from_option].
  rewrite int_add_id by (unfold minInt, maxInt; lia).
  reflexivity.
Qed.

Lemma AllowAll_cons (rl : RateLimiter) (key : string) (tSince tNow : Time)
    (rest : list (string * Time * Time)) :
  (AllowAll rl ((key, tSince, tNow) :: rest)).1 =
    (Allow rl tSince tNow key).1 :: (AllowAll (Allow rl tSince tNow key).2 rest).1.
Proof.
  cbn [AllowAll]. destruct (Allow rl tSince tNow key) as [ok rl1].
  cbn [fst snd]. by destruct (AllowAll rl1 rest).
Qed.

(** Inside a window the answer to a call is read off the count its key
    had when the window was entered and the calls made since. *)
Lemma AllowAll_nth (calls : list (string * Time * Time)) :
  ∀ (rl : RateLimiter) (i : nat) (key : string) (tSince tNow : Time),
    inWindow (window rl) (lastReset rl) calls →
    calls !! i = Some (key, tSince, tNow) →
    let c0 := default 0 (requestCount rl !! key) in
    let n := c0 + Z.of_nat (sameKeyCalls key (take (S i) calls)) in
    0 ≤ c0 → n ≤ maxInt →
    (AllowAll rl calls).1 !! i = Some (bool_decide (n ≤ limit rl)).
Proof.
  induction calls as [|[[k tS] tN] rest IH]; intros rl i key tSince tNow Hwin Hi;
    [by rewrite lookup_nil in Hi|].
  apply Forall_cons in Hwin as [Hc Hrest]. cbn [fst snd] in Hc.
  rewrite AllowAll_cons, (Allow_in_window _ _ _ _ Hc). cbn [fst snd].
  set (rl1 := mkRateLimiter _ _ _ _).
  destruct i as [|i].
  - cbn [lookup list_lookup] in Hi. injection Hi as -> -> ->.
    cbn [take sameKeyCalls fst].
    rewrite (bool_decide_eq_true_2 (key = key) eq_refl).
    intros Hc0 Hn.
    rewrite int_add_id by (unfold minInt, maxInt in *; lia).
    cbn [lookup list_lookup]. f_equal.
    replace (Z.of_nat (1 + 0)) with 1 by lia.
    destruct (Z.leb_spec (default 0 (requestCount rl !! key) + 1) (limit rl)).
    + by rewrite bool_decide_eq_true_2.
    + by rewrite bool_decide_eq_false_2 by lia.
  - cbn [lookup list_lookup] in Hi |- *.
    rewrite firstn_cons. cbn [sameKeyCalls fst].
    intros Hc0 Hn.
    specialize (IH rl1 i key tSince tNow Hrest Hi).
    cbn zeta in IH.
    subst rl1. cbn [requestCount limit] in IH.
    destruct (decide (k = key)) as [->|Hne].
    + rewrite (bool_decide_eq_true_2 (key = key) eq_refl) in Hn |- *.
      rewrite lookup_insert_eq in IH. cbn [default from_option] in IH.
      rewrite int_add_id in IH |- * by (unfold minInt, maxInt in *; lia).
      etrans; [apply IH; unfold id in *; lia|]. unfold id in *. f_equal.
      apply bool_decide_ext. lia.
    + rewrite (bool_decide_eq_false_2 (k = key) Hne) in Hn |- *.
      rewrite lookup_insert_ne in IH by done.
      etrans; [apply IH; lia|]. f_equal.
Qed.

(** C6 (as amended). For a limiter with limit [L], [1 ≤ L < maxInt], and
    window [W]: in a window opened by [NewRateLimiter], and in a window
    opened by the first call after the previous window has elapsed, the
    [n]-th call with a key is admitted exactly when [n ≤ L], so the first
    [L] calls with the key return true and the [(L+1)]-th returns false; the
    call that finds the window elapsed is the first of the new window and
    returns true whatever the counts of the previous window were. *)
Theorem RateLimiter_window (L : Z) (W : Duration) :
  1 ≤ L < maxInt →
  (∀ (t0 : Time) (calls : list (string * Time * Time)),
     inWindow W t0 calls →
     admitsFirst L calls (AllowAll (NewRateLimiter L W t0) calls).1)
  ∧
  (∀ (rl : RateLimiter) (key : string) (tSince tNow : Time)
     (calls : list (string * Time * Time)),
     limit rl = L → window rl = W →
     W < time_Since tSince (lastReset rl) →
     inWindow W tNow calls →
     (Allow rl tSince tNow key).1 = true ∧
     admitsFirst L ((key, tSince, tNow) :: calls)
                 (AllowAll rl ((key, tSince, tNow) :: calls)).1).
Proof.
  intros HL. split.
  - intros t0 calls Hwin i key tSince tNow Hi n Hn.
    pose proof (AllowAll_nth calls (NewRateLimiter L W t0) i key tSince tNow
                  Hwin Hi) as H.
    cbn [NewRateLimiter requestCount limit] in H. rewrite lookup_empty in H.
    cbn in H. apply H; [lia|]. fold n. lia.
  - intros rl key tSince tNow calls HLrl HW Hel Hwin. subst L W.
    rewrite AllowAll_cons, (Allow_elapsed _ _ _ _ Hel). cbn [fst snd].
    split; [apply Z.leb_le; lia|].
    intros i k tS tN Hi n Hn.
    destruct i as [|i].
    + cbn [lookup list_lookup] in Hi. injection Hi as -> -> ->.
      subst n. rewrite firstn_cons, firstn_O in Hn |- *.
      cbn [sameKeyCalls fst] in *.
      rewrite (bool_decide_eq_true_2 (k = k) eq_refl) in *.
      cbn [lookup list_lookup]. f_equal.
      destruct (Z.leb_spec 1 (limit rl)); [|lia].
      by rewrite bool_decide_eq_true_2 by lia.
    + cbn [lookup list_lookup] in Hi |- *.
      set (rl1 := mkRateLimiter _ _ _ _).
      pose proof (AllowAll_nth calls rl1 i k tS tN Hwin Hi) as H.
      cbn zeta in H. subst rl1. cbn [requestCount limit] in H.
      subst n. rewrite firstn_cons in Hn |- *. cbn [sameKeyCalls fst] in Hn |- *.
      destruct (decide (key = k)) as [->|Hne].
      * rewrite (bool_decide_eq_true_2 (k = k) eq_refl) in Hn |- *.
        rewrite lookup_singleton_eq in H. cbn in H.
        etrans; [apply H; lia|]. f_equal. apply bool_decide_ext. lia.
      * rewrite (bool_decide_eq_false_2 (key = k) Hne) in Hn |- *.
        rewrite lookup_singleton_ne in H by done. cbn in H.
        etrans; [apply H; lia|]. f_equal.
Qed.

Lemma RateLimiter_window_witness :
  let calls := [("client", 1, 1); ("client", 2, 2); ("client", 3, 3)] in
  1 ≤ 2 < maxInt ∧ inWindow Minute 0 calls ∧
  (AllowAll (NewRateLimiter 2 Minute 0) calls).1 = [true; true; false] ∧
  (AllowAll (NewRateLimiter 2 Minute 0) calls).1 !! 2%nat = Some false.
Proof.
  intros calls.
  assert (HL : 1 ≤ 2 < maxInt) by (unfold maxInt; lia).
  assert (Hwin : inWindow Minute 0 calls)
    by (unfold inWindow, calls;
        repeat (apply Forall_cons; split; [vm_compute; congruence|]);
        constructor).
  split; [exact HL|]. split; [exact Hwin|]. split; [reflexivity|].
  exact (proj1 (RateLimiter_window 2 Minute HL) 0 calls Hwin 2%nat
               "client" 3 3 eq_refl ltac:(vm_compute; congruence)).
Defined.

(** C6 (as stated) fails for the limit 0: the call that finds the window
    elapsed is refused. *)
Lemma RateLimiter_limit_zero_counterexample :
  let rl := NewRateLimiter 0 Minute 0 in
  window rl < time_Since (2 * Minute) (lastReset rl) ∧
  (Allow rl (2 * Minute) (2 * Minute) "client").1 = false.
Proof. split; reflexivity. Qed.

(** ** RiskScorer *)

Lemma severityWeights_lookup (severity : string) :
  default 1 (severityWeights !! severity) = weightOf severity.
Proof.
  unfold severityWeights, weightOf.
  destruct (decide (severity = "high")) as [->|Hh]; [reflexivity|].
  destruct (decide (severity = "medium")) as [->|Hm]; [reflexivity|].
  rewrite (bool_decide_eq_false_2 _ Hh), (bool_decide_eq_false_2 _ Hm).
  destruct (decide (severity = "low")) as [->|Hl]; [reflexivity|].
  by rewrite !lookup_insert_ne, lookup_empty by done.
Qed.

Lemma weightOf_bounds (severity : string) : 1 ≤ weightOf severity ≤ 3.
Proof. unfold weightOf. repeat case_bool_decide; lia. Qed.

(** The table built by the first loop finds, under a name, the last rule of
    the catalog that bears it. *)
Lemma ruleMapOf_lookup (rules : list ComplianceRule) (name : string) :
  ruleMapOf rules !! name = catalogRule rules name.
Proof.
  unfold ruleMapOf, catalogRule.
  induction rules as [|rule rules IH] using rev_ind; [reflexivity|].
  rewrite fold_left_app, filter_app. cbn [fold_left].
  destruct (decide (rule_Name rule = name)) as [Heq|Hne].
  - rewrite filter_cons_True by done. rewrite filter_nil, last_snoc.
    rewrite <- Heq. apply lookup_insert_eq.
  - rewrite lookup_insert_ne by done.
    rewrite filter_cons_False by done. rewrite filter_nil, app_nil_r.
    exact IH.
Qed.

Lemma contribution_bounds (rules : list ComplianceRule) (i : nat) (o : Outcome) :
  0 ≤ contribution rules i o ≤ 3.
Proof.
  unfold contribution. destruct (hasFailed o); [|lia].
  destruct (lookupName rules i o ≫= catalogRule rules) as [rule|]; [|lia].
  pose proof (weightOf_bounds (rule_Severity rule)). lia.
Qed.

(** One round of the loop adds the contribution of the outcome it visits. *)
Lemma scoreLoop_cons (rules : list ComplianceRule) (i : nat)
    (result : Outcome) (rest : list Outcome) (riskScore : Z) :
  0 ≤ riskScore → riskScore + 3 < 2 ^ 53 →
  scoreLoop (ruleMapOf rules) rules i (result :: rest) riskScore =
  scoreLoop (ruleMapOf rules) rules (S i) rest
            (riskScore + contribution rules i result).
Proof.
  intros H0 Hlt. cbn [scoreLoop]. unfold contribution, hasFailed, lookupName.
  destruct (asString (result !! "status")) as [status|] eqn:Hstatus.
  2:{ rewrite bool_decide_eq_false_2 by done. by rewrite Z.add_0_r. }
  destruct (asString (result !! "rule_name")) as [name|] eqn:Hname;
    [|destruct (rules !! i) as [r|] eqn:Hr]; cbn [fmap option_fmap option_map mbind option_bind];
    try (case_bool_decide; by rewrite Z.add_0_r).
  all: rewrite ruleMapOf_lookup.
  all: destruct (decide (status = "fail")) as [->|Hne];
    [ rewrite !bool_decide_eq_true_2 by done
    | rewrite bool_decide_eq_false_2 by done;
      rewrite bool_decide_eq_false_2 by congruence; by rewrite Z.add_0_r ].
  all: match goal with
       | |- context [catalogRule ?rs ?n] =>
         destruct (catalogRule rs n) as [rule|]; [|by rewrite Z.add_0_r]
       end.
  all: rewrite severityWeights_lookup; unfold f64_add;
    pose proof (weightOf_bounds (rule_Severity rule));
    by rewrite f64_round_id by lia.
Qed.

(** As long as the total stays below 2^53 the loop computes the exact sum
    of the contributions. *)
Lemma scoreLoop_exact (rules : list ComplianceRule) (results : list Outcome) :
  ∀ (i : nat) (riskScore : Z),
    0 ≤ riskScore →
    riskScore + 3 * Z.of_nat (length results) < 2 ^ 53 →
    scoreLoop (ruleMapOf rules) rules i results riskScore =
    riskScore + sumZ (imap (λ j, contribution rules (i + j)) results).
Proof.
  induction results as [|result rest IH]; intros i riskScore H0 Hlt.
  - cbn. lia.
  - cbn [length] in Hlt.
    pose proof (contribution_bounds rules i result).
    rewrite scoreLoop_cons by lia. rewrite IH by lia.
    cbn [imap sumZ foldr]. rewrite Nat.add_0_r.
    rewrite (imap_ext ((λ j, contribution rules (i + j)%nat) ∘ S)
                      (λ j, contribution rules (S i + j)%nat));
      [unfold sumZ; lia|].
    intros j x _. cbn. f_equal. lia.
Qed.

Lemma CalculateRiskScore_admitted (rl : RateLimiter) (tSince tNow : Time)
    (results : list Outcome) (rules : list ComplianceRule) :
  (Allow rl tSince tNow "risk_score_calculation").1 = true →
  3 * Z.of_nat (length results) < 2 ^ 53 →
  (CalculateRiskScore rl tSince tNow results rules).1 =
  expectedScore rules results.
Proof.
  intros Hok Hlen. unfold CalculateRiskScore.
  destruct (Allow rl tSince tNow "risk_score_calculation") as [ok rl'].
  cbn [fst] in Hok. subst ok. cbn [negb fst].
  rewrite scoreLoop_exact by lia. unfold expectedScore. cbn. done.
Qed.

Lemma sumZ_app (l1 l2 : list Z) : sumZ (l1 ++ l2) = sumZ l1 + sumZ l2.
Proof. unfold sumZ. induction l1 as [|x l1 IH]; cbn; lia. Qed.

Lemma sumZ_zero (l : list Z) : Forall (λ x, x = 0) l → sumZ l = 0.
Proof. unfold sumZ. induction 1 as [|x l -> _ IH]; cbn; lia. Qed.

Lemma sumZ_Permutation (l1 l2 : list Z) : l1 ≡ₚ l2 → sumZ l1 = sumZ l2.
Proof. unfold sumZ. induction 1; cbn; lia. Qed.

Lemma contribution_passed (rules : list ComplianceRule) (i : nat) (o : Outcome) :
  hasFailed o = false → contribution rules i o = 0.
Proof. unfold contribution. by intros ->. Qed.

(** The index only matters for a failed outcome without a name. *)
Lemma contribution_named (rules : list ComplianceRule) (i : nat) (o : Outcome) :
  failedIsNamed o → contribution rules i o = contribution rules 0 o.
Proof.
  unfold failedIsNamed, contribution, lookupName. intros H.
  destruct (hasFailed o); [|reflexivity].
  by destruct (H eq_refl) as [name ->].
Qed.

Lemma expectedScore_named (rules : list ComplianceRule) (results : list Outcome) :
  Forall failedIsNamed results →
  expectedScore rules results = sumZ (contribution rules 0 <$> results).
Proof.
  intros H. unfold expectedScore. f_equal.
  rewrite <- (imap_const (contribution rules 0%nat)).
  apply imap_ext. intros i o Hi. apply contribution_named.
  eapply Forall_lookup_1; eauto.
Qed.

Lemma expectedScore_all_passed (rules : list ComplianceRule)
    (results : list Outcome) :
  Forall (λ o, hasFailed o = false) results → expectedScore rules results = 0.
Proof.
  intros H. unfold expectedScore. apply sumZ_zero.
  apply Forall_forall. intros x [i [o [-> Hio]]]%elem_of_lookup_imap.
  apply contribution_passed. exact (Forall_lookup_1 _ _ _ _ H Hio).
Qed.

(** C5 (as amended). When the rule limiter admits the call, the score is
    the sum, over the outcomes with status fail whose rule name (their
    [rule_name] or, without one, the name of the catalog rule at the same
    index) is found in the catalog, of the weight of the severity of the
    rule found: high 3, medium 2, low and anything else 1; every other
    outcome adds zero. An outcome list without a failure scores 0 and a
    single failure of a high-severity rule scores 3. The list has fewer
    than 2^53 / 3 entries, which keeps the [float64] total exact. *)
Theorem CalculateRiskScore_sum (rl : RateLimiter) (tSince tNow : Time)
    (results : list Outcome) (rules : list ComplianceRule) :
  (Allow rl tSince tNow "risk_score_calculation").1 = true →
  3 * Z.of_nat (length results) < 2 ^ 53 →
  let score := (CalculateRiskScore rl tSince tNow results rules).1 in
  score = expectedScore rules results
  ∧ (Forall (λ o, hasFailed o = false) results → score = 0)
  ∧ (∀ before o after name rule,
       results = before ++ o :: after →
       Forall (λ o, hasFailed o = false) (before ++ after) →
       hasFailed o = true →
       asString (o !! "rule_name") = Some name →
       catalogRule rules name = Some rule →
       rule_Severity rule = "high" →
       score = 3).
Proof.
  intros Hok Hlen score.
  assert (Hscore : score = expectedScore rules results)
    by (apply CalculateRiskScore_admitted; assumption).
  split; [exact Hscore|]. split.
  - intros Hpass. rewrite Hscore. by apply expectedScore_all_passed.
  - intros before o after name rule -> Hpass Hfail Hname Hrule Hsev.
    rewrite Hscore. unfold expectedScore.
    apply Forall_app in Hpass as [Hb Ha].
    rewrite imap_app, sumZ_app. cbn [imap sumZ foldr].
    fold (sumZ (imap (contribution rules ∘ Nat.add (length before) ∘ S) after)).
    rewrite !sumZ_zero.
    + unfold contribution, lookupName.
      rewrite Hfail, Hname. cbn. rewrite Hrule, Hsev. reflexivity.
    + apply Forall_forall. intros x [i [y [-> Hiy]]]%elem_of_lookup_imap.
      apply contribution_passed. exact (Forall_lookup_1 _ _ _ _ Ha Hiy).
    + apply Forall_forall. intros x [i [y [-> Hiy]]]%elem_of_lookup_imap.
      apply contribution_passed. exact (Forall_lookup_1 _ _ _ _ Hb Hiy).
Qed.

Lemma CalculateRiskScore_sum_witness :
  let rl := NewRateLimiter 100 Minute 0 in
  let results :=
    [outcomeOf "Payment Terms Specification" "pass" "low" "terms are stated";
     outcomeOf "NDA Check" "fail" "high" "no agreement found"] in
  (Allow rl 1 1 "risk_score_calculation").1 = true ∧
  3 * Z.of_nat (length results) < 2 ^ 53 ∧
  (CalculateRiskScore rl 1 1 results [ndaRule; paymentRule]).1 = 3.
Proof.
  intros rl results.
  assert (Hok : (Allow rl 1 1 "risk_score_calculation").1 = true)
    by reflexivity.
  assert (Hlen : 3 * Z.of_nat (length results) < 2 ^ 53) by reflexivity.
  split; [exact Hok|]. split; [exact Hlen|].
  exact (proj2 (proj2 (CalculateRiskScore_sum rl 1 1 results
                         [ndaRule; paymentRule] Hok Hlen))
           [outcomeOf "Payment Terms Specification" "pass" "low"
                      "terms are stated"]
           (outcomeOf "NDA Check" "fail" "high" "no agreement found")
           [] "NDA Check" ndaRule eq_refl
           ltac:(repeat constructor) eq_refl eq_refl eq_refl eq_refl).
Defined.

(** C5 (as stated) fails: with the budget of the rule limiter spent, a
    failure of a high-severity rule scores 0; and a failed outcome that
    bears no name is scored under the rule at its index. *)
Lemma CalculateRiskScore_sum_counterexample :
  (CalculateRiskScore spentRuleLimiter 2 2
     [outcomeOf "NDA Check" "fail" "high" "no agreement found"]
     [ndaRule]).1 = 0
  ∧
  (CalculateRiskScore (NewRateLimiter 100 Minute 0) 1 1
     [<["status" := JString "fail"]> ∅] [ndaRule]).1 = 3.
Proof. split; vm_compute; reflexivity. Qed.

(** C4 (as amended). For outcome lists in which every failed outcome bears
    a [rule_name] (and of fewer than 2^53 / 3 entries), permuting the list
    does not change the score. *)
Theorem CalculateRiskScore_permutation (rl : RateLimiter)
    (tSince tNow : Time) (results results' : list Outcome)
    (rules : list ComplianceRule) :
  results ≡ₚ results' →
  Forall failedIsNamed results →
  3 * Z.of_nat (length results) < 2 ^ 53 →
  (CalculateRiskScore rl tSince tNow results rules).1 =
  (CalculateRiskScore rl tSince tNow results' rules).1.
Proof.
  intros Hperm Hnamed Hlen.
  destruct (Allow rl tSince tNow "risk_score_calculation").1 eqn:Hok.
  - rewrite !CalculateRiskScore_admitted; try done.
    + rewrite !expectedScore_named; [|by rewrite <- Hperm|done].
      apply sumZ_Permutation. by apply fmap_Permutation.
    + by rewrite <- Hperm.
  - unfold CalculateRiskScore.
    destruct (Allow rl tSince tNow "risk_score_calculation") as [ok rl'].
    cbn [fst] in Hok. by subst ok.
Qed.

Lemma CalculateRiskScore_permutation_witness :
  let rl := NewRateLimiter 100 Minute 0 in
  let failed := outcomeOf "NDA Check" "fail" "high" "no agreement found" in
  let passed :=
    outcomeOf "Payment Terms Specification" "pass" "low" "terms are stated" in
  [failed; passed] ≡ₚ [passed; failed] ∧
  Forall failedIsNamed [failed; passed] ∧
  3 * Z.of_nat (length [failed; passed]) < 2 ^ 53 ∧
  (CalculateRiskScore rl 1 1 [failed; passed] [ndaRule; paymentRule]).1 =
  (CalculateRiskScore rl 1 1 [passed; failed] [ndaRule; paymentRule]).1.
Proof.
  intros rl failed passed.
  assert (Hperm : [failed; passed] ≡ₚ [passed; failed]) by apply perm_swap.
  assert (Hnamed : Forall failedIsNamed [failed; passed])
    by (repeat constructor; intros _; eexists; reflexivity).
  assert (Hlen : 3 * Z.of_nat (length [failed; passed]) < 2 ^ 53)
    by reflexivity.
  split; [exact Hperm|]. split; [exact Hnamed|]. split; [exact Hlen|].
  exact (CalculateRiskScore_permutation rl 1 1 _ _ [ndaRule; paymentRule]
           Hperm Hnamed Hlen).
Defined.

(** C4 (as stated) fails: a failed outcome without a name is scored under
    the rule at its index, which a permutation changes. *)
Lemma CalculateRiskScore_permutation_counterexample :
  let rl := NewRateLimiter 100 Minute 0 in
  let unnamed : Outcome := <["status" := JString "fail"]> ∅ in
  let passed :=
    outcomeOf "Payment Terms Specification" "pass" "low" "terms are stated" in
  [unnamed; passed] ≡ₚ [passed; unnamed] ∧
  (CalculateRiskScore rl 1 1 [unnamed; passed] [ndaRule; paymentRule]).1 = 3 ∧
  (CalculateRiskScore rl 1 1 [passed; unnamed] [ndaRule; paymentRule]).1 = 1.
Proof. split; [apply perm_swap|]. split; vm_compute; reflexivity. Qed.

(** C10. When the rule limiter refuses the key [risk_score_calculation],
    the score is 0 whatever the outcomes and the catalog are; the result is
    a bare number, the same as for a list without failures. *)
Theorem CalculateRiskScore_denied (rl : RateLimiter) (tSince tNow : Time)
    (results : list Outcome) (rules : list ComplianceRule) :
  (Allow rl tSince tNow "risk_score_calculation").1 = false →
  (CalculateRiskScore rl tSince tNow results rules).1 = 0.
Proof.
  intros Hok. unfold CalculateRiskScore.
  destruct (Allow rl tSince tNow "risk_score_calculation") as [ok rl'].
  cbn [fst] in Hok. by subst ok.
Qed.

Lemma CalculateRiskScore_denied_witness :
  let results := [outcomeOf "NDA Check" "fail" "high" "no agreement found"] in
  (Allow spentRuleLimiter 2 2 "risk_score_calculation").1 = false ∧
  (CalculateRiskScore spentRuleLimiter 2 2 results [ndaRule]).1 = 0 ∧
  (CalculateRiskScore (NewRateLimiter 100 Minute 0) 2 2 [] [ndaRule]).1 = 0.
Proof.
  intros results.
  assert (Hok : (Allow spentRuleLimiter 2 2 "risk_score_calculation").1 = false)
    by (vm_compute; reflexivity).
  split; [exact Hok|]. split; [|reflexivity].
  exact (CalculateRiskScore_denied spentRuleLimiter 2 2 results [ndaRule] Hok).
Defined.

(** ** FallbackMatcher *)

Example f64_add_rounds_to_even :
  f64_add (2 ^ 53) 1 = 2 ^ 53 ∧ f64_add (2 ^ 53 + 2) 1 = 2 ^ 53 + 4.
Proof. split; reflexivity. Qed.

Example normalize_sample (rt : GoRuntime) :
  normalize rt "Non-Disclosure_AGREEMENT (v2)!" = "non disclosure agreement v2".
Proof. reflexivity. Qed.

Example Title_sample (rt : GoRuntime) :
  strings_Title rt (strings_ToLower rt "HIGH") = "High".
Proof. reflexivity. Qed.

(** The inner loop counts without wrapping as long as the list of terms is
    shorter than the range of [int]. *)
Lemma countMatches_fold (ocrLower : string) (matchTerms : list string) :
  ∀ matchCount : Z,
    0 ≤ matchCount →
    matchCount + Z.of_nat (length matchTerms) ≤ maxInt →
    let final :=
      fold_left
        (λ matchCount term,
           if strings_Contains ocrLower term then int_add matchCount 1
           else matchCount)
        matchTerms matchCount in
    matchCount ≤ final ∧
    (matchCount < final ↔
     ∃ term, term ∈ matchTerms ∧ strings_Contains ocrLower term = true).
Proof.
  induction matchTerms as [|term rest IH]; intros matchCount H0 Hmax; cbn.
  - split; [lia|]. split; [lia|]. intros [? [[]%elem_of_nil _]].
  - cbn [length] in Hmax.
    destruct (strings_Contains ocrLower term) eqn:Hterm.
    + rewrite int_add_id by (unfold minInt, maxInt in *; lia).
      destruct (IH (matchCount + 1)) as [Hle _]; [lia..|].
      cbn zeta in Hle. split; [lia|]. split; [|lia].
      intros _. exists term. split; [left|done].
    + destruct (IH matchCount) as [Hle Hiff]; [lia..|].
      cbn zeta in Hle, Hiff. split; [exact Hle|].
      rewrite Hiff. split; intros [t [Ht Hc]]; exists t; split; try done.
      * by right.
      * apply elem_of_cons in Ht as [->|Ht]; [congruence|done].
Qed.

Lemma countMatches_positive (ocrLower : string) (matchTerms : list string) :
  Z.of_nat (length matchTerms) ≤ maxInt →
  (0 <? countMatches ocrLower matchTerms) = true ↔
  ∃ term, term ∈ matchTerms ∧ strings_Contains ocrLower term = true.
Proof.
  intros Hlen. unfold countMatches.
  destruct (countMatches_fold ocrLower matchTerms 0) as [_ Hiff]; [lia..|].
  cbn zeta in Hiff. rewrite <- Hiff. apply Z.ltb_lt.
Qed.

(** The outer loop appends the name of every entry with a match. *)
Lemma fallback_fold (ocrLower : string) (order : list (string * list string)) :
  ∀ (violated : list string) (ruleName : string),
    ruleName ∈
      fold_left
        (λ violated '(ruleName, matchTerms),
           if 0 <? countMatches ocrLower matchTerms
           then violated ++ [ruleName]
           else violated)
        order violated
    ↔ ruleName ∈ violated ∨
      ∃ matchTerms, (ruleName, matchTerms) ∈ order ∧
                    (0 <? countMatches ocrLower matchTerms) = true.
Proof.
  induction order as [|[name terms] rest IH]; intros violated ruleName; cbn.
  - split; [by left|]. intros [H|[? [[]%elem_of_nil _]]]. exact H.
  - rewrite IH. destruct (0 <? countMatches ocrLower terms) eqn:Hpos.
    + rewrite elem_of_app, list_elem_of_singleton. split.
      * intros [[H| ->]|[mt [Hin Hmt]]]; [by left|right..].
        -- exists terms. split; [left|done].
        -- exists mt. split; [by right|done].
      * intros [H|[mt [Hin Hmt]]]; [by left; left|].
        apply elem_of_cons in Hin as [[= -> ->]|Hin]; [by left; right|].
        right. by exists mt.
    + split.
      * intros [H|[mt [Hin Hmt]]]; [by left|right].
        exists mt. split; [by right|done].
      * intros [H|[mt [Hin Hmt]]]; [by left|].
        apply elem_of_cons in Hin as [[= -> ->]|Hin]; [congruence|].
        right. by exists mt.
Qed.

Lemma ruleMatchers_terms (ruleName : string) (matchTerms : list string) :
  (ruleName, matchTerms) ∈ ruleMatchers →
  Z.of_nat (length matchTerms) ≤ maxInt ∧
  ∀ term, term ∈ matchTerms → strings_Contains "" term = false.
Proof.
  unfold ruleMatchers. rewrite !elem_of_cons, elem_of_nil.
  intros H. decompose [or] H; try done.
  all: match goal with Heq : (_, _) = _ |- _ => injection Heq as -> -> end.
  all: split; [by vm_compute|].
  all: intros term; rewrite !elem_of_cons, elem_of_nil; intros Ht;
    decompose [or] Ht; subst; try done.
Qed.

(** The three passes of the code over the lowercased text do to it what
    the specification says of each byte. *)
Lemma normalize_byte (c : ascii) :
  (if keptByte
        ((λ c, if bool_decide (c = "_"%char) then " "%char else c)
           ((λ c, if bool_decide (c = "-"%char) then " "%char else c) c))
   then [(λ c, if bool_decide (c = "_"%char) then " "%char else c)
           ((λ c, if bool_decide (c = "-"%char) then " "%char else c) c)]
   else []) = normalizedByte c.
Proof. by destruct c as [[] [] [] [] [] [] [] []]. Qed.

Lemma normalize_normalizedText (rt : GoRuntime) (ocrText : string) :
  normalize rt ocrText = normalizedText rt ocrText.
Proof.
  unfold normalize, normalizedText, filter_bytes, replaceByte, map_bytes.
  rewrite !list_ascii_of_string_of_list_ascii. f_equal.
  induction (list_ascii_of_string (strings_ToLower rt ocrText)) as [|c l IH];
    [done|].
  cbn [map List.filter flat_map]. rewrite <- IH, <- normalize_byte.
  by destruct (keptByte _).
Qed.

Lemma normalizedByte_lowerByte (c : ascii) :
  normalizedByte (lowerByte c) = normalizedASCIIByte c.
Proof. by destruct c as [[] [] [] [] [] [] [] []]. Qed.

(** C9. Whatever the order in which the built-in table is visited, a rule
    is among the violations exactly when one of the terms the table lists
    for it occurs in the normalised text, which is the lowercased text
    with every hyphen and underscore turned into a space and every byte
    dropped that is not a small letter, a digit or white space; for ASCII
    text that is, byte by byte, a capital letter turned into the small
    one, a hyphen or an underscore into a space, punctuation and the like
    dropped. The empty text has no violations. *)
Theorem fallbackRuleExtraction_iff (rt : GoRuntime)
    (order : list (string * list string)) (ocrText : string)
    (ruleNames : list string) (ruleName : string) :
  order ≡ₚ ruleMatchers →
  (ruleName ∈ fallbackRuleExtraction rt order ocrText ruleNames ↔
   ∃ matchTerms term,
     (ruleName, matchTerms) ∈ ruleMatchers ∧ term ∈ matchTerms ∧
     strings_Contains (normalizedText rt ocrText) term = true)
  ∧ (isASCII ocrText = true →
     normalizedText rt ocrText =
     string_of_list_ascii
       (flat_map normalizedASCIIByte (list_ascii_of_string ocrText)))
  ∧ fallbackRuleExtraction rt order "" ruleNames = [].
Proof.
  intros Hperm. split; [|split; [|reflexivity]].
  - rewrite <- normalize_normalizedText.
    unfold fallbackRuleExtraction. case_bool_decide as Hempty.
    + subst ocrText. split; [by intros ?%elem_of_nil|].
      intros [matchTerms [term [Hin [Hterm Hc]]]].
      destruct (ruleMatchers_terms _ _ Hin) as [_ Hnone].
      change (normalize rt "") with "" in Hc.
      rewrite (Hnone term Hterm) in Hc. discriminate.
    + rewrite fallback_fold. split.
      * intros [[]%elem_of_nil|[matchTerms [Hin Hpos]]].
        rewrite Hperm in Hin.
        destruct (ruleMatchers_terms _ _ Hin) as [Hlen _].
        apply countMatches_positive in Hpos as [term [Hterm Hc]];
          [|exact Hlen].
        by exists matchTerms, term.
      * intros [matchTerms [term [Hin [Hterm Hc]]]]. right.
        exists matchTerms. split; [by rewrite Hperm|].
        destruct (ruleMatchers_terms _ _ Hin) as [Hlen _].
        apply countMatches_positive; [exact Hlen|]. by exists term.
  - intros Hascii. unfold normalizedText, strings_ToLower, map_bytes.
    rewrite Hascii, list_ascii_of_string_of_list_ascii. f_equal.
    induction (list_ascii_of_string ocrText) as [|c l IH]; [done|].
    cbn [map flat_map]. by rewrite IH, normalizedByte_lowerByte.
Qed.

Lemma fallbackRuleExtraction_iff_witness :
  let text := "CONFIDENTIAL: a Non-Disclosure_Agreement (v2)!" in
  ruleMatchers ≡ₚ ruleMatchers ∧
  ("Confidentiality Marking" ∈
     fallbackRuleExtraction sampleRuntime ruleMatchers text [] ↔
   ∃ matchTerms term,
     ("Confidentiality Marking", matchTerms) ∈ ruleMatchers ∧
     term ∈ matchTerms ∧
     strings_Contains (normalizedText sampleRuntime text) term = true) ∧
  isASCII text = true ∧
  normalizedText sampleRuntime text =
    "confidential a non disclosure agreement v2".
Proof.
  intros text.
  destruct (fallbackRuleExtraction_iff sampleRuntime ruleMatchers text []
              "Confidentiality Marking" (reflexivity _))
    as (Hiff & Hascii & _).
  split; [reflexivity|]. split; [exact Hiff|]. split; [reflexivity|].
  etrans; [exact (Hascii eq_refl)|reflexivity].
Defined.

Example fallback_sample :
  fallbackRuleExtraction sampleRuntime ruleMatchers
    "This Non-Disclosure Agreement is made today." [] = ["NDA Check"].
Proof. vm_compute. reflexivity. Qed.

(** ** RuleClassifier *)

Lemma contains_elem_of (slice : list string) (item : string) :
  contains slice item = true ↔ item ∈ slice.
Proof.
  induction slice as [|s rest IH]; cbn.
  - split; [discriminate|by intros ?%elem_of_nil].
  - rewrite elem_of_cons. case_bool_decide as Heq.
    + split; [by left|done].
    + rewrite IH. split; [by right|]. intros [->|H]; done.
Qed.

(** What the remote service suggests is kept only when the catalog has it. *)
Lemma validateViolated_in_catalog (ruleNames violatedRules : list string)
    (name : string) :
  name ∈ validateViolated ruleNames violatedRules →
  name ∈ ruleNames ∧ name ∈ violatedRules.
Proof.
  unfold validateViolated. destruct violatedRules as [|v vs].
  - by intros ?%elem_of_nil.
  - rewrite list_elem_of_In, filter_In, <- !list_elem_of_In.
    intros [Hin Hc]. split; [by apply contains_elem_of|exact Hin].
Qed.

(** A response with another status than 200, an unreadable body or a body
    that does not decode sends the classifier to the fallback matcher. *)
Lemma DetermineApplicableRules_degrades (rt : GoRuntime) (env : ClassifyEnv)
    (g : Limiters) (ocrText : string) (allRules : list ComplianceRule)
    (resp : Response (list string)) :
  (Allow (groqRateLimiter g) (groqClock env).1 (groqClock env).2
         "groq_api_call").1 = true →
  (GetAllComplianceRules (ruleRateLimiter g) (ruleClock env).1
                         (ruleClock env).2 (dbRules env)).1 = Ok allRules →
  VITE_GROQ_API_KEY env ≠ "" →
  marshalFails env = false →
  retryLoop env maxRetries 0 None = Ok (Some resp) →
  StatusCode resp ≠ 200 ∨ Body resp = None ∨ Body resp = Some Malformed ∨
    (∃ rest, Body resp = Some (Wellformed (Malformed :: rest))) →
  (DetermineApplicableRules rt env g ocrText).1 =
  Ok (fallbackRuleExtraction rt (rangeOrder env) ocrText
                             (map rule_Name allRules)).
Proof.
  intros Hgate Hrules Hkey Hmarshal Hloop Hbad. unfold DetermineApplicableRules.
  destruct (Allow _ _ _ "groq_api_call") as [ok groq']. cbn [fst] in Hgate.
  subst ok. cbn [negb].
  destruct (GetAllComplianceRules _ _ _ _) as [fetched rule'].
  cbn [fst] in Hrules. subst fetched.
  rewrite (bool_decide_eq_false_2 _ Hkey), Hmarshal, Hloop.
  case_bool_decide as Hstatus; [reflexivity|].
  destruct Hbad as [H|[->|[->|[rest ->]]]]; [|reflexivity..].
  exfalso. apply H. by apply dec_stable.
Qed.

(** C1, at an input that violates it. The catalog holds one rule of the
    house, the remote service answers with status 500, and the classifier
    returns two names of the built-in table that the catalog does not
    have. *)
Theorem DetermineApplicableRules_names_outside_catalog (rt : GoRuntime) :
  let catalog := [customRule] in
  (DetermineApplicableRules rt (classifyEnvOf catalog remoteStatus500)
     (initialLimiters 0) "This agreement is confidential.").1
  = Ok ["Confidentiality Marking"; "NDA Check"]
  ∧ ¬ In "Confidentiality Marking" (map rule_Name catalog)
  ∧ ¬ In "NDA Check" (map rule_Name catalog).
Proof.
  cbn zeta. split; [vm_compute; reflexivity|].
  split; cbn; intros [H|[]]; discriminate.
Qed.

(** C2, at an input that violates it. When every attempt fails before a
    response arrives, the variable [resp] is still nil after the loop and
    reading its status code panics: no result is returned. *)
Theorem DetermineApplicableRules_unreachable_panics (rt : GoRuntime)
    (ocrText : string) :
  (DetermineApplicableRules rt (classifyEnvOf [ndaRule] remoteUnreachable)
     (initialLimiters 0) ocrText).1
  = Panic "invalid memory address or nil pointer dereference".
Proof. reflexivity. Qed.

(** ** BatchClassifier *)

Lemma storedRules_nonempty (ruleNames applicableRules : list string) :
  storedRules ruleNames applicableRules ≠ [].
Proof.
  unfold storedRules. case_bool_decide as Hlen; [done|].
  by destruct (validateRules applicableRules ruleNames).
Qed.

(** After the loop over a response, a key of the response holds what is
    stored for its entry, and every other key holds what it held before. *)
Lemma storeBatchResults_lookup (ruleNames : list string)
    (batchResponse results : BatchResults) (docID : string) :
  storeBatchResults ruleNames batchResponse results !! docID =
  match batchResponse !! docID with
  | Some applicableRules => Some (storedRules ruleNames applicableRules)
  | None => results !! docID
  end.
Proof.
  unfold storeBatchResults.
  apply (map_fold_weak_ind
           (λ (r : BatchResults) (m : BatchResults),
              r !! docID =
              match m !! docID with
              | Some applicableRules =>
                Some (storedRules ruleNames applicableRules)
              | None => results !! docID
              end)).
  - by rewrite lookup_empty.
  - intros k x m r Hk IH.
    destruct (decide (k = docID)) as [->|Hne].
    + by rewrite !lookup_insert_eq.
    + by rewrite !lookup_insert_ne.
Qed.

(** The request for a group is answered or fails; it does not panic. *)
Lemma sendBatchComplianceRequest_no_panic (env : BatchEnv) (chunk : nat)
    (batchRequest : BatchComplianceRequest) (apiKey msg : string) :
  sendBatchComplianceRequest env chunk batchRequest apiKey ≠ Panic msg.
Proof.
  unfold sendBatchComplianceRequest.
  repeat (case_match; try done).
Qed.

Lemma lastMention_None (answer : nat → option BatchResults) (docID : string)
    (count : nat) :
  ∀ from : nat,
    lastMention answer docID from count = None ↔
    ∀ k batchResponse,
      (from ≤ k < from + count)%nat → answer k = Some batchResponse →
      batchResponse !! docID = None.
Proof.
  induction count as [|count IH]; intros from; cbn [lastMention].
  { split; [|done]. intros _ k resp Hk. lia. }
  destruct (lastMention answer docID (S from) count) as [found|] eqn:Hlast.
  - split; [done|]. intros Hnone.
    assert (Hrest : lastMention answer docID (S from) count = None);
      [|congruence].
    apply IH. intros k resp Hk. apply Hnone. lia.
  - pose proof (proj1 (IH (S from)) Hlast) as Hrest. split.
    + intros Hhere k resp Hk Hans.
      destruct (decide (k = from)) as [->|Hne].
      * by rewrite Hans in Hhere.
      * apply (Hrest k resp); [lia|done].
    + intros Hnone. destruct (answer from) as [resp|] eqn:Hans; [|done].
      cbn. apply (Hnone from resp); [lia|done].
Qed.

Lemma lastMention_Some (answer : nat → option BatchResults) (docID : string)
    (count : nat) :
  ∀ (from : nat) (applicableRules : list string),
    lastMention answer docID from count = Some applicableRules ↔
    ∃ k batchResponse,
      (from ≤ k < from + count)%nat ∧ answer k = Some batchResponse ∧
      batchResponse !! docID = Some applicableRules ∧
      ∀ k' later, (k < k' < from + count)%nat → answer k' = Some later →
                  later !! docID = None.
Proof.
  induction count as [|count IH]; intros from applicableRules;
    cbn [lastMention].
  { split; [done|]. intros (k & _ & Hk & _). lia. }
  destruct (lastMention answer docID (S from) count) as [found|] eqn:Hlast.
  - destruct (proj1 (IH (S from) found) Hlast)
      as (k1 & resp1 & Hk1 & Hans1 & Hdoc1 & Hlater1).
    split.
    + intros [= <-]. exists k1, resp1. split; [lia|]. split; [done|].
      split; [done|]. intros k' later Hk'. apply Hlater1. lia.
    + intros (k0 & resp0 & Hk0 & Hans0 & Hdoc0 & Hlater0).
      destruct (decide (k0 = from)) as [->|Hne].
      * rewrite (Hlater0 k1 resp1 ltac:(lia) Hans1) in Hdoc1. discriminate.
      * assert (Hrest : lastMention answer docID (S from) count
                        = Some applicableRules); [|congruence].
        apply IH. exists k0, resp0. split; [lia|]. split; [done|].
        split; [done|]. intros k' later Hk'. apply Hlater0. lia.
  - pose proof (proj1 (lastMention_None answer docID count (S from)) Hlast)
      as Hrest.
    split.
    + intros Hhere. destruct (answer from) as [resp|] eqn:Hans; [|done].
      cbn in Hhere. exists from, resp. split; [lia|]. split; [done|].
      split; [done|]. intros k' later Hk'. apply Hrest. lia.
    + intros (k & resp & Hk & Hans & Hdoc & _).
      destruct (decide (k = from)) as [->|Hne].
      * by rewrite Hans.
      * rewrite (Hrest k resp ltac:(lia) Hans) in Hdoc. discriminate.
Qed.

(** A group starts inside the list exactly when its number is below the
    number of groups, and there are no more groups than documents. *)
Lemma groupCount_lt (documents : list string) (batchSize : Z) (c : nat) :
  1 ≤ batchSize →
  (Z.of_nat c * batchSize < Z.of_nat (length documents) ↔
   (c < groupCount documents batchSize)%nat) ∧
  (groupCount documents batchSize ≤ length documents)%nat.
Proof.
  intros Hsize. unfold groupCount.
  set (len := Z.of_nat (length documents)).
  assert (Hlen : 0 ≤ len) by (unfold len; lia).
  assert (Hq : 0 ≤ (len + batchSize - 1) / batchSize)
    by (apply Z.div_pos; lia).
  split.
  - rewrite Nat2Z.inj_lt, Z2Nat.id by done.
    revert Hq. generalize (Z.of_nat c). intros z Hq.
    Z.to_euclidean_division_equations. nia.
  - apply Nat2Z.inj_le. rewrite Z2Nat.id by done. fold len.
    revert Hq. Z.to_euclidean_division_equations. nia.
Qed.

(** The slice the loop takes for a group is the group. *)
Lemma groupOf_slice (documents : list string) (batchSize : Z) (c : nat) :
  1 ≤ batchSize →
  Z.of_nat c * batchSize < Z.of_nat (length documents) →
  let i := Z.of_nat c * batchSize in
  let end_ := if bool_decide (Z.of_nat (length documents)
                              < Z.of_nat (S c) * batchSize)
              then Z.of_nat (length documents)
              else Z.of_nat (S c) * batchSize in
  take (Z.to_nat (end_ - i)) (drop (Z.to_nat i) documents) =
  groupOf documents batchSize c.
Proof.
  intros Hsize Hlt. cbn zeta. unfold groupOf.
  replace (Z.to_nat (Z.of_nat c * batchSize)) with (c * Z.to_nat batchSize)%nat
    by (rewrite Z2Nat.inj_mul, Nat2Z.id by lia; done).
  case_bool_decide as Hend.
  - rewrite !take_ge; [done|rewrite length_drop; lia..].
  - f_equal. lia.
Qed.

(** The loop from the [c]-th group on, with [m] groups to go: an entry is
    what the last answered group of those that mentions its identifier
    says, or what was there before. *)
Lemma batchLoop_groups (env : BatchEnv) (documents : list string)
    (batchSize : Z) (ruleNames : list string) (apiKey : string) :
  1 ≤ batchSize ≤ maxInt →
  Z.of_nat (length documents) < 2 ^ 62 →
  ∀ (m c fuel : nat) (results : BatchResults),
    (c + m = groupCount documents batchSize)%nat →
    (m < fuel)%nat →
    ∃ final,
      batchLoop fuel env documents batchSize ruleNames apiKey
                (Z.of_nat c * batchSize) c results = Some (Ok final) ∧
      ∀ docID,
        final !! docID =
        match lastMention
                (groupAnswer env documents batchSize ruleNames apiKey)
                docID c m with
        | Some applicableRules => Some (storedRules ruleNames applicableRules)
        | None => results !! docID
        end.
Proof.
  intros Hsize Hlen.
  induction m as [|m IH]; intros c fuel results Hc Hfuel;
    (destruct fuel as [|fuel]; [lia|]); cbn [batchLoop lastMention].
  { rewrite bool_decide_eq_false_2
      by (rewrite (proj1 (groupCount_lt documents batchSize c
                            ltac:(lia))); lia).
    by exists results. }
  assert (Hin : Z.of_nat c * batchSize < Z.of_nat (length documents))
    by (apply (proj1 (groupCount_lt documents batchSize c ltac:(lia))); lia).
  rewrite (bool_decide_eq_true_2 _ Hin).
  assert (Hadd : int_add (Z.of_nat c * batchSize) batchSize
                 = Z.of_nat (S c) * batchSize).
  { rewrite int_add_id; [lia|]. unfold minInt, maxInt in *.
    destruct c as [|c']; [lia|nia]. }
  rewrite Hadd.
  rewrite bool_decide_eq_false_2
    by (intros [?|?]; [lia|]; case_bool_decide; lia).
  rewrite (groupOf_slice documents batchSize c ltac:(lia) Hin).
  destruct (IH (S c) fuel results ltac:(lia) ltac:(lia))
    as (final0 & Hrun0 & Hfinal0).
  unfold groupAnswer at 2.
  destruct (sendBatchComplianceRequest env c _ apiKey)
    as [batchResponse|err|msg] eqn:Hsend.
  - destruct (IH (S c) fuel (storeBatchResults ruleNames batchResponse results)
                 ltac:(lia) ltac:(lia)) as (final & Hrun & Hfinal).
    exists final. split; [exact Hrun|]. intros docID.
    rewrite Hfinal, storeBatchResults_lookup. cbn.
    by destruct (lastMention _ docID (S c) m), (batchResponse !! docID).
  - exists final0. split; [exact Hrun0|]. intros docID.
    rewrite Hfinal0. cbn. by destruct (lastMention _ docID (S c) m).
  - by apply sendBatchComplianceRequest_no_panic in Hsend.
Qed.



Example DetermineApplicableRulesBatch_sample :
  (DetermineApplicableRulesBatch
     (batchEnvOf [ndaRule; paymentRule] batchFirstGroupOnly)
     (initialLimiters 0) ["first text"; "second text"; "third text"] 2).1
  = Some (Ok (insert "doc_0" ["NDA Check"]
                (insert "doc_1" ["General Compliance"] ∅))).
Proof. vm_compute. reflexivity. Qed.


(** A group size of 0 never leaves the loop. *)
Lemma batchLoop_zero_size (env : BatchEnv) (documents : list string)
    (ruleNames : list string) (apiKey : string) (fuel : nat) :
  ∀ (chunk : nat) (results : BatchResults),
    documents ≠ [] →
    batchLoop fuel env documents 0 ruleNames apiKey 0 chunk results = None.
Proof.
  induction fuel as [|fuel IH]; intros chunk results Hdocs; [reflexivity|].
  cbn [batchLoop].
  rewrite bool_decide_eq_true_2 by (destruct documents; [done|cbn; lia]).
  change (int_add 0 0) with 0.
  rewrite bool_decide_eq_false_2
    by (intros [?|?]; [lia|]; case_bool_decide; lia).
  destruct (sendBatchComplianceRequest env chunk _ apiKey) eqn:Hsend.
  - by apply IH.
  - by apply IH.
  - by apply sendBatchComplianceRequest_no_panic in Hsend.
Qed.

(** ** ActionItemLifecycle *)

Lemma run_log {A : Type} (format : string) (args : list LogArg)
    (k : unit → M A) (w : World) :
  (log_Printf format args ≫= k) w =
  k tt (mkWorld (store w) (faults w) (uuids w) (calls w) (clock w) (ticks w)
                (logged w ++ [Printf format args])).
Proof. reflexivity. Qed.

Lemma run_now {A : Type} (k : Time → M A) (w : World) :
  (time_Now ≫= k) w =
  k (clock w (ticks w))
    (mkWorld (store w) (faults w) (uuids w) (calls w) (clock w) (S (ticks w))
             (logged w)).
Proof. reflexivity. Qed.

Lemma run_storeCall {A B : Type} (op : string → Store → (string + A) * Store)
    (k : string + A → M B) (w : World) :
  (storeCall op ≫= k) w =
  match faults w (calls w) with
  | Some e =>
    k (inl e) (mkWorld (store w) (faults w) (uuids w) (S (calls w)) (clock w)
                       (ticks w) (logged w))
  | None =>
    k (op (uuids w (calls w)) (store w)).1
      (mkWorld (op (uuids w (calls w)) (store w)).2 (faults w) (uuids w)
               (S (calls w)) (clock w) (ticks w) (logged w))
  end.
Proof.
  unfold mbind, M_bind, storeCall.
  destruct (faults w (calls w)); [reflexivity|].
  by destruct (op (uuids w (calls w)) (store w)).
Qed.

(** One step of a run, with the fields of the new world read off. *)
Ltac run_step :=
  first [rewrite run_log | rewrite run_now | rewrite run_storeCall];
  cbn [store faults uuids calls clock ticks logged fst snd].

Lemma run_ret {A : Type} (a : A) (w : World) : (mret a : M A) w = (a, w).
Proof. reflexivity. Qed.

(** What [First] returns is a row of the table that meets the condition,
    and no row meets it when it returns none. *)
Lemma firstByKey_fold {A : Type} (key : A → string) (cond : A → bool)
    (rows : list A) :
  ∀ best : option A,
    let found :=
      fold_left
        (λ best row,
           if cond row then
             match best with
             | Some least =>
               if String.ltb (key row) (key least) then Some row else best
             | None => Some row
             end
           else best)
        rows best in
    (∀ x, found = Some x → best = Some x ∨ (In x rows ∧ cond x = true)) ∧
    (found = None → best = None ∧ ∀ x, In x rows → cond x = false).
Proof.
  induction rows as [|row rows IH]; intros best; cbn [fold_left].
  { split; [intros x ->; by left|]. intros ->. by split; [|intros x []]. }
  cbn zeta in *.
  destruct (cond row) eqn:Hrow.
  - destruct best as [least|].
    + destruct (String.ltb (key row) (key least));
        destruct (IH (Some row)) as [Hs Hn]; destruct (IH (Some least)) as [Hs' Hn'].
      * split.
        -- intros x [[= <-]|[Hin Hc]]%Hs; right; [by split; [left|]|].
           by split; [right|].
        -- by intros [[=] _]%Hn.
      * split.
        -- intros x [Hx|[Hin Hc]]%Hs'; [by left|right]. by split; [right|].
        -- by intros [[=] _]%Hn'.
    + destruct (IH (Some row)) as [Hs Hn]. split.
      * intros x [[= <-]|[Hin Hc]]%Hs; right; [by split; [left|]|].
        by split; [right|].
      * by intros [[=] _]%Hn.
  - destruct (IH best) as [Hs Hn]. split.
    + intros x [Hx|[Hin Hc]]%Hs; [by left|right]. by split; [right|].
    + intros [-> Hnone]%Hn. split; [done|].
      intros x [<-|Hin]; [done|by apply Hnone].
Qed.

Lemma firstByKey_Some {A : Type} (key : A → string) (cond : A → bool)
    (rows : list A) (x : A) :
  firstByKey key cond rows = Some x → In x rows ∧ cond x = true.
Proof.
  intros Hfound.
  destruct (proj1 (firstByKey_fold key cond rows None) x Hfound) as [|H];
    [done|exact H].
Qed.

Lemma firstByKey_None {A : Type} (key : A → string) (cond : A → bool)
    (rows : list A) (x : A) :
  firstByKey key cond rows = None → In x rows → cond x = false.
Proof.
  intros Hnone. by apply (proj2 (firstByKey_fold key cond rows None) Hnone).
Qed.

Lemma firstByKey_bool_decide {A : Type} (key : A → string) (P : A → Prop)
    `{∀ x, Decision (P x)} (rows : list A) (x : A) :
  firstByKey key (λ y, bool_decide (P y)) rows = Some x → In x rows ∧ P x.
Proof.
  intros [Hin Hp]%firstByKey_Some. split; [exact Hin|].
  by apply bool_decide_eq_true in Hp.
Qed.

Lemma actionable_Some (s : Store) (o : Outcome) (name : string)
    (rule : ComplianceRule) :
  asString (o !! "status") = Some "fail" →
  asString (o !! "rule_name") = Some name →
  ruleNamed s name = Some rule →
  rule_ID rule ≠ "" →
  actionable s o = Some (o, rule).
Proof.
  intros Hs Hn Hr Hid. unfold actionable, hasFailed.
  rewrite bool_decide_eq_true_2 by done. rewrite Hn. cbn. rewrite Hr. cbn.
  by rewrite bool_decide_eq_false_2.
Qed.

(** What a run of the loop leaves behind when the store answers every
    call. *)
Lemma createLoop_spec (rt : GoRuntime) (doc : Document)
    (results : list Outcome) :
  ∀ w : World,
    storeAnswers w →
    ∃ w' newActions newResults newLog,
      createLoop rt doc results w = (Ok tt, w') ∧
      compliance_rules (store w') = compliance_rules (store w) ∧
      documents (store w') = documents (store w) ∧
      action_items (store w') = action_items (store w) ++ newActions ∧
      document_rule_results (store w') =
        document_rule_results (store w) ++ newResults ∧
      logged w' = logged w ++ newLog ∧
      Forall2 (actionItemFor rt doc (clock w))
              (omap (actionable (store w)) results) newActions ∧
      Forall2 (ruleResultFor doc)
              (omap (actionable (store w)) results) newResults ∧
      (∀ o name,
         o ∈ results → hasFailed o = true →
         asString (o !! "rule_name") = Some name →
         ruleNamed (store w) name = None →
         Printf "Rule %s not found in compliance_rules: %v"
                [LStr name; LStr ErrRecordNotFound] ∈ newLog).
Proof.
  induction results as [|result rest IH]; intros w Hans.
  { exists w, [], [], []. rewrite !app_nil_r.
    repeat split; try constructor. by intros o name ?%elem_of_nil. }
  cbn [createLoop omap list_omap].
  assert (Hskip : actionable (store w) result = None →
    ∀ w1 extra,
      store w1 = store w → clock w1 = clock w → faults w1 = faults w →
      (calls w ≤ calls w1)%nat → logged w1 = logged w ++ extra →
      (∀ name, hasFailed result = true →
         asString (result !! "rule_name") = Some name →
         ruleNamed (store w) name = None →
         Printf "Rule %s not found in compliance_rules: %v"
                [LStr name; LStr ErrRecordNotFound] ∈ extra) →
      ∃ w' newActions newResults newLog,
        createLoop rt doc rest w1 = (Ok tt, w') ∧
        compliance_rules (store w') = compliance_rules (store w) ∧
        documents (store w') = documents (store w) ∧
        action_items (store w') = action_items (store w) ++ newActions ∧
        document_rule_results (store w') =
          document_rule_results (store w) ++ newResults ∧
        logged w' = logged w ++ newLog ∧
        Forall2 (actionItemFor rt doc (clock w))
                (omap (actionable (store w)) (result :: rest)) newActions ∧
        Forall2 (ruleResultFor doc)
                (omap (actionable (store w)) (result :: rest)) newResults ∧
        (∀ o name,
           o ∈ result :: rest → hasFailed o = true →
           asString (o !! "rule_name") = Some name →
           ruleNamed (store w) name = None →
           Printf "Rule %s not found in compliance_rules: %v"
                  [LStr name; LStr ErrRecordNotFound] ∈ newLog)).
  { intros Hnone w1 extra Hst Hcl Hfa Hca Hlo Hlogged.
    destruct (IH w1) as (w' & nA & nR & nL & Hrun & Hr & Hd & Ha & Hres & Hl
                         & HfA & HfR & Hnot).
    { intros n Hn. rewrite Hfa. apply Hans. lia. }
    rewrite Hst, ?Hcl in *.
    exists w', nA, nR, (extra ++ nL).
    cbn [omap list_omap]. rewrite Hnone.
    repeat split; try done.
    - by rewrite Hl, Hlo, app_assoc.
    - intros o name [->|Hin]%elem_of_cons Hf Hn Hrn.
      + apply elem_of_app. left. by apply Hlogged.
      + apply elem_of_app. right. by eapply Hnot. }
  destruct (asString (result !! "status")) as [status|] eqn:Hstatus.
  2:{ apply (Hskip ltac:(unfold actionable, hasFailed;
                         by rewrite bool_decide_eq_false_2 by congruence)
               w []); try done; [by rewrite app_nil_r|].
      intros name Hf. unfold hasFailed in Hf.
      by rewrite bool_decide_eq_false_2 in Hf by congruence. }
  case_bool_decide as Hfail.
  { apply (Hskip ltac:(unfold actionable, hasFailed;
                       by rewrite bool_decide_eq_false_2 by congruence)
             w []); try done; [by rewrite app_nil_r|].
    intros name Hf. unfold hasFailed in Hf.
    by rewrite bool_decide_eq_false_2 in Hf by congruence. }
  subst status.
  destruct (asString (result !! "rule_name")) as [ruleName|] eqn:Hname.
  2:{ run_step.
      eapply (Hskip ltac:(unfold actionable; rewrite Hname;
                          by destruct (hasFailed result))); try done. }
  run_step. unfold db_FirstRuleByName. run_step.
  rewrite (Hans (calls w)) by lia.
  fold (ruleNamed (store w) ruleName).
  destruct (ruleNamed (store w) ruleName) as [rule|] eqn:Hrule;
    cbn [firstOr].
  2:{ run_step.
      eapply (Hskip ltac:(unfold actionable; rewrite Hname; cbn; rewrite Hrule;
                          by destruct (hasFailed result))); try done.
      - cbn. lia.
      - cbn. by rewrite <- app_assoc.
      - intros name _ [= <-] _. apply elem_of_app. right. by left. }
  case_bool_decide as Hid.
  { run_step.
    eapply (Hskip ltac:(unfold actionable; rewrite Hname; cbn; rewrite Hrule;
                        cbn; rewrite bool_decide_eq_true_2 by done;
                        by destruct (hasFailed result))); try done.
    - cbn. lia.
    - cbn. by rewrite <- app_assoc.
    - intros name _ [= <-]. congruence. }
  do 3 run_step. unfold db_CreateActionItem. run_step.
  rewrite (Hans (S (calls w))) by lia.
  do 2 run_step.
  unfold db_CreateDocumentRuleResult. run_step.
  rewrite (Hans (S (S (calls w)))) by lia.
  run_step.
  cbn [compliance_rules action_items document_rule_results documents
       ai_DocumentID ai_RuleID ai_Description ai_Status ai_Priority
       ai_DueDate ai_CreatedAt ai_UpdatedAt drr_DocumentID drr_RuleID
       drr_Status drr_Details drr_CreatedAt].
  match goal with
  | |- ∃ _ _ _ _, createLoop _ _ _ ?w1 = _ ∧ _ =>
    destruct (IH w1) as (w' & nA & nR & nL & Hrun & Hr & Hd & Ha & Hres & Hl
                         & HfA & HfR & Hnot)
  end.
  { intros n Hn. cbn [faults calls] in *. apply Hans. lia. }
  cbn [store compliance_rules action_items document_rule_results documents
       clock logged] in Hr, Hd, Ha, Hres, Hl, HfA, HfR, Hnot.
  rewrite (actionable_Some (store w) result ruleName rule) by done.
  rewrite <- app_assoc in Ha, Hres. repeat rewrite <- app_assoc in Hl.
  cbn [app] in Ha, Hres, Hl.
  eexists w', (_ :: nA), (_ :: nR), ([_; _; _] ++ nL).
  split; [exact Hrun|]. split; [exact Hr|]. split; [exact Hd|].
  split; [exact Ha|]. split; [exact Hres|]. split; [exact Hl|].
  split; [|split].
  - constructor; [|exact HfA].
    unfold actionItemFor, fieldOr. cbn [fst snd]. rewrite Hname.
    cbn [ai_DocumentID ai_RuleID ai_Description ai_Status ai_Priority
         ai_DueDate ai_CreatedAt ai_UpdatedAt ai_AssignedTo default
         from_option id].
    repeat split. by exists (ticks w).
  - constructor; [|exact HfR]. by unfold ruleResultFor, marshalResult.
  - intros o name [->|Hin]%elem_of_cons Hf Hn Hrn.
    + congruence.
    + apply elem_of_app. right. by eapply Hnot.
Qed.
(** Counting the calls of one kind. *)
Lemma countOp_cons_ne (op x : StoreOp) (l : list StoreOp) :
  x ≠ op → countOp op (x :: l) = countOp op l.
Proof. intros Hne. unfold countOp. by rewrite filter_cons_False. Qed.

Lemma countOp_cons_eq (op : StoreOp) (l : list StoreOp) :
  countOp op (op :: l) = S (countOp op l).
Proof. unfold countOp. by rewrite filter_cons_True. Qed.

(** The calls of a pass depend on the store through its rules only. *)
Lemma passCalls_rules (s s' : Store) (results : list Outcome) :
  compliance_rules s' = compliance_rules s →
  passCalls s' results = passCalls s results.
Proof.
  intros Hrules. unfold passCalls, outcomeCalls, actionable, ruleNamed.
  by rewrite Hrules.
Qed.

(** A pass in which the [n]-th call of the store is the first to fail, and
    is a write: the pass ends there with the error of that call, and the
    rows it has created are those of the writes before it. *)
Lemma createLoop_failed_write (rt : GoRuntime) (doc : Document)
    (results : list Outcome) :
  ∀ (w : World) (n : nat) (op : StoreOp) (e : string),
    passCalls (store w) results !! n = Some op →
    op ≠ OpFirstRule →
    (∀ m, (m < n)%nat → faults w (calls w + m) = None) →
    faults w (calls w + n) = Some e →
    ∃ w',
      createLoop rt doc results w = (Err e, w') ∧
      length (action_items (store w')) =
        (length (action_items (store w))
         + countOp OpCreateActionItem
             (take n (passCalls (store w) results)))%nat ∧
      length (document_rule_results (store w')) =
        (length (document_rule_results (store w))
         + countOp OpCreateRuleResult
             (take n (passCalls (store w) results)))%nat.
Proof.
  induction results as [|result rest IH];
    intros w n op e Hop Hwrite Hbefore Hfault.
  { by destruct n. }
  change (passCalls (store w) (result :: rest))
    with (outcomeCalls (store w) result ++ passCalls (store w) rest) in *.
  (* an outcome for which the store is not called *)
  assert (Hnone : outcomeCalls (store w) result = [] →
    ∀ w1, store w1 = store w → faults w1 = faults w → calls w1 = calls w →
    ∃ w',
      createLoop rt doc rest w1 = (Err e, w') ∧
      length (action_items (store w')) =
        (length (action_items (store w))
         + countOp OpCreateActionItem
             (take n (outcomeCalls (store w) result
                      ++ passCalls (store w) rest)))%nat ∧
      length (document_rule_results (store w')) =
        (length (document_rule_results (store w))
         + countOp OpCreateRuleResult
             (take n (outcomeCalls (store w) result
                      ++ passCalls (store w) rest)))%nat).
  { intros Hcalls w1 Hs Hf Hc. rewrite Hcalls in Hop |- *. cbn [app] in *.
    rewrite <- Hs. apply (IH w1 n op e); rewrite ?Hs, ?Hf, ?Hc; done. }
  (* an outcome whose rule is looked up and which is then left *)
  assert (Hlookup : outcomeCalls (store w) result = [OpFirstRule] →
    ∀ w1, store w1 = store w → faults w1 = faults w →
          calls w1 = S (calls w) →
    ∃ w',
      createLoop rt doc rest w1 = (Err e, w') ∧
      length (action_items (store w')) =
        (length (action_items (store w))
         + countOp OpCreateActionItem
             (take n (outcomeCalls (store w) result
                      ++ passCalls (store w) rest)))%nat ∧
      length (document_rule_results (store w')) =
        (length (document_rule_results (store w))
         + countOp OpCreateRuleResult
             (take n (outcomeCalls (store w) result
                      ++ passCalls (store w) rest)))%nat).
  { intros Hcalls w1 Hs Hf Hc. rewrite Hcalls in Hop |- *. cbn [app] in *.
    destruct n as [|n]; [by injection Hop as <-|].
    cbn [lookup list_lookup] in Hop. rewrite firstn_cons.
    rewrite !countOp_cons_ne by done.
    rewrite <- Hs. apply (IH w1 n op e); rewrite ?Hs, ?Hf, ?Hc; try done.
    - intros m Hm. replace (S (calls w) + m)%nat with (calls w + S m)%nat by lia.
      apply Hbefore. lia.
    - by replace (S (calls w) + n)%nat with (calls w + S n)%nat by lia. }
  cbn [createLoop].
  destruct (asString (result !! "status")) as [status|] eqn:Hstatus.
  2:{ apply Hnone; try done. unfold outcomeCalls, hasFailed.
      by rewrite Hstatus, bool_decide_eq_false_2. }
  destruct (decide (status = "fail")) as [->|Hfail].
  2:{ rewrite bool_decide_eq_true_2 by done.
      apply Hnone; try done. unfold outcomeCalls, hasFailed.
      rewrite Hstatus, bool_decide_eq_false_2; [done|congruence]. }
  rewrite bool_decide_eq_false_2 by (intros Hne; by apply Hne).
  assert (Hfailed : hasFailed result = true).
  { unfold hasFailed. by rewrite Hstatus, bool_decide_eq_true_2. }
  destruct (asString (result !! "rule_name")) as [ruleName|] eqn:Hname.
  2:{ run_step. apply Hnone; try done. unfold outcomeCalls.
      by rewrite Hfailed, Hname. }
  clear Hnone.
  assert (Hact : actionable (store w) result =
                 rule ← ruleNamed (store w) ruleName;
                 if bool_decide (rule_ID rule = "") then None
                 else Some (result, rule)).
  { unfold actionable. by rewrite Hfailed, Hname. }
  assert (Hcalls : outcomeCalls (store w) result =
                   match actionable (store w) result with
                   | Some _ => [OpFirstRule; OpCreateActionItem;
                                OpCreateRuleResult]
                   | None => [OpFirstRule]
                   end).
  { unfold outcomeCalls. by rewrite Hfailed, Hname. }
  (* the lookup is not the call that fails *)
  assert (Hn : (0 < n)%nat).
  { destruct n; [|lia]. exfalso. apply Hwrite. rewrite Hcalls in Hop.
    destruct (actionable (store w) result); by injection Hop as <-. }
  run_step. unfold db_FirstRuleByName. run_step.
  pose proof (Hbefore 0%nat Hn) as Hfirst. rewrite Nat.add_0_r in Hfirst.
  rewrite Hfirst. fold (ruleNamed (store w) ruleName).
  rewrite Hact in Hcalls.
  destruct (ruleNamed (store w) ruleName) as [rule|] eqn:Hrule;
    cbn [firstOr mbind option_bind] in *.
  2:{ run_step. apply Hlookup; cbn; done. }
  case_bool_decide as Hid.
  { run_step. apply Hlookup; cbn; done. }
  clear Hlookup. rewrite Hcalls in Hop |- *.
  do 3 run_step. unfold db_CreateActionItem. run_step.
  destruct n as [|n]; [lia|]. cbn [app] in Hop |- *.
  cbn [lookup list_lookup] in Hop.
  destruct n as [|n].
  { (* the write of the action item fails *)
    pose proof Hfault as Hf1. rewrite Nat.add_1_r in Hf1. rewrite Hf1.
    run_step. rewrite run_ret. eexists. split; [reflexivity|].
    cbn [store action_items document_rule_results firstn].
    rewrite !countOp_cons_ne by done. cbn. lia. }
  pose proof (Hbefore 1%nat ltac:(lia)) as Hsecond.
  rewrite Nat.add_1_r in Hsecond. rewrite Hsecond.
  do 2 run_step. unfold db_CreateDocumentRuleResult. run_step.
  cbn [compliance_rules action_items document_rule_results documents
       ai_DocumentID ai_RuleID ai_Description ai_Status ai_Priority
       ai_DueDate ai_CreatedAt ai_UpdatedAt drr_DocumentID drr_RuleID
       drr_Status drr_Details drr_CreatedAt].
  cbn [lookup list_lookup] in Hop.
  destruct n as [|n].
  { (* the write of the rule result fails *)
    pose proof Hfault as Hf2.
    replace (calls w + 2)%nat with (S (S (calls w))) in Hf2 by lia.
    rewrite Hf2. run_step. rewrite run_ret. eexists. split; [reflexivity|].
    cbn [store action_items document_rule_results firstn].
    rewrite !(countOp_cons_ne _ OpFirstRule) by done.
    rewrite countOp_cons_eq, (countOp_cons_ne _ OpCreateActionItem) by done.
    rewrite length_app. cbn. lia. }
  pose proof (Hbefore 2%nat ltac:(lia)) as Hthird.
  replace (calls w + 2)%nat with (S (S (calls w))) in Hthird by lia.
  rewrite Hthird. run_step.
  cbn [lookup list_lookup] in Hop. cbn [firstn].
  rewrite !(countOp_cons_ne _ OpFirstRule) by done.
  rewrite countOp_cons_eq, (countOp_cons_ne _ OpCreateRuleResult) by done.
  rewrite (countOp_cons_ne _ OpCreateActionItem), countOp_cons_eq by done.
  match goal with
  | |- ∃ _, createLoop _ _ _ ?w1 = _ ∧ _ =>
    destruct (IH w1 n op e) as (w' & Hrun & Ha & Hr)
  end.
  - cbn [store]. by rewrite (passCalls_rules (store w)).
  - done.
  - intros m Hm. cbn [faults calls].
    replace (S (S (S (calls w))) + m)%nat with (calls w + S (S (S m)))%nat
      by lia.
    apply Hbefore. lia.
  - cbn [faults calls].
    by replace (S (S (S (calls w))) + n)%nat with (calls w + S (S (S n)))%nat
      by lia.
  - exists w'. split; [exact Hrun|].
    cbn [store action_items document_rule_results] in Ha, Hr.
    rewrite (passCalls_rules (store w)) in Ha, Hr by done.
    rewrite length_app in Ha, Hr. cbn [length] in *. lia.
Qed.

(** C7 (as amended). For a document whose stored outcome list parses:
    in a world whose store answers every call, [CreateActionItems] returns
    no error and creates, in the order of the list, for each outcome with
    status fail whose rule name is found in the catalog under a row with a
    key, one action item (status pending, priority the title-cased
    severity of the outcome, due date one month after the clock reading
    taken for it, which follows the readings for its creation and update
    times) and one rule result (status fail, details the outcome); an
    outcome whose rule is not in the catalog is skipped with a log entry.
    And when the first call of the store that fails is the write of an
    action item or of a rule result, the pass ends there with the error of
    that call, having created the rows of the writes before it and no
    others. *)
Theorem CreateActionItems_creates (rt : GoRuntime) (doc : Document)
    (w : World) (results : list Outcome) :
  unmarshalOutcomes (doc_ParsedData doc) = inr results →
  (storeAnswers w →
   ∃ w' newActions newResults newLog,
     CreateActionItems rt doc w = (Ok tt, w') ∧
     action_items (store w') = action_items (store w) ++ newActions ∧
     document_rule_results (store w') =
       document_rule_results (store w) ++ newResults ∧
     logged w' = logged w ++ newLog ∧
     Forall2 (actionItemFor rt doc (clock w))
             (omap (actionable (store w)) results) newActions ∧
     Forall2 (ruleResultFor doc)
             (omap (actionable (store w)) results) newResults ∧
     (∀ o name,
        o ∈ results → hasFailed o = true →
        asString (o !! "rule_name") = Some name →
        ruleNamed (store w) name = None →
        Printf "Rule %s not found in compliance_rules: %v"
               [LStr name; LStr ErrRecordNotFound] ∈ newLog)) ∧
  (∀ n op e,
     passCalls (store w) results !! n = Some op →
     op ≠ OpFirstRule →
     (∀ m, (m < n)%nat → faults w (calls w + m) = None) →
     faults w (calls w + n) = Some e →
     ∃ w',
       CreateActionItems rt doc w = (Err e, w') ∧
       length (action_items (store w')) =
         (length (action_items (store w))
          + countOp OpCreateActionItem
              (take n (passCalls (store w) results)))%nat ∧
       length (document_rule_results (store w')) =
         (length (document_rule_results (store w))
          + countOp OpCreateRuleResult
              (take n (passCalls (store w) results)))%nat).
Proof.
  intros Hparse. unfold CreateActionItems. rewrite Hparse. split.
  - intros Hans.
    destruct (createLoop_spec rt doc results w Hans)
      as (w' & nA & nR & nL & Hrun & _ & _ & Ha & Hr & Hl & HfA & HfR & Hnot).
    by exists w', nA, nR, nL.
  - apply createLoop_failed_write.
Qed.

Lemma CreateActionItems_creates_witness :
  let w := quietWorld (mkStore [ndaRule] [] [] []) in
  let failing := faultyWorld (mkStore [ndaRule] [] [] []) 2 "connection lost" in
  unmarshalOutcomes (doc_ParsedData ndaDocument) = inr [ndaOutcome] ∧
  storeAnswers w ∧
  (∃ w' newActions newResults,
     CreateActionItems sampleRuntime ndaDocument w = (Ok tt, w') ∧
     action_items (store w') = newActions ∧
     document_rule_results (store w') = newResults ∧
     Forall2 (actionItemFor sampleRuntime ndaDocument (clock w))
             [(ndaOutcome, ndaRule)] newActions ∧
     Forall2 (ruleResultFor ndaDocument) [(ndaOutcome, ndaRule)] newResults) ∧
  (∃ w',
     CreateActionItems sampleRuntime ndaDocument failing
       = (Err "connection lost", w') ∧
     length (action_items (store w')) = 1%nat ∧
     length (document_rule_results (store w')) = 0%nat).
Proof.
  intros w failing.
  assert (Hparse : unmarshalOutcomes (doc_ParsedData ndaDocument)
                   = inr [ndaOutcome]) by reflexivity.
  assert (Hans : storeAnswers w) by (intros n _; reflexivity).
  split; [exact Hparse|]. split; [exact Hans|]. split.
  - destruct (proj1 (CreateActionItems_creates sampleRuntime ndaDocument w
                       [ndaOutcome] Hparse) Hans)
      as (w' & nA & nR & nL & Hrun & Ha & Hr & _ & HfA & HfR & _).
    exists w', nA, nR. split; [exact Hrun|].
    split; [exact Ha|]. split; [exact Hr|]. split; [exact HfA|exact HfR].
  - destruct (proj2 (CreateActionItems_creates sampleRuntime ndaDocument
                       failing [ndaOutcome] Hparse)
                2%nat OpCreateRuleResult "connection lost")
      as (w' & Hrun & Ha & Hr).
    + vm_compute. reflexivity.
    + discriminate.
    + intros m Hm. destruct m as [|[|m]]; [reflexivity|reflexivity|lia].
    + reflexivity.
    + exists w'. split; [exact Hrun|]. split; [exact Ha|exact Hr].
Defined.

Example CreateActionItems_sample :
  let w' := (CreateActionItems sampleRuntime ndaDocument
               (quietWorld (mkStore [ndaRule] [] [] []))).2 in
  action_items (store w') =
    [mkActionItem "uuid-1" "doc1" "rule1"
       "Address NDA Check non-compliance: Missing NDA" "" "pending" "High"
       (30 * 24 * 3600 * Second + 2 * Second) 0 Second].
Proof. vm_compute. reflexivity. Qed.

(** C7 (as stated) fails. The outcome list of the document parses, its
    outcome has failed and its rule is in the catalog; the write of the
    action item fails, the pass ends with that error, and neither an
    action item nor a rule result is created. And when the store answers,
    the due date of the action item is one month after the third reading
    of the clock, not after the creation time of the item, which is the
    first reading. *)
Lemma CreateActionItems_counterexample :
  let s := mkStore [ndaRule] [] [] [] in
  let failing :=
    CreateActionItems sampleRuntime ndaDocument
      (faultyWorld s 1 "connection lost") in
  let created := CreateActionItems sampleRuntime ndaDocument (quietWorld s) in
  unmarshalOutcomes (doc_ParsedData ndaDocument) = inr [ndaOutcome] ∧
  hasFailed ndaOutcome = true ∧
  ruleNamed s "NDA Check" = Some ndaRule ∧
  failing.1 = Err "connection lost" ∧
  action_items (store failing.2) = [] ∧
  document_rule_results (store failing.2) = [] ∧
  created.1 = Ok tt ∧
  ai_CreatedAt <$> action_items (store created.2) = [0] ∧
  ai_DueDate <$> action_items (store created.2) =
    [time_AddDate sampleRuntime (2 * Second) 0 1 0] ∧
  time_AddDate sampleRuntime (2 * Second) 0 1 0
    ≠ time_AddDate sampleRuntime 0 0 1 0.
Proof.
  cbn zeta. repeat split; try (vm_compute; reflexivity).
  vm_compute. discriminate.
Qed.

(** Of two rules with one name the store returns the one with the smaller
    key, wherever it stands in the table. *)
Example ruleNamed_smallest_key :
  let later := mkComplianceRule "b-key" "NDA Check" "" "" "low" in
  let earlier := mkComplianceRule "a-key" "NDA Check" "" "" "high" in
  ruleNamed (mkStore [later; earlier] [] [] []) "NDA Check" = Some earlier.
Proof. reflexivity. Qed.

(** C8, at an input that violates it. A document is saved as
    [UploadAndProcessDocument] saves it, with the outcome list for a catalog
    of one rule, which the document violates, and its action item and rule
    result are created. Completing that action item returns no error and
    the first two effects are as claimed: the action item is completed and
    the rule result resolved. The third is not: the stored outcome payload
    is a list, which does not decode into a map; the code goes on with a
    new map, and the column is overwritten by the object whose only entry
    is the flag. The flag is not set inside the payload, the outcomes are
    lost, and the column no longer parses as an outcome list. *)
Theorem UpdateActionItem_overwrites_outcome_payload :
  let results := complianceResults ["NDA Check"] [ndaRule] in
  let ingested :=
    UploadAndProcessDocument_save sampleRuntime "agreement." "pdf"
      "https://store/agreement.pdf" "The parties agree."
      (marshalResults results) 3 (quietWorld (mkStore [ndaRule] [] [] [])) in
  let run := UpdateActionItem "uuid-2" ingested.2 in
  ingested.1 = Ok tt ∧
  ai_ID <$> action_items (store ingested.2) = ["uuid-2"] ∧
  ai_Status <$> action_items (store ingested.2) = ["pending"] ∧
  drr_Status <$> document_rule_results (store ingested.2) = ["fail"] ∧
  doc_ParsedData <$> documents (store ingested.2) =
    [Encodes (JArray (JObject <$> results))] ∧
  (unmarshalOutcomes ∘ doc_ParsedData) <$> documents (store ingested.2) =
    [inr results] ∧
  run.1 = Ok tt ∧
  ai_Status <$> action_items (store run.2) = ["completed"] ∧
  drr_Status <$> document_rule_results (store run.2) = ["resolved"] ∧
  drr_Details <$> document_rule_results (store run.2) =
    (λ o, Encodes (JObject (<["explanation" := JString "No issues"]> o)))
      <$> results ∧
  doc_ParsedData <$> documents (store run.2) =
    [Encodes (JObject (<["status" := JBool true]> ∅))] ∧
  (unmarshalOutcomes ∘ doc_ParsedData) <$> documents (store run.2) =
    [inl "json: cannot unmarshal into Go value of type []map[string]interface {}"].
Proof. cbn zeta. repeat split; vm_compute; reflexivity. Qed.

Example UpdateActionItem_sample :
  let run := UpdateActionItem "action1" (quietWorld ingestedStore) in
  run.1 = Ok tt ∧
  ai_Status <$> action_items (store run.2) = ["completed"] ∧
  drr_Status <$> document_rule_results (store run.2) = ["resolved"] ∧
  drr_Details <$> document_rule_results (store run.2) =
    [Encodes (JObject (<["explanation" := JString "No issues"]> ndaOutcome))] ∧
  doc_ParsedData <$> documents (store run.2) =
    [Encodes (JObject (<["status" := JBool true]> ∅))].
Proof. repeat split; vm_compute; reflexivity. Qed.

(** * Further properties of the code *)

(** ** RateLimiter *)

Lemma sameKeyCalls_app (key : string) (l1 l2 : list (string * Time * Time)) :
  sameKeyCalls key (l1 ++ l2) = (sameKeyCalls key l1 + sameKeyCalls key l2)%nat.
Proof. induction l1 as [|c l1 IH]; cbn; [done|]. rewrite IH. lia. Qed.

Lemma sameKeyCalls_le_length (key : string) (l : list (string * Time * Time)) :
  (sameKeyCalls key l ≤ length l)%nat.
Proof. induction l as [|c l IH]; cbn; [done|]. case_bool_decide; lia. Qed.

Lemma sameKeyCalls_take_mono (key : string) (l : list (string * Time * Time))
    (i j : nat) :
  (i ≤ j)%nat →
  (sameKeyCalls key (take i l) ≤ sameKeyCalls key (take j l))%nat.
Proof.
  intros Hij. replace j with (i + (j - i))%nat by lia.
  rewrite <- take_take_drop. rewrite sameKeyCalls_app. lia.
Qed.

Lemma AllowAll_app (calls1 : list (string * Time * Time)) :
  ∀ (rl : RateLimiter) (calls2 : list (string * Time * Time)),
    AllowAll rl (calls1 ++ calls2) =
    ((AllowAll rl calls1).1 ++ (AllowAll (AllowAll rl calls1).2 calls2).1,
     (AllowAll (AllowAll rl calls1).2 calls2).2).
Proof.
  induction calls1 as [|[[k tS] tN] rest IH]; intros rl calls2.
  - cbn. by destruct (AllowAll rl calls2).
  - cbn [app AllowAll]. destruct (Allow rl tS tN k) as [ok rl1].
    rewrite IH. destruct (AllowAll rl1 rest) as [oks rl2]. cbn [fst snd].
    by destruct (AllowAll rl2 calls2).
Qed.

Lemma AllowAll_length (calls : list (string * Time * Time)) :
  ∀ rl : RateLimiter, length (AllowAll rl calls).1 = length calls.
Proof.
  induction calls as [|[[k tS] tN] rest IH]; intros rl; [done|].
  rewrite AllowAll_cons. cbn. by rewrite IH.
Qed.

(** The window and the limit of a limiter never change, and inside a window
    the start of the window stays where it is. *)
Lemma AllowAll_in_window_state (calls : list (string * Time * Time)) :
  ∀ rl : RateLimiter,
    inWindow (window rl) (lastReset rl) calls →
    limit (AllowAll rl calls).2 = limit rl ∧
    window (AllowAll rl calls).2 = window rl ∧
    lastReset (AllowAll rl calls).2 = lastReset rl.
Proof.
  induction calls as [|[[k tS] tN] rest IH]; intros rl Hwin; [done|].
  apply Forall_cons in Hwin as [Hc Hrest]. cbn [fst snd] in Hc.
  cbn [AllowAll]. rewrite (Allow_in_window _ _ _ _ Hc). cbv zeta.
  set (rl1 := mkRateLimiter _ _ _ _).
  destruct (IH rl1 Hrest) as (Hl & Hw & Hr).
  destruct (AllowAll rl1 rest) as [oks rl2]. cbn [fst snd] in *.
  by rewrite Hl, Hw, Hr.
Qed.

(** X1. Inside one window the answers to a key only go from admitted to
    refused: a call with a key that was refused is followed by refusals of
    every later call with that key. *)
Theorem AllowAll_refusal_is_final (L : Z) (W : Duration) (t0 : Time)
    (calls : list (string * Time * Time)) (i j : nat) (key : string)
    (tSi tNi tSj tNj : Time) :
  inWindow W t0 calls →
  Z.of_nat (length calls) ≤ maxInt →
  calls !! i = Some (key, tSi, tNi) →
  calls !! j = Some (key, tSj, tNj) →
  (i ≤ j)%nat →
  (AllowAll (NewRateLimiter L W t0) calls).1 !! i = Some false →
  (AllowAll (NewRateLimiter L W t0) calls).1 !! j = Some false.
Proof.
  intros Hwin Hlen Hi Hj Hij Hrefused.
  pose proof (sameKeyCalls_le_length key (take (S i) calls)) as Hbi.
  pose proof (sameKeyCalls_le_length key (take (S j) calls)) as Hbj.
  pose proof (sameKeyCalls_take_mono key calls (S i) (S j) ltac:(lia)) as Hmono.
  rewrite length_take in Hbi, Hbj.
  pose proof (AllowAll_nth calls (NewRateLimiter L W t0) i key tSi tNi Hwin Hi)
    as Hni.
  pose proof (AllowAll_nth calls (NewRateLimiter L W t0) j key tSj tNj Hwin Hj)
    as Hnj.
  cbn [NewRateLimiter requestCount limit] in Hni, Hnj.
  rewrite lookup_empty in Hni, Hnj. cbn in Hni, Hnj.
  rewrite Hni in Hrefused by lia. rewrite Hnj by lia.
  injection Hrefused as Hrefused. apply bool_decide_eq_false in Hrefused.
  f_equal. apply bool_decide_eq_false. lia.
Qed.

Lemma AllowAll_refusal_is_final_witness :
  let calls := [("client", 1, 1); ("other", 2, 2); ("client", 3, 3);
                ("client", 4, 4)] in
  inWindow Minute 0 calls ∧ Z.of_nat (length calls) ≤ maxInt ∧
  (AllowAll (NewRateLimiter 1 Minute 0) calls).1 !! 2%nat = Some false ∧
  (AllowAll (NewRateLimiter 1 Minute 0) calls).1 !! 3%nat = Some false.
Proof.
  intros calls.
  assert (Hwin : inWindow Minute 0 calls)
    by (unfold inWindow, calls;
        repeat (apply Forall_cons; split; [vm_compute; congruence|]);
        constructor).
  assert (Hlen : Z.of_nat (length calls) ≤ maxInt) by (vm_compute; congruence).
  split; [exact Hwin|]. split; [exact Hlen|]. split; [reflexivity|].
  exact (AllowAll_refusal_is_final 1 Minute 0 calls 2 3 "client" 3 3 4 4
           Hwin Hlen eq_refl eq_refl ltac:(lia) eq_refl).
Defined.

(** X2. The window is shared by all keys: the call that finds the window
    elapsed starts a new window for every key, so the next call with any
    other key is admitted whatever that key had used up before. *)
Theorem Allow_reset_frees_every_key (rl : RateLimiter) (key other : string)
    (tSince tNow tSince' tNow' : Time) :
  1 ≤ limit rl →
  other ≠ key →
  window rl < time_Since tSince (lastReset rl) →
  time_Since tSince' tNow ≤ window rl →
  (Allow (Allow rl tSince tNow key).2 tSince' tNow' other).1 = true ∧
  requestCount (Allow rl tSince tNow key).2 = {[key := 1]}.
Proof.
  intros HL Hne Hel Hin. rewrite (Allow_elapsed _ _ _ _ Hel). cbn [fst snd].
  split; [|reflexivity].
  rewrite Allow_in_window by exact Hin. cbn [fst requestCount limit].
  rewrite lookup_singleton_ne by done. cbn.
  rewrite int_add_id by (unfold minInt, maxInt; lia).
  apply Z.leb_le. lia.
Qed.

Lemma Allow_reset_frees_every_key_witness :
  let spent := (AllowAll (NewRateLimiter 1 Minute 0)
                  [("other", 1, 1); ("other", 2, 2)]).2 in
  1 ≤ limit spent ∧ "other" ≠ "client" ∧
  window spent < time_Since (2 * Minute) (lastReset spent) ∧
  time_Since (2 * Minute + 1) (2 * Minute) ≤ window spent ∧
  (Allow spent 3 3 "other").1 = false ∧
  (Allow (Allow spent (2 * Minute) (2 * Minute) "client").2
         (2 * Minute + 1) (2 * Minute + 1) "other").1 = true.
Proof.
  intros spent.
  assert (H1 : 1 ≤ limit spent) by (vm_compute; congruence).
  assert (H2 : "other" ≠ "client") by done.
  assert (H3 : window spent < time_Since (2 * Minute) (lastReset spent))
    by reflexivity.
  assert (H4 : time_Since (2 * Minute + 1) (2 * Minute) ≤ window spent)
    by (vm_compute; congruence).
  repeat (split; [assumption|]). split; [reflexivity|].
  exact (proj1 (Allow_reset_frees_every_key spent "client" "other"
                  (2 * Minute) (2 * Minute) (2 * Minute + 1) (2 * Minute + 1)
                  H1 H2 H3 H4)).
Defined.

(** ** RiskScorer *)

Lemma sumZ_imap_bounds (g : nat → Outcome → Z) (l : list Outcome) :
  (∀ i o, 0 ≤ g i o ≤ if hasFailed o then 3 else 0) →
  0 ≤ sumZ (imap g l) ≤
  3 * Z.of_nat (length (filter (λ o, hasFailed o = true) l)).
Proof.
  revert g. induction l as [|o l IH]; intros g Hg; [cbn; lia|].
  cbn [imap sumZ foldr]. fold (sumZ (imap (g ∘ S) l)).
  specialize (IH (g ∘ S) (λ i o, Hg (S i) o)). specialize (Hg 0%nat o).
  destruct (hasFailed o) eqn:Hf.
  - rewrite filter_cons_True by done. cbn [length]. lia.
  - rewrite filter_cons_False by congruence. lia.
Qed.

(** X3. The score is never negative and never more than three times the
    number of failed outcomes, whether the limiter admits the call or
    not. *)
Theorem CalculateRiskScore_bounds (rl : RateLimiter) (tSince tNow : Time)
    (results : list Outcome) (rules : list ComplianceRule) :
  3 * Z.of_nat (length results) < 2 ^ 53 →
  0 ≤ (CalculateRiskScore rl tSince tNow results rules).1
    ≤ 3 * Z.of_nat (length (filter (λ o, hasFailed o = true) results)).
Proof.
  intros Hlen.
  destruct (Allow rl tSince tNow "risk_score_calculation").1 eqn:Hok.
  - rewrite CalculateRiskScore_admitted by done. unfold expectedScore.
    apply sumZ_imap_bounds. intros i o.
    pose proof (contribution_bounds rules i o) as Hb.
    destruct (hasFailed o) eqn:Hf; [exact Hb|].
    rewrite contribution_passed by done. lia.
  - unfold CalculateRiskScore.
    destruct (Allow rl tSince tNow "risk_score_calculation") as [ok rl'].
    cbn [fst] in Hok. subst ok. cbn. lia.
Qed.

Lemma CalculateRiskScore_bounds_witness :
  let results := [outcomeOf "NDA Check" "fail" "high" "no agreement found";
                  outcomeOf "Custom Rule" "pass" "medium" "fine"] in
  3 * Z.of_nat (length results) < 2 ^ 53 ∧
  0 ≤ (CalculateRiskScore (NewRateLimiter 100 Minute 0) 1 1 results
         [ndaRule; customRule]).1 ≤ 3 * 1.
Proof.
  intros results.
  assert (Hlen : 3 * Z.of_nat (length results) < 2 ^ 53) by reflexivity.
  split; [exact Hlen|].
  exact (CalculateRiskScore_bounds (NewRateLimiter 100 Minute 0) 1 1 results
           [ndaRule; customRule] Hlen).
Defined.

Lemma CalculateRiskScore_denied_by_gate (rl : RateLimiter)
    (tSince tNow : Time) (results : list Outcome)
    (rules : list ComplianceRule) :
  (Allow rl tSince tNow "risk_score_calculation").1 = false →
  (CalculateRiskScore rl tSince tNow results rules).1 = 0.
Proof.
  intros Hok. unfold CalculateRiskScore.
  destruct (Allow rl tSince tNow "risk_score_calculation") as [ok rl'].
  cbn [fst] in Hok. by subst ok.
Qed.

(** The answer to one more call after a sequence of calls. *)
Lemma Allow_after_AllowAll (rl : RateLimiter)
    (calls : list (string * Time * Time)) (key : string) (tSince tNow : Time) :
  (AllowAll rl (calls ++ [(key, tSince, tNow)])).1 !! length calls =
  Some (Allow (AllowAll rl calls).2 tSince tNow key).1.
Proof.
  rewrite AllowAll_app. cbn [fst].
  rewrite lookup_app_r by (rewrite AllowAll_length; lia).
  rewrite AllowAll_length, Nat.sub_diag, AllowAll_cons. reflexivity.
Qed.

(** X4. Once a window has seen as many score computations as the limit
    allows, every further computation in that window returns 0, whatever
    the outcomes are. *)
Theorem CalculateRiskScore_budget_spent (L : Z) (W : Duration) (t0 : Time)
    (calls : list (string * Time * Time)) (tSince tNow : Time)
    (results : list Outcome) (rules : list ComplianceRule) :
  inWindow W t0 calls →
  time_Since tSince t0 ≤ W →
  L ≤ Z.of_nat (sameKeyCalls "risk_score_calculation" calls) →
  Z.of_nat (length calls) < maxInt →
  (CalculateRiskScore (AllowAll (NewRateLimiter L W t0) calls).2
                      tSince tNow results rules).1 = 0.
Proof.
  intros Hwin Hin Hspent Hlen.
  apply CalculateRiskScore_denied_by_gate.
  pose proof (Allow_after_AllowAll (NewRateLimiter L W t0) calls
                "risk_score_calculation" tSince tNow) as Hlast.
  assert (Hwin' : inWindow W t0 (calls ++ [("risk_score_calculation",
                                            tSince, tNow)]))
    by (apply Forall_app; split; [exact Hwin|by repeat constructor]).
  pose proof (AllowAll_nth _ (NewRateLimiter L W t0) (length calls)
                "risk_score_calculation" tSince tNow Hwin'
                ltac:(by rewrite lookup_app_r, Nat.sub_diag by lia)) as Hn.
  cbn [NewRateLimiter requestCount limit] in Hn.
  rewrite lookup_empty in Hn. cbn in Hn.
  rewrite take_ge in Hn by (rewrite length_app; cbn; lia).
  rewrite sameKeyCalls_app in Hn. cbn [sameKeyCalls fst] in Hn.
  rewrite (bool_decide_eq_true_2 _ eq_refl) in Hn.
  pose proof (sameKeyCalls_le_length "risk_score_calculation" calls).
  rewrite Hn in Hlast by lia. injection Hlast as Hlast.
  etrans; [symmetry; exact Hlast|].
  apply bool_decide_eq_false. lia.
Qed.

Lemma CalculateRiskScore_budget_spent_witness :
  let calls := [("risk_score_calculation", 1, 1);
                ("risk_score_calculation", 2, 2)] in
  inWindow Minute 0 calls ∧ time_Since 3 0 ≤ Minute ∧
  2 ≤ Z.of_nat (sameKeyCalls "risk_score_calculation" calls) ∧
  Z.of_nat (length calls) < maxInt ∧
  (CalculateRiskScore (AllowAll (NewRateLimiter 2 Minute 0) calls).2 3 3
     [outcomeOf "NDA Check" "fail" "high" "no agreement found"]
     [ndaRule]).1 = 0.
Proof.
  intros calls.
  assert (Hwin : inWindow Minute 0 calls)
    by (unfold inWindow, calls;
        repeat (apply Forall_cons; split; [vm_compute; congruence|]);
        constructor).
  assert (Hin : time_Since 3 0 ≤ Minute) by (vm_compute; congruence).
  assert (Hspent : 2 ≤ Z.of_nat (sameKeyCalls "risk_score_calculation" calls))
    by (vm_compute; congruence).
  assert (Hlen : Z.of_nat (length calls) < maxInt) by reflexivity.
  split; [exact Hwin|]. split; [exact Hin|]. split; [exact Hspent|].
  split; [exact Hlen|].
  exact (CalculateRiskScore_budget_spent 2 Minute 0 calls 3 3 _ _
           Hwin Hin Hspent Hlen).
Defined.

(** ** FallbackMatcher *)

Lemma prefix_bytes (p s : string) (c : ascii) :
  String.prefix p s = true →
  In c (list_ascii_of_string p) → In c (list_ascii_of_string s).
Proof.
  revert s. induction p as [|a p IH]; intros s Hp Hc; [destruct Hc|].
  destruct s as [|b s]; [discriminate|]. cbn in Hp.
  destruct (Ascii.ascii_dec a b) as [->|]; [|discriminate].
  destruct Hc as [->|Hc]; [by left|]. right. by apply IH.
Qed.

Lemma strings_Contains_bytes (s substr : string) (c : ascii) :
  strings_Contains s substr = true →
  In c (list_ascii_of_string substr) → In c (list_ascii_of_string s).
Proof.
  induction s as [|b s IH]; cbn [strings_Contains]; intros Hs Hc.
  - rewrite orb_false_r in Hs. by eapply prefix_bytes.
  - apply orb_true_iff in Hs as [Hp|Hs]; [by eapply prefix_bytes|].
    right. by apply IH.
Qed.

(** Only bytes of the class survive the normalisation. *)
Lemma normalize_kept (rt : GoRuntime) (ocrText : string) (c : ascii) :
  In c (list_ascii_of_string (normalize rt ocrText)) → keptByte c = true.
Proof.
  unfold normalize, filter_bytes.
  rewrite list_ascii_of_string_of_list_ascii. by intros [_ H]%filter_In.
Qed.

(** X5. A term that holds a byte outside the class [a-z0-9\s] is never
    found in the normalised text, whatever the document says: the text is
    normalised, the terms of the table are not. *)
Theorem normalize_hides_terms_outside_class (rt : GoRuntime)
    (ocrText term : string) (c : ascii) :
  In c (list_ascii_of_string term) → keptByte c = false →
  strings_Contains (normalize rt ocrText) term = false.
Proof.
  intros Hc Hkept.
  destruct (strings_Contains (normalize rt ocrText) term) eqn:Hs; [|done].
  pose proof (normalize_kept rt ocrText c
                (strings_Contains_bytes _ _ c Hs Hc)). congruence.
Qed.

Lemma normalize_hides_terms_outside_class_witness :
  In "-"%char (list_ascii_of_string "non-disclosure") ∧
  keptByte "-"%char = false ∧
  strings_Contains
    (normalize sampleRuntime "A Non-Disclosure undertaking, non-disclosure.")
    "non-disclosure" = false.
Proof.
  assert (Hc : In "-"%char (list_ascii_of_string "non-disclosure"))
    by (cbn; tauto).
  assert (Hk : keptByte "-"%char = false) by reflexivity.
  split; [exact Hc|]. split; [exact Hk|].
  exact (normalize_hides_terms_outside_class sampleRuntime _ _ _ Hc Hk).
Defined.

Lemma fallback_fold_sublist (ocrLower : string)
    (order : list (string * list string)) :
  ∀ violated : list string,
    ∃ more, more `sublist_of` order.*1 ∧
      fold_left
        (λ violated '(ruleName, matchTerms),
           if 0 <? countMatches ocrLower matchTerms
           then violated ++ [ruleName]
           else violated)
        order violated = violated ++ more.
Proof.
  induction order as [|[name terms] rest IH]; intros violated; cbn.
  - exists []. by rewrite app_nil_r.
  - destruct (0 <? countMatches ocrLower terms).
    + destruct (IH (violated ++ [name])) as [more [Hsub ->]].
      exists (name :: more). split; [by constructor|].
      by rewrite <- app_assoc.
    + destruct (IH violated) as [more [Hsub ->]].
      exists more. split; [by constructor|done].
Qed.

(** X6. The fallback reports the names in the order in which the table is
    visited, each at most once, and never more than the six names of the
    table. *)
Theorem fallbackRuleExtraction_sublist (rt : GoRuntime)
    (order : list (string * list string)) (ocrText : string)
    (ruleNames : list string) :
  order ≡ₚ ruleMatchers →
  fallbackRuleExtraction rt order ocrText ruleNames `sublist_of` order.*1 ∧
  NoDup (fallbackRuleExtraction rt order ocrText ruleNames) ∧
  (length (fallbackRuleExtraction rt order ocrText ruleNames) ≤ 6)%nat.
Proof.
  intros Hperm.
  assert (Hsub : fallbackRuleExtraction rt order ocrText ruleNames
                 `sublist_of` order.*1).
  { unfold fallbackRuleExtraction. case_bool_decide; [apply sublist_nil_l|].
    destruct (fallback_fold_sublist (normalize rt ocrText) order [])
      as [more [Hsub ->]]. exact Hsub. }
  assert (Hnames : order.*1 ≡ₚ ruleMatchers.*1) by (by rewrite Hperm).
  split; [exact Hsub|]. split.
  - refine (sublist_NoDup _ _ _ Hsub). rewrite Hnames.
    apply (bool_decide_unpack _). vm_compute. exact I.
  - apply sublist_length in Hsub. rewrite Hsub, Hnames. reflexivity.
Qed.

Lemma fallbackRuleExtraction_sublist_witness :
  let order := reverse ruleMatchers in
  let text := "Payment is due once both parties sign." in
  order ≡ₚ ruleMatchers ∧
  fallbackRuleExtraction sampleRuntime order text [] `sublist_of` order.*1 ∧
  NoDup (fallbackRuleExtraction sampleRuntime order text []) ∧
  (length (fallbackRuleExtraction sampleRuntime order text []) ≤ 6)%nat.
Proof.
  intros order text.
  assert (Hperm : order ≡ₚ ruleMatchers) by apply reverse_Permutation.
  split; [exact Hperm|].
  exact (fallbackRuleExtraction_sublist sampleRuntime order text [] Hperm).
Defined.

Lemma lowerByte_upperByte (c : ascii) : lowerByte (upperByte c) = lowerByte c.
Proof. by destruct c as [[] [] [] [] [] [] [] []]. Qed.

Lemma upperByte_ascii (c : ascii) :
  (N_of_ascii c <? 128)%N = true → (N_of_ascii (upperByte c) <? 128)%N = true.
Proof. by destruct c as [[] [] [] [] [] [] [] []]. Qed.

Lemma isASCII_upper (s : string) :
  isASCII s = true → isASCII (map_bytes upperByte s) = true.
Proof.
  unfold isASCII, map_bytes. rewrite list_ascii_of_string_of_list_ascii.
  rewrite !forallb_forall. intros Hs c [b [<- Hb]]%in_map_iff.
  apply upperByte_ascii, Hs, Hb.
Qed.

(** X7. On ASCII text the fallback does not tell capitals from small
    letters: the text in capitals gives the same names, and the Unicode
    tables of the runtime are not consulted. *)
Theorem fallbackRuleExtraction_ignores_case (rt rt' : GoRuntime)
    (order : list (string * list string)) (ocrText : string)
    (ruleNames : list string) :
  isASCII ocrText = true →
  fallbackRuleExtraction rt order (map_bytes upperByte ocrText) ruleNames =
  fallbackRuleExtraction rt' order ocrText ruleNames.
Proof.
  intros Hascii. unfold fallbackRuleExtraction.
  assert (Hnorm : normalize rt (map_bytes upperByte ocrText) =
                  normalize rt' ocrText).
  { unfold normalize, strings_ToLower.
    rewrite (isASCII_upper _ Hascii), Hascii. do 3 f_equal.
    unfold map_bytes. rewrite list_ascii_of_string_of_list_ascii, map_map.
    f_equal. apply map_ext. intros c. apply lowerByte_upperByte. }
  rewrite Hnorm. by destruct ocrText.
Qed.

Lemma fallbackRuleExtraction_ignores_case_witness :
  let text := "Payment is due on signature." in
  isASCII text = true ∧
  fallbackRuleExtraction sampleRuntime ruleMatchers
    (map_bytes upperByte text) [] =
  fallbackRuleExtraction sampleRuntime ruleMatchers text [].
Proof.
  intros text. assert (Hascii : isASCII text = true) by reflexivity.
  split; [exact Hascii|].
  exact (fallbackRuleExtraction_ignores_case sampleRuntime sampleRuntime
           ruleMatchers text [] Hascii).
Defined.

(** ** Helpers of the compliance service *)

Lemma removeDuplicates_fold (slice : list string) :
  ∀ (seen : gmap string bool) (result : list string),
    (∀ x, default false (seen !! x) = true ↔ x ∈ result) →
    NoDup result →
    ∃ seen' more,
      fold_left
        (λ '(seen, result) item,
           if negb (default false ((seen : gmap string bool) !! item))
           then (<[item := true]> seen, result ++ [item])
           else (seen, result))
        slice (seen, result) = (seen', result ++ more) ∧
      NoDup (result ++ more) ∧
      more `sublist_of` slice ∧
      (∀ x, x ∈ result ++ more ↔ x ∈ result ∨ x ∈ slice) ∧
      (NoDup slice → (∀ x, x ∈ slice → x ∉ result) → more = slice).
Proof.
  induction slice as [|item rest IH]; intros seen result Hseen Hnd;
    cbn [fold_left].
  - exists seen, []. rewrite app_nil_r. split; [done|]. split; [done|].
    split; [done|]. split; [|done].
    intros x. rewrite elem_of_nil. tauto.
  - destruct (default false (seen !! item)) eqn:Hitem; cbn [negb].
    + apply Hseen in Hitem.
      destruct (IH seen result Hseen Hnd)
        as (seen' & more & -> & Hnd' & Hsub & Hel & Hfix).
      exists seen', more. split; [done|]. split; [done|].
      split; [by constructor|]. split.
      * intros x. rewrite Hel, elem_of_cons.
        split; [tauto|]. intros [?|[->|?]]; tauto.
      * intros _ Hfresh. exfalso. apply (Hfresh item); [by left|done].
    + assert (Hnew : item ∉ result)
        by (intros Hin%Hseen; congruence).
      destruct (IH (<[item := true]> seen) (result ++ [item]))
        as (seen' & more & Heq & Hnd' & Hsub & Hel & Hfix).
      { intros x. rewrite elem_of_app, list_elem_of_singleton.
        destruct (decide (x = item)) as [->|Hne].
        - rewrite lookup_insert_eq. cbn. tauto.
        - rewrite lookup_insert_ne by done. rewrite Hseen. tauto. }
      { apply NoDup_app. split; [done|]. split; [|apply NoDup_singleton].
        intros x Hx ->%list_elem_of_singleton. done. }
      rewrite <- app_assoc in Heq, Hnd', Hel. cbn [app] in Heq, Hnd', Hel.
      exists seen', (item :: more). split; [done|]. split; [done|].
      split; [by constructor|]. split.
      * intros x. rewrite Hel, elem_of_app, list_elem_of_singleton,
          elem_of_cons. tauto.
      * intros [Hni Hrest]%NoDup_cons Hfresh. f_equal. apply Hfix; [done|].
        intros x Hx. rewrite elem_of_app, list_elem_of_singleton.
        intros [Hr| ->]; [|done].
        apply (Hfresh x); [by right|done].
Qed.

(** The state of the loop after a list: the items marked as seen are those
    of the list, and the result holds the first copy of each. *)
Lemma removeDuplicates_state (slice : list string) :
  let state :=
    fold_left
      (λ '(seen, result) item,
         if negb (default false ((seen : gmap string bool) !! item))
         then (<[item := true]> seen, result ++ [item])
         else (seen, result))
      slice (∅, []) in
  (∀ x, default false (state.1 !! x) = true ↔ x ∈ slice) ∧
  state.2 = reverse (remove_dups (reverse slice)).
Proof.
  induction slice as [|item slice IH] using rev_ind.
  { cbn. split; [|done]. intros x. rewrite lookup_empty, elem_of_nil. cbn.
    split; [done|tauto]. }
  cbn zeta in *. rewrite fold_left_app. cbn [fold_left].
  destruct (fold_left _ slice (∅, [])) as [seen result].
  cbn [fst snd] in IH. destruct IH as [Hseen ->].
  rewrite reverse_snoc. cbn [remove_dups].
  destruct (default false (seen !! item)) eqn:Hitem; cbn [negb fst snd].
  - assert (Hin : item ∈ slice) by (by apply Hseen).
    destruct (decide_rel (∈) item (reverse slice)) as [_|Hr];
      [|by rewrite elem_of_reverse in Hr].
    split; [|done].
    intros x. rewrite Hseen, elem_of_app, list_elem_of_singleton.
    split; [tauto|]. by intros [?| ->].
  - assert (Hnot : item ∉ slice) by (intros Hin%Hseen; congruence).
    destruct (decide_rel (∈) item (reverse slice)) as [Hr|_];
      [by rewrite elem_of_reverse in Hr|].
    rewrite reverse_cons. split; [|done].
    intros x. rewrite elem_of_app, list_elem_of_singleton.
    destruct (decide (x = item)) as [->|Hne].
    + rewrite lookup_insert_eq. cbn. tauto.
    + rewrite lookup_insert_ne by done. rewrite Hseen. tauto.
Qed.

(** X8. [removeDuplicates] keeps the first copy of every item and drops
    the later ones: the result has no item twice, holds exactly the items
    of the input, is the input with items left out, and read backwards it
    is the input read backwards with the copies that come earlier there
    dropped. A list without repetitions, so also a result of the function,
    is returned as it is. *)
Theorem removeDuplicates_spec (slice : list string) :
  NoDup (removeDuplicates slice) ∧
  (∀ x, x ∈ removeDuplicates slice ↔ x ∈ slice) ∧
  removeDuplicates slice `sublist_of` slice ∧
  removeDuplicates slice = reverse (remove_dups (reverse slice)) ∧
  removeDuplicates (removeDuplicates slice) = removeDuplicates slice.
Proof.
  assert (Hspec : ∀ l,
            NoDup (removeDuplicates l) ∧
            (∀ x, x ∈ removeDuplicates l ↔ x ∈ l) ∧
            removeDuplicates l `sublist_of` l ∧
            (NoDup l → removeDuplicates l = l)).
  { intros l. unfold removeDuplicates.
    destruct (removeDuplicates_fold l ∅ [])
      as (seen' & more & -> & Hnd & Hsub & Hel & Hfix).
    - intros x. rewrite lookup_empty, elem_of_nil. cbn. split; [done|tauto].
    - constructor.
    - cbn [app snd] in *. split; [done|]. split.
      + intros x. rewrite Hel, elem_of_nil. tauto.
      + split; [done|]. intros Hl. apply Hfix; [done|].
        intros x _. apply not_elem_of_nil. }
  destruct (Hspec slice) as (Hnd & Hel & Hsub & _).
  split; [done|]. split; [done|]. split; [done|]. split.
  - apply (removeDuplicates_state slice).
  - by apply (Hspec (removeDuplicates slice)).
Qed.

Lemma countMatches_count (text : string) (keywords : list string) :
  ∀ matchCount : Z,
    0 ≤ matchCount →
    matchCount + Z.of_nat (length keywords) ≤ maxInt →
    fold_left
      (λ matchCount term,
         if strings_Contains text term then int_add matchCount 1
         else matchCount)
      keywords matchCount =
    matchCount +
    Z.of_nat (length (filter (λ k, strings_Contains text k = true) keywords)).
Proof.
  induction keywords as [|k rest IH]; intros matchCount H0 Hmax;
    cbn [fold_left length] in *; [cbn; lia|].
  assert (minInt < 0) by reflexivity.
  destruct (strings_Contains text k) eqn:Hk.
  - rewrite filter_cons_True by done. cbn [length].
    rewrite int_add_id by lia. rewrite IH by lia. lia.
  - rewrite filter_cons_False by congruence. rewrite IH by lia. lia.
Qed.

Lemma fuzzyContainsAny_filter (text : string) (keywords : list string) :
  fuzzyContainsAny text keywords =
  bool_decide
    (0 < length (filter (λ k, strings_Contains text k = true) keywords))%nat.
Proof.
  induction keywords as [|k rest IH]; [done|]. cbn [fuzzyContainsAny].
  destruct (strings_Contains text k) eqn:Hk.
  - rewrite filter_cons_True by done. cbn [length].
    symmetry. apply bool_decide_eq_true_2. lia.
  - rewrite filter_cons_False by congruence. exact IH.
Qed.

(** X9. [fuzzyContains] asks for a strict majority: it answers yes exactly
    when more than half of the keywords occur in the text, so with no
    keyword, or with exactly half of them found, the answer is no.
    [fuzzyContainsAny] answers yes exactly when at least one keyword
    occurs, which is the test the fallback applies to a row of its table;
    it holds whenever [fuzzyContains] does. *)
Theorem fuzzyContains_strict_majority (text : string)
    (keywords : list string) :
  Z.of_nat (length keywords) ≤ maxInt →
  let found :=
    length (filter (λ k, strings_Contains text k = true) keywords) in
  fuzzyContains text keywords = bool_decide (length keywords < 2 * found)%nat ∧
  fuzzyContainsAny text keywords = bool_decide (0 < found)%nat ∧
  fuzzyContainsAny text keywords = (0 <? countMatches text keywords) ∧
  (fuzzyContains text keywords = true →
   fuzzyContainsAny text keywords = true).
Proof.
  intros Hlen. cbn zeta.
  assert (Hany : fuzzyContainsAny text keywords =
                 (0 <? countMatches text keywords)).
  { rewrite fuzzyContainsAny_filter. unfold countMatches.
    rewrite countMatches_count by lia.
    case_bool_decide; symmetry; [apply Z.ltb_lt|apply Z.ltb_ge]; lia. }
  assert (Hmajority :
    fuzzyContains text keywords =
    bool_decide
      (length keywords <
       2 * length (filter (λ k, strings_Contains text k = true) keywords))%nat).
  { unfold fuzzyContains, countMatches.
    rewrite countMatches_count by lia.
    assert (minInt < 0) by reflexivity. assert (2 < maxInt) by reflexivity.
    pose proof (length_filter (λ k, strings_Contains text k = true) keywords).
    rewrite int_add_id by (Z.to_euclidean_division_equations; lia).
    case_bool_decide as Hmaj.
    - apply Z.leb_le. Z.to_euclidean_division_equations. lia.
    - apply Z.leb_gt. Z.to_euclidean_division_equations. lia. }
  split; [exact Hmajority|]. split; [apply fuzzyContainsAny_filter|].
  split; [exact Hany|].
  rewrite Hmajority, fuzzyContainsAny_filter.
    intros Hmaj%bool_decide_eq_true. apply bool_decide_eq_true. lia.
Qed.

Lemma fuzzyContains_strict_majority_witness :
  let text := "payment is due" in
  let keywords := ["payment"; "invoice"] in
  Z.of_nat (length keywords) ≤ maxInt ∧
  fuzzyContains text keywords = false ∧
  fuzzyContainsAny text keywords = true ∧
  fuzzyContainsAny text keywords = (0 <? countMatches text keywords).
Proof.
  intros text keywords.
  assert (Hlen : Z.of_nat (length keywords) ≤ maxInt)
    by (vm_compute; congruence).
  split; [exact Hlen|].
  destruct (fuzzyContains_strict_majority text keywords Hlen)
    as (_ & _ & Hany & _).
  split; [reflexivity|]. split; [reflexivity|exact Hany].
Defined.

(** ** RuleClassifier *)

Lemma fallback_names_in_table (rt : GoRuntime)
    (order : list (string * list string)) (ocrText : string)
    (ruleNames : list string) (name : string) :
  name ∈ fallbackRuleExtraction rt order ocrText ruleNames →
  name ∈ order.*1.
Proof.
  unfold fallbackRuleExtraction. case_bool_decide; [by intros ?%elem_of_nil|].
  destruct (fallback_fold_sublist (normalize rt ocrText) order [])
    as [more [Hsub ->]]. cbn [app]. intros Hin.
  by eapply elem_of_sublist.
Qed.

(** X10. Every name the classifier returns is a name of the catalog or one
    of the six names of the built-in table, whatever the remote service
    answers. *)
Theorem DetermineApplicableRules_names_known (rt : GoRuntime)
    (env : ClassifyEnv) (g : Limiters) (ocrText : string)
    (names : list string) (name : string) :
  rangeOrder env ≡ₚ ruleMatchers →
  (DetermineApplicableRules rt env g ocrText).1 = Ok names →
  name ∈ names →
  name ∈ ruleMatchers.*1 ∨
  ∃ allRules, dbRules env = inr allRules ∧ name ∈ map rule_Name allRules.
Proof.
  intros Hperm Hres Hin.
  assert (Hfb : ∀ ruleNames,
            name ∈ fallbackRuleExtraction rt (rangeOrder env) ocrText ruleNames →
            name ∈ ruleMatchers.*1).
  { intros ruleNames H%fallback_names_in_table. by rewrite <- Hperm. }
  revert Hres. unfold DetermineApplicableRules.
  destruct (Allow _ _ _ "groq_api_call") as [[] groq']; cbn [negb fst];
    [|intros [= <-]; left; by eapply Hfb].
  unfold GetAllComplianceRules.
  destruct (Allow _ _ _ "rule_retrieval") as [[] rule']; cbn [negb fst];
    [|discriminate].
  destruct (dbRules env) as [e|allRules] eqn:Hdb; [discriminate|].
  assert (Hval : ∀ violatedRules,
            name ∈ validateViolated (map rule_Name allRules) violatedRules →
            ∃ allRules0, (inr allRules : string + list ComplianceRule)
                         = inr allRules0 ∧
                         name ∈ map rule_Name allRules0).
  { intros violatedRules [H _]%validateViolated_in_catalog.
    by exists allRules. }
  case_bool_decide; [discriminate|].
  destruct (marshalFails env); [intros [= <-]; left; by eapply Hfb|].
  destruct (retryLoop env maxRetries 0 None) as [[resp|]| |]; cbn [fst];
    try discriminate.
  case_bool_decide; [intros [= <-]; left; by eapply Hfb|].
  destruct (Body resp) as [[|[|[|violatedRules] rest]]|]; cbn [fst];
    intros [= <-];
    first [left; by eapply Hfb | right; by eapply Hval
          | by apply elem_of_nil in Hin].
Qed.

Lemma DetermineApplicableRules_names_known_witness :
  let env := classifyEnvOf [customRule]
               (remoteSuggests ["Custom Rule"; "Unheard Of"]) in
  rangeOrder env ≡ₚ ruleMatchers ∧
  (DetermineApplicableRules sampleRuntime env (initialLimiters 0)
     "The parties agree.").1 = Ok ["Custom Rule"] ∧
  "Custom Rule" ∈ ["Custom Rule"] ∧
  ("Custom Rule" ∈ ruleMatchers.*1 ∨
   ∃ allRules, dbRules env = inr allRules ∧
               "Custom Rule" ∈ map rule_Name allRules).
Proof.
  intros env.
  assert (Hperm : rangeOrder env ≡ₚ ruleMatchers) by reflexivity.
  assert (Hres : (DetermineApplicableRules sampleRuntime env
                    (initialLimiters 0) "The parties agree.").1 =
                 Ok ["Custom Rule"]) by reflexivity.
  assert (Hin : "Custom Rule" ∈ ["Custom Rule"]) by (by left).
  split; [exact Hperm|]. split; [exact Hres|]. split; [exact Hin|].
  exact (DetermineApplicableRules_names_known sampleRuntime env
           (initialLimiters 0) "The parties agree." ["Custom Rule"]
           "Custom Rule" Hperm Hres Hin).
Defined.

Lemma retryLoop_Err (env : ClassifyEnv) (left : nat) :
  ∀ (attempt : nat) (resp : option (Response (list string))) (e : string),
    retryLoop env left attempt resp = Err e →
    ∃ a cause, (attempt ≤ a < attempt + left)%nat ∧
               newRequestErr env a = Some cause ∧
               e = "failed to create Groq request: " +:+ cause.
Proof.
  induction left as [|left IH]; intros attempt resp e; cbn [retryLoop];
    [discriminate|].
  destruct (newRequestErr env attempt) as [cause|] eqn:Hreq.
  - intros [= <-]. exists attempt, cause. split; [lia|done].
  - assert (Hnext : ∀ resp', retryLoop env left (S attempt) resp' = Err e →
              ∃ a cause, (attempt ≤ a < attempt + S left)%nat ∧
                         newRequestErr env a = Some cause ∧
                         e = "failed to create Groq request: " +:+ cause).
    { intros resp' (a & cause & Ha & Hc)%IH. exists a, cause.
      split; [lia|done]. }
    destruct (clientDo env attempt) as [r|r]; [by apply Hnext|].
    case_bool_decide; [discriminate|by apply Hnext].
Qed.

(** X11. An error of the classifier always has a local cause: the rule
    limiter refused the retrieval of the catalog, the store failed, the key
    of the service is not set, or a request could not be built. Nothing the
    remote service does is returned as an error. *)
Theorem DetermineApplicableRules_errors_are_local (rt : GoRuntime)
    (env : ClassifyEnv) (g : Limiters) (ocrText : string) (e : string) :
  (DetermineApplicableRules rt env g ocrText).1 = Err e →
  e = "rate limit exceeded for rule retrieval" ∨
  dbRules env = inl e ∨
  (VITE_GROQ_API_KEY env = "" ∧
   e = "VITE_GROQ_API_KEY environment variable is not set") ∨
  ∃ a cause, (a < 3)%nat ∧ newRequestErr env a = Some cause ∧
             e = "failed to create Groq request: " +:+ cause.
Proof.
  unfold DetermineApplicableRules.
  destruct (Allow _ _ _ "groq_api_call") as [[] groq']; cbn [negb fst];
    [|discriminate].
  unfold GetAllComplianceRules.
  destruct (Allow _ _ _ "rule_retrieval") as [[] rule']; cbn [negb fst];
    [|intros [= <-]; by left].
  destruct (dbRules env) as [e'|allRules] eqn:Hdb;
    [intros [= <-]; right; by left|].
  case_bool_decide as Hkey; [intros [= <-]; right; right; by left|].
  destruct (marshalFails env); [discriminate|].
  destruct (retryLoop env maxRetries 0 None) as [[resp|]|e'|] eqn:Hloop;
    cbn [fst]; try discriminate.
  - case_bool_decide; [discriminate|].
    by destruct (Body resp) as [[|[|[|violatedRules] rest]]|].
  - intros [= <-]. right; right; right.
    destruct (retryLoop_Err _ _ _ _ _ Hloop) as (a & cause & Ha & Hc).
    exists a, cause. split; [unfold maxRetries in Ha; lia|done].
Qed.

Lemma DetermineApplicableRules_errors_are_local_witness :
  let env := mkClassifyEnv (1, 1) (1, 1) (inr [ndaRule]) "" false
               (λ _, None) remoteUnreachable ruleMatchers in
  let e := "VITE_GROQ_API_KEY environment variable is not set" in
  (DetermineApplicableRules sampleRuntime env (initialLimiters 0)
     "The parties agree.").1 = Err e ∧
  (e = "rate limit exceeded for rule retrieval" ∨
   dbRules env = inl e ∨
   (VITE_GROQ_API_KEY env = "" ∧
    e = "VITE_GROQ_API_KEY environment variable is not set") ∨
   ∃ a cause, (a < 3)%nat ∧ newRequestErr env a = Some cause ∧
              e = "failed to create Groq request: " +:+ cause).
Proof.
  intros env e.
  assert (Hres : (DetermineApplicableRules sampleRuntime env
                    (initialLimiters 0) "The parties agree.").1 = Err e)
    by reflexivity.
  split; [exact Hres|].
  exact (DetermineApplicableRules_errors_are_local sampleRuntime env
           (initialLimiters 0) "The parties agree." e Hres).
Defined.

(** The loop looks at no attempt beyond the [left] it may make. *)
Lemma retryLoop_ext (env : ClassifyEnv)
    (remote : nat → Attempt (list string)) (left : nat) :
  ∀ (attempt : nat) (resp : option (Response (list string))),
    (∀ a, (attempt ≤ a < attempt + left)%nat → remote a = clientDo env a) →
    retryLoop (withClientDo env remote) left attempt resp =
    retryLoop env left attempt resp.
Proof.
  induction left as [|left IH]; intros attempt resp Hsame; [done|].
  cbn [retryLoop withClientDo newRequestErr clientDo].
  destruct (newRequestErr env attempt); [done|].
  rewrite (Hsame attempt) by lia.
  destruct (clientDo env attempt) as [r|r].
  - apply IH. intros a Ha. apply Hsame. lia.
  - case_bool_decide; [done|]. apply IH. intros a Ha. apply Hsame. lia.
Qed.

(** X12. The remote service is asked at most three times: what it would
    answer to a fourth or later attempt has no effect on the result or on
    the limiters. *)
Theorem DetermineApplicableRules_three_attempts (rt : GoRuntime)
    (env : ClassifyEnv) (remote : nat → Attempt (list string))
    (g : Limiters) (ocrText : string) :
  (∀ a, (a < 3)%nat → remote a = clientDo env a) →
  DetermineApplicableRules rt (withClientDo env remote) g ocrText =
  DetermineApplicableRules rt env g ocrText.
Proof.
  intros Hsame. unfold DetermineApplicableRules.
  cbn [withClientDo groqClock ruleClock dbRules VITE_GROQ_API_KEY
       marshalFails rangeOrder].
  rewrite retryLoop_ext; [done|].
  intros a Ha. apply Hsame. unfold maxRetries in Ha. lia.
Qed.

Lemma DetermineApplicableRules_three_attempts_witness :
  let env := classifyEnvOf [ndaRule] remoteBusy in
  let remote := λ a, if bool_decide (a < 3)%nat then remoteBusy a
                     else remoteSuggests ["NDA Check"] 0%nat in
  DetermineApplicableRules sampleRuntime (withClientDo env remote)
    (initialLimiters 0) "The parties agree." =
  DetermineApplicableRules sampleRuntime env (initialLimiters 0)
    "The parties agree.".
Proof.
  intros env remote.
  apply (DetermineApplicableRules_three_attempts sampleRuntime env remote).
  intros a Ha. unfold remote. by rewrite bool_decide_eq_true_2 by lia.
Defined.

Lemma retryLoop_retried (env : ClassifyEnv) (left : nat) :
  ∀ (attempt : nat) (resp : option (Response (list string))),
    (∀ a, (attempt ≤ a < attempt + left)%nat →
          newRequestErr env a = None ∧ retried (clientDo env a)) →
    retryLoop env left attempt resp =
    Ok (match left with
        | O => resp
        | S left' =>
          match clientDo env (attempt + left') with
          | DoErr r => r
          | DoOk r => Some r
          end
        end).
Proof.
  induction left as [|left IH]; intros attempt resp Hall; [done|].
  cbn [retryLoop].
  destruct (Hall attempt ltac:(lia)) as [-> Hretried].
  assert (Hrest : ∀ a, (S attempt ≤ a < S attempt + left)%nat →
            newRequestErr env a = None ∧ retried (clientDo env a))
    by (intros a Ha; apply Hall; lia).
  destruct (clientDo env attempt) as [r|r] eqn:Hdo; cbn [retried] in Hretried.
  - rewrite IH by done. destruct left as [|left'].
    + by rewrite Nat.add_0_r, Hdo.
    + by replace (S attempt + left')%nat with (attempt + S left')%nat by lia.
  - rewrite bool_decide_eq_false_2 by (intros Hne; by apply Hne).
    rewrite IH by done. destruct left as [|left'].
    + by rewrite Nat.add_0_r, Hdo.
    + by replace (S attempt + left')%nat with (attempt + S left')%nat by lia.
Qed.

(** X13. When the remote service answers all three attempts with status
    429, the classifier gives up on it and returns what the fallback finds
    in the text. *)
Theorem DetermineApplicableRules_busy_falls_back (rt : GoRuntime)
    (env : ClassifyEnv) (g : Limiters) (ocrText : string)
    (allRules : list ComplianceRule) :
  (Allow (groqRateLimiter g) (groqClock env).1 (groqClock env).2
         "groq_api_call").1 = true →
  (GetAllComplianceRules (ruleRateLimiter g) (ruleClock env).1
                         (ruleClock env).2 (dbRules env)).1 = Ok allRules →
  VITE_GROQ_API_KEY env ≠ "" →
  marshalFails env = false →
  (∀ a, (a < 3)%nat →
        newRequestErr env a = None ∧
        ∃ r, clientDo env a = DoOk r ∧ StatusCode r = 429) →
  (DetermineApplicableRules rt env g ocrText).1 =
  Ok (fallbackRuleExtraction rt (rangeOrder env) ocrText
                             (map rule_Name allRules)).
Proof.
  intros Hgate Hrules Hkey Hmarshal Hbusy.
  destruct (Hbusy 2%nat ltac:(lia)) as (_ & r & Hdo & Hstatus).
  apply (DetermineApplicableRules_degrades rt env g ocrText allRules r);
    try done.
  - unfold maxRetries. rewrite retryLoop_retried.
    + cbn [Nat.add]. by rewrite Hdo.
    + intros a Ha. destruct (Hbusy a ltac:(lia)) as (Hreq & r' & -> & Hr').
      by split.
  - left. rewrite Hstatus. discriminate.
Qed.

Lemma DetermineApplicableRules_busy_falls_back_witness :
  let env := classifyEnvOf [customRule] remoteBusy in
  (DetermineApplicableRules sampleRuntime env (initialLimiters 0)
     "Payment is due on signature.").1 =
  Ok (fallbackRuleExtraction sampleRuntime (rangeOrder env)
        "Payment is due on signature." (map rule_Name [customRule])).
Proof.
  intros env.
  apply (DetermineApplicableRules_busy_falls_back sampleRuntime env
           (initialLimiters 0) "Payment is due on signature." [customRule]);
    [reflexivity|reflexivity|discriminate|reflexivity|].
  intros a Ha. split; [reflexivity|].
  by exists (mkResponse 429 None).
Defined.

Lemma List_filter_sublist {A : Type} (f : A → bool) (l : list A) :
  List.filter f l `sublist_of` l.
Proof.
  induction l as [|x l IH]; cbn; [done|]. destruct (f x); by constructor.
Qed.

(** X14. A first answer with status 200 that decodes decides the result:
    the names it suggests that the catalog has, in the order suggested,
    and nothing else. *)
Theorem DetermineApplicableRules_first_answer (rt : GoRuntime)
    (env : ClassifyEnv) (g : Limiters) (ocrText : string)
    (allRules : list ComplianceRule) (violatedRules : list string)
    (others : list (Decoded (list string))) :
  (Allow (groqRateLimiter g) (groqClock env).1 (groqClock env).2
         "groq_api_call").1 = true →
  (GetAllComplianceRules (ruleRateLimiter g) (ruleClock env).1
                         (ruleClock env).2 (dbRules env)).1 = Ok allRules →
  VITE_GROQ_API_KEY env ≠ "" →
  marshalFails env = false →
  newRequestErr env 0%nat = None →
  clientDo env 0%nat =
    DoOk (mkResponse 200
            (Some (Wellformed (Wellformed violatedRules :: others)))) →
  ∃ names,
    (DetermineApplicableRules rt env g ocrText).1 = Ok names ∧
    names `sublist_of` violatedRules ∧
    ∀ name, name ∈ names ↔
            name ∈ violatedRules ∧ name ∈ map rule_Name allRules.
Proof.
  intros Hgate Hrules Hkey Hmarshal Hreq Hdo.
  exists (validateViolated (map rule_Name allRules) violatedRules). split.
  - unfold DetermineApplicableRules.
    destruct (Allow _ _ _ "groq_api_call") as [ok groq']. cbn [fst] in Hgate.
    subst ok. cbn [negb].
    destruct (GetAllComplianceRules _ _ _ _) as [fetched rule'].
    cbn [fst] in Hrules. subst fetched.
    rewrite (bool_decide_eq_false_2 _ Hkey), Hmarshal.
    unfold maxRetries. cbn [retryLoop]. rewrite Hreq, Hdo.
    cbn [StatusCode Body]. rewrite bool_decide_eq_true_2 by discriminate.
    by rewrite bool_decide_eq_false_2 by (intros Hne; by apply Hne).
  - unfold validateViolated. destruct violatedRules as [|v rest].
    + split; [done|]. intros name. rewrite elem_of_nil. tauto.
    + split; [apply List_filter_sublist|].
      intros name. rewrite list_elem_of_In, filter_In, <- !list_elem_of_In.
      rewrite contains_elem_of. tauto.
Qed.

Lemma DetermineApplicableRules_first_answer_witness :
  let env := classifyEnvOf [customRule; ndaRule]
               (remoteSuggests ["NDA Check"; "Unheard Of"; "NDA Check"]) in
  ∃ names,
    (DetermineApplicableRules sampleRuntime env (initialLimiters 0)
       "The parties agree.").1 = Ok names ∧
    names `sublist_of` ["NDA Check"; "Unheard Of"; "NDA Check"] ∧
    ∀ name, name ∈ names ↔
            name ∈ ["NDA Check"; "Unheard Of"; "NDA Check"] ∧
            name ∈ map rule_Name [customRule; ndaRule].
Proof.
  intros env.
  apply (DetermineApplicableRules_first_answer sampleRuntime env
           (initialLimiters 0) "The parties agree." [customRule; ndaRule]
           ["NDA Check"; "Unheard Of"; "NDA Check"] []);
    [reflexivity|reflexivity|discriminate|reflexivity|reflexivity|reflexivity].
Defined.

(** ** BatchClassifier *)

(** X15. A group size below 1 never gives a result. With 0 the loop over
    the groups does not advance: the batch classifier does not return,
    the loop has not ended after any number of rounds. With a negative
    size the first slice of the documents has its upper bound below 0 and
    the call panics. Neither depends on what the remote service answers. *)
Theorem DetermineApplicableRulesBatch_size_below_one (env : BatchEnv)
    (g : Limiters) (documents : list string) (batchSize : Z)
    (allRules : list ComplianceRule) :
  documents ≠ [] →
  minInt ≤ batchSize < 1 →
  (Allow (groqRateLimiter g) (batchGroqClock env).1 (batchGroqClock env).2
         "batch_rule_determination").1 = true →
  (GetAllComplianceRules (ruleRateLimiter g) (batchRuleClock env).1
                         (batchRuleClock env).2 (batchDbRules env)).1
    = Ok allRules →
  batchApiKey env ≠ "" →
  (DetermineApplicableRulesBatch env g documents batchSize).1 =
    (if bool_decide (batchSize = 0) then None
     else Some (Panic "slice bounds out of range")) ∧
  (batchSize = 0 →
   ∀ fuel chunk results,
     batchLoop fuel env documents 0 (batchRuleNames allRules)
               (batchApiKey env) 0 chunk results = None).
Proof.
  intros Hdocs Hsize Hgate Hrules Hkey. split.
  - unfold DetermineApplicableRulesBatch.
    rewrite bool_decide_eq_false_2 by (by destruct documents).
    destruct (Allow _ _ _ "batch_rule_determination") as [ok groq'].
    cbn [fst] in Hgate. subst ok. cbn [negb].
    destruct (GetAllComplianceRules _ _ _ _) as [fetched rule'].
    cbn [fst] in Hrules. subst fetched.
    rewrite (bool_decide_eq_false_2 _ Hkey). cbn [fst].
    case_bool_decide as Hzero.
    + subst batchSize. by apply batchLoop_zero_size.
    + cbn [batchLoop].
      assert (0 < Z.of_nat (length documents))
        by (destruct documents; [done|cbn; lia]).
      assert (maxInt > 0) by reflexivity.
      rewrite bool_decide_eq_true_2 by lia.
      rewrite int_add_id by lia.
      rewrite (bool_decide_eq_false_2
                 (Z.of_nat (length documents) < 0 + batchSize)) by lia.
      by rewrite bool_decide_eq_true_2 by lia.
  - intros _ fuel chunk results. by apply batchLoop_zero_size.
Qed.

Lemma DetermineApplicableRulesBatch_size_below_one_witness :
  let env := batchEnvOf [ndaRule] batchFirstGroupOnly in
  (DetermineApplicableRulesBatch env (initialLimiters 0) ["first text"] 0).1
    = None ∧
  (DetermineApplicableRulesBatch env (initialLimiters 0) ["first text"]
     (-1)).1 = Some (Panic "slice bounds out of range").
Proof.
  intros env.
  assert (Hdocs : ["first text"] ≠ []) by discriminate.
  assert (Hkey : batchApiKey env ≠ "") by discriminate.
  split.
  - exact (proj1 (DetermineApplicableRulesBatch_size_below_one env
                    (initialLimiters 0) ["first text"] 0 [ndaRule] Hdocs
                    ltac:(by vm_compute) eq_refl eq_refl Hkey)).
  - exact (proj1 (DetermineApplicableRulesBatch_size_below_one env
                    (initialLimiters 0) ["first text"] (-1) [ndaRule] Hdocs
                    ltac:(by vm_compute) eq_refl eq_refl Hkey)).
Defined.

Lemma docID_inj : Inj (=) (=) docID.
Proof.
  intros i j Heq. unfold docID in Heq.
  apply (inj (String.append "doc_")) in Heq. by apply (inj pretty) in Heq.
Qed.

Lemma prepare_from (n : nat) (documents : list string) :
  map check_ID
      (imap (λ i doc, mkDocumentComplianceCheck (docID (n + i)) doc)
            documents)
  = docID <$> seq n (length documents) ∧
  map check_OCRText
      (imap (λ i doc, mkDocumentComplianceCheck (docID (n + i)) doc)
            documents)
  = documents.
Proof.
  revert n. induction documents as [|doc rest IH]; intros n; [done|].
  cbn [imap map length seq fmap list_fmap check_ID check_OCRText].
  rewrite Nat.add_0_r.
  destruct (IH (S n)) as [Hids Htexts].
  assert (Hshift :
    imap ((λ i doc, mkDocumentComplianceCheck (docID (n + i)) doc) ∘ S) rest
    = imap (λ i doc, mkDocumentComplianceCheck (docID (S n + i)) doc) rest).
  { apply imap_ext. intros i doc' _. cbn. by rewrite Nat.add_succ_r. }
  rewrite Hshift, Hids, Htexts. done.
Qed.

(** X16. The request for a group numbers its documents from 0: the
    identifiers are doc_0, doc_1, ... in the order of the texts, no two of
    them are equal, and the texts and the rule names are passed on as they
    are. *)
Theorem prepareBatchComplianceRequest_ids (documents ruleNames : list string) :
  let batchRequest := prepareBatchComplianceRequest documents ruleNames in
  map check_ID (Documents batchRequest)
    = docID <$> seq 0 (length documents) ∧
  NoDup (map check_ID (Documents batchRequest)) ∧
  map check_OCRText (Documents batchRequest) = documents ∧
  RuleNames batchRequest = ruleNames.
Proof.
  cbn zeta. unfold prepareBatchComplianceRequest. cbn [Documents RuleNames].
  destruct (prepare_from 0 documents) as [Hids Htexts]. cbn [Nat.add] in *.
  rewrite Hids, Htexts. split; [done|]. split; [|done].
  apply (NoDup_fmap_2 _), NoDup_seq.
Qed.

Lemma batchRuleNames_fold (allRules : list ComplianceRule) :
  ∀ ruleNames : list string,
    fold_left (λ ruleNames rule, ruleNames ++ [rule_Name rule]) allRules
              ruleNames
    = ruleNames ++ map rule_Name allRules.
Proof.
  induction allRules as [|rule rest IH]; intros ruleNames; cbn.
  - by rewrite app_nil_r.
  - by rewrite IH, <- app_assoc.
Qed.

(** X17. The list of rule names of the batch classifier starts with one
    empty name per rule of the catalog, and the names follow. So for a
    catalog that is not empty the empty name counts as a rule: a
    suggestion of it passes the validation and is stored. *)
Theorem batchRuleNames_padded (allRules : list ComplianceRule) :
  allRules ≠ [] →
  batchRuleNames allRules =
    replicate (length allRules) "" ++ map rule_Name allRules ∧
  storedRules (batchRuleNames allRules) [""] = [""].
Proof.
  intros Hrules.
  assert (Hnames : batchRuleNames allRules =
                   replicate (length allRules) "" ++ map rule_Name allRules)
    by apply batchRuleNames_fold.
  split; [exact Hnames|].
  unfold storedRules, validateRules, sliceContains. rewrite Hnames.
  destruct allRules as [|rule rest]; [done|]. reflexivity.
Qed.

Lemma batchRuleNames_padded_witness :
  [ndaRule] ≠ [] ∧
  batchRuleNames [ndaRule] = [""; "NDA Check"] ∧
  storedRules (batchRuleNames [ndaRule]) [""] = [""].
Proof.
  assert (Hrules : [ndaRule] ≠ []) by discriminate.
  split; [exact Hrules|].
  exact (batchRuleNames_padded [ndaRule] Hrules).
Defined.

Lemma batchLoop_no_error (env : BatchEnv) (documents : list string)
    (batchSize : Z) (ruleNames : list string) (apiKey : string) (fuel : nat) :
  ∀ (i : Z) (chunk : nat) (results : BatchResults) (e : string),
    batchLoop fuel env documents batchSize ruleNames apiKey i chunk results
    ≠ Some (Err e).
Proof.
  induction fuel as [|fuel IH]; intros i chunk results e; [done|].
  cbn [batchLoop]. case_bool_decide; [|done].
  case_bool_decide; [done|].
  destruct (sendBatchComplianceRequest env chunk _ apiKey); [apply IH..|done].
Qed.

(** X18. An error of the batch classifier always has a local cause: no
    documents, a limiter that refuses, a failure of the store, or a key of
    the service that is not set. A failure of the remote service is never
    returned as an error. *)
Theorem DetermineApplicableRulesBatch_errors_are_local (env : BatchEnv)
    (g : Limiters) (documents : list string) (batchSize : Z) (e : string) :
  (DetermineApplicableRulesBatch env g documents batchSize).1 = Some (Err e) →
  (documents = [] ∧ e = "no documents provided for batch processing") ∨
  e = "rate limit exceeded for batch rule determination" ∨
  e = "rate limit exceeded for rule retrieval" ∨
  batchDbRules env = inl e ∨
  (batchApiKey env = "" ∧
   e = "VITE_GROQ_API_KEY environment variable is not set").
Proof.
  unfold DetermineApplicableRulesBatch. case_bool_decide as Hlen.
  { intros [= <-]. left. split; [by apply nil_length_inv|done]. }
  destruct (Allow _ _ _ "batch_rule_determination") as [[] groq'];
    cbn [negb fst]; [|intros [= <-]; right; by left].
  unfold GetAllComplianceRules.
  destruct (Allow _ _ _ "rule_retrieval") as [[] rule']; cbn [negb fst];
    [|intros [= <-]; right; right; by left].
  destruct (batchDbRules env) as [e'|allRules];
    [intros [= <-]; right; right; right; by left|].
  case_bool_decide as Hkey; cbn [fst].
  - intros [= <-]. by repeat right.
  - intros Hloop. by apply batchLoop_no_error in Hloop.
Qed.

Lemma DetermineApplicableRulesBatch_errors_are_local_witness :
  let env := batchEnvOf [ndaRule] batchUnreachable in
  let e := "no documents provided for batch processing" in
  (DetermineApplicableRulesBatch env (initialLimiters 0) [] 2).1
    = Some (Err e) ∧
  (([] : list string) = [] ∧ e = "no documents provided for batch processing"
   ∨ e = "rate limit exceeded for batch rule determination"
   ∨ e = "rate limit exceeded for rule retrieval"
   ∨ batchDbRules env = inl e
   ∨ (batchApiKey env = "" ∧
      e = "VITE_GROQ_API_KEY environment variable is not set")).
Proof.
  intros env e.
  assert (Hres : (DetermineApplicableRulesBatch env (initialLimiters 0) [] 2).1
                 = Some (Err e)) by reflexivity.
  split; [exact Hres|].
  exact (DetermineApplicableRulesBatch_errors_are_local env
           (initialLimiters 0) [] 2 e Hres).
Defined.

(** ** ActionItemLifecycle: what holds whatever the store answers *)

Lemma createLoop_appends (rt : GoRuntime) (doc : Document)
    (results : list Outcome) :
  ∀ w : World,
    ∃ r w' newActions newResults,
      createLoop rt doc results w = (r, w') ∧
      appended w w' newActions newResults ∧
      Forall (pendingFor doc) newActions ∧
      Forall (failedFor doc) newResults ∧
      map drr_RuleID newResults =
        take (length newResults) (map ai_RuleID newActions) ∧
      match r with
      | Ok _ => length newActions = length newResults
      | Err _ => length newActions = length newResults ∨
                 length newActions = S (length newResults)
      | Panic _ => False
      end.
Proof.
  induction results as [|result rest IH]; intros w.
  { exists (Ok tt), w, [], []. unfold appended. rewrite !app_nil_r.
    repeat split; first [done | lia | constructor]. }
  assert (Hskip : ∀ w1,
    store w1 = store w → faults w1 = faults w → uuids w1 = uuids w →
    clock w1 = clock w → (calls w ≤ calls w1)%nat →
    (ticks w ≤ ticks w1)%nat →
    ∃ r w' newActions newResults,
      createLoop rt doc rest w1 = (r, w') ∧
      appended w w' newActions newResults ∧
      Forall (pendingFor doc) newActions ∧
      Forall (failedFor doc) newResults ∧
      map drr_RuleID newResults =
        take (length newResults) (map ai_RuleID newActions) ∧
      match r with
      | Ok _ => length newActions = length newResults
      | Err _ => length newActions = length newResults ∨
                 length newActions = S (length newResults)
      | Panic _ => False
      end).
  { intros w1 Hs Hf Hu Hc Hcalls Hticks.
    destruct (IH w1) as (r & w' & nA & nR & Hrun & Happ & HA & HR & Hids & Hr).
    exists r, w', nA, nR. split; [exact Hrun|]. split; [|done].
    unfold appended in *. rewrite <- Hs, <- Hf, <- Hu, <- Hc.
    destruct Happ as (?&?&?&?&?&?&?&?&?). repeat split; try done; lia. }
  cbn [createLoop].
  destruct (asString (result !! "status")) as [status|];
    [|by apply Hskip].
  case_bool_decide as Hfail; [by apply Hskip|].
  destruct (asString (result !! "rule_name")) as [ruleName|].
  2:{ run_step. by apply Hskip. }
  run_step. unfold db_FirstRuleByName. run_step.
  destruct (faults w (calls w)) as [e|] eqn:Hfault.
  { run_step. apply Hskip; cbn; try done; lia. }
  destruct (firstByKey _ _ (compliance_rules (store w))) as [rule|];
    cbn [firstOr].
  2:{ run_step. apply Hskip; cbn; try done; lia. }
  case_bool_decide as Hid.
  { run_step. apply Hskip; cbn; try done; lia. }
  do 3 run_step. unfold db_CreateActionItem. run_step.
  destruct (faults w (S (calls w))) as [e|] eqn:Hfault1.
  { run_step. rewrite run_ret.
    eexists (Err e), _, [], []. split; [reflexivity|].
    unfold appended. cbn [store faults uuids calls clock ticks logged].
    rewrite !app_nil_r.
    repeat split; first [done | lia | by left | constructor]. }
  do 2 run_step.
  unfold db_CreateDocumentRuleResult. run_step.
  cbn [compliance_rules action_items document_rule_results documents
       ai_DocumentID ai_RuleID ai_Description ai_Status ai_Priority
       ai_DueDate ai_CreatedAt ai_UpdatedAt drr_DocumentID drr_RuleID
       drr_Status drr_Details drr_CreatedAt].
  destruct (faults w (S (S (calls w)))) as [e|] eqn:Hfault2.
  { run_step. rewrite run_ret.
    eexists (Err e), _, [_], []. split; [reflexivity|].
    unfold appended.
    cbn [store faults uuids calls clock ticks logged compliance_rules
         action_items document_rule_results documents].
    rewrite !app_nil_r.
    repeat split;
      first [done | lia | by right | by repeat constructor]. }
  run_step.
  match goal with
  | |- ∃ _ _ _ _, createLoop _ _ _ ?w1 = _ ∧ _ =>
    destruct (IH w1) as (r & w' & nA & nR & Hrun & Happ & HA & HR & Hids & Hr)
  end.
  unfold appended in Happ.
  cbn [store faults uuids calls clock ticks logged compliance_rules
       action_items document_rule_results documents] in Happ.
  destruct Happ as (Hrules & Hdocs & Ha & Hres & Hf & Hu & Hc & Hcalls & Hticks).
  rewrite <- app_assoc in Ha, Hres. cbn [app] in Ha, Hres.
  eexists r, w', (_ :: nA), (_ :: nR). split; [exact Hrun|].
  split; [|split; [|split; [|split]]].
  - unfold appended. repeat split; try done; lia.
  - constructor; [by repeat split|exact HA].
  - constructor; [by repeat split|exact HR].
  - cbn [map length take drr_RuleID ai_RuleID].
    by f_equal.
  - cbn [length]. destruct r; [lia|lia|done].
Qed.

(** X19. Whatever the store answers, and whether or not the pass ends
    with an error, [CreateActionItems] only appends rows: the rules, the
    documents and the rows that exist are as before, each new action item
    is pending, unassigned and of this document, each new rule result has
    the rule of the action item at the same place, and there are as many
    of the one as of the other, or, after an error, one action item more,
    which is left without its rule result. It never panics. *)
Theorem CreateActionItems_appends (rt : GoRuntime) (doc : Document)
    (w : World) :
  ∃ newActions newResults,
    appended w (CreateActionItems rt doc w).2 newActions newResults ∧
    Forall (pendingFor doc) newActions ∧
    Forall (failedFor doc) newResults ∧
    map drr_RuleID newResults =
      take (length newResults) (map ai_RuleID newActions) ∧
    match (CreateActionItems rt doc w).1 with
    | Ok _ => length newActions = length newResults
    | Err _ => length newActions = length newResults ∨
               length newActions = S (length newResults)
    | Panic _ => False
    end.
Proof.
  unfold CreateActionItems.
  destruct (unmarshalOutcomes (doc_ParsedData doc)) as [err|results].
  - run_step. rewrite run_ret. exists [], []. cbn [fst snd].
    unfold appended. cbn [store faults uuids calls clock ticks logged].
    rewrite !app_nil_r.
    repeat split; first [done | lia | by left | constructor].
  - destruct (createLoop_appends rt doc results w)
      as (r & w' & nA & nR & -> & Happ & HA & HR & Hids & Hr).
    by exists nA, nR.
Qed.

Lemma actionable_rules (s s' : Store) (o : Outcome) :
  compliance_rules s' = compliance_rules s →
  actionable s' o = actionable s o.
Proof. intros Hrules. unfold actionable, ruleNamed. by rewrite Hrules. Qed.

Lemma omap_actionable_rules (s s' : Store) (results : list Outcome) :
  compliance_rules s' = compliance_rules s →
  omap (actionable s') results = omap (actionable s) results.
Proof.
  intros Hrules. induction results as [|o rest IH]; [done|].
  cbn [omap list_omap]. by rewrite (actionable_rules s s' o Hrules), IH.
Qed.

(** X20. [CreateActionItems] does not look for the rows of an earlier
    pass: run a second time on the same document, it succeeds again and
    creates every action item and every rule result once more. *)
Theorem CreateActionItems_twice (rt : GoRuntime) (doc : Document) (w : World)
    (results : list Outcome) :
  unmarshalOutcomes (doc_ParsedData doc) = inr results →
  storeAnswers w →
  let n := length (omap (actionable (store w)) results) in
  let w1 := (CreateActionItems rt doc w).2 in
  let w2 := (CreateActionItems rt doc w1).2 in
  (CreateActionItems rt doc w).1 = Ok tt ∧
  (CreateActionItems rt doc w1).1 = Ok tt ∧
  length (action_items (store w1)) =
    (length (action_items (store w)) + n)%nat ∧
  length (action_items (store w2)) =
    (length (action_items (store w)) + 2 * n)%nat ∧
  length (document_rule_results (store w2)) =
    (length (document_rule_results (store w)) + 2 * n)%nat.
Proof.
  intros Hparse Hans. cbn zeta. unfold CreateActionItems. rewrite Hparse.
  destruct (createLoop_spec rt doc results w Hans)
    as (w1 & nA & nR & nL & Hrun & Hrules & _ & Ha & Hr & _ & HfA & HfR & _).
  destruct (createLoop_appends rt doc results w)
    as (r & w1' & nA' & nR' & Hrun' & Happ & _).
  rewrite Hrun in Hrun'. injection Hrun' as <- <-.
  destruct Happ as (_ & _ & _ & _ & Hfaults & _ & _ & Hcalls & _).
  assert (Hans1 : storeAnswers w1).
  { intros k Hk. rewrite Hfaults. apply Hans. lia. }
  destruct (createLoop_spec rt doc results w1 Hans1)
    as (w2 & nA2 & nR2 & nL2 & Hrun2 & _ & _ & Ha2 & Hr2 & _ & HfA2 & HfR2 & _).
  rewrite (omap_actionable_rules _ _ results Hrules) in HfA2, HfR2.
  rewrite Hrun. cbn [fst snd]. rewrite Hrun2. cbn [fst snd].
  apply Forall2_length in HfA, HfR, HfA2, HfR2.
  rewrite Ha2, Hr2, Ha, Hr, !length_app.
  repeat split; lia.
Qed.

Lemma CreateActionItems_twice_witness :
  let w := quietWorld (mkStore [ndaRule] [] [] []) in
  let w1 := (CreateActionItems sampleRuntime ndaDocument w).2 in
  let w2 := (CreateActionItems sampleRuntime ndaDocument w1).2 in
  unmarshalOutcomes (doc_ParsedData ndaDocument) = inr [ndaOutcome] ∧
  storeAnswers w ∧
  (CreateActionItems sampleRuntime ndaDocument w1).1 = Ok tt ∧
  length (action_items (store w2)) = 2%nat.
Proof.
  intros w w1 w2.
  assert (Hparse : unmarshalOutcomes (doc_ParsedData ndaDocument)
                   = inr [ndaOutcome]) by reflexivity.
  assert (Hans : storeAnswers w) by (intros n _; reflexivity).
  split; [exact Hparse|]. split; [exact Hans|].
  destruct (CreateActionItems_twice sampleRuntime ndaDocument w [ndaOutcome]
              Hparse Hans) as (_ & Hok & _ & Hlen & _).
  split; [exact Hok|exact Hlen].
Defined.

(** ** ActionItemLifecycle: completion *)

Lemma run_decodeColumn {A : Type} (raw : RawJSON) (format : string)
    (args : list LogArg) (k : option Outcome → M A) (w : World) :
  ∃ extra,
    (decodeColumn raw format args ≫= k) w =
    k (decodedObject raw)
      (mkWorld (store w) (faults w) (uuids w) (calls w) (clock w) (ticks w)
               (logged w ++ extra)).
Proof.
  unfold decodeColumn, decodedObject.
  destruct (isEmptyColumn raw).
  { exists []. rewrite app_nil_r. by destruct w. }
  destruct (unmarshalMap raw) as [|m|err].
  - exists []. rewrite app_nil_r. by destruct w.
  - exists []. rewrite app_nil_r. by destruct w.
  - eexists [_]. reflexivity.
Qed.

(** The run of [UpdateActionItem] when the store answers and has the three
    rows, and neither column decodes to the nil map. *)
Lemma UpdateActionItem_run (actionID : string) (w : World)
    (action : ActionItem) (docResult : DocumentRuleResult) (doc : Document)
    (details parsedData : Outcome) :
  storeAnswers w →
  findActionItem (store w) actionID = Some action →
  findRuleResult (store w) (ai_DocumentID action) (ai_RuleID action)
    = Some docResult →
  decodedObject (drr_Details docResult) = Some details →
  findDocument (store w) (ai_DocumentID action) = Some doc →
  decodedObject (doc_ParsedData doc) = Some parsedData →
  ∃ w',
    UpdateActionItem actionID w = (Ok tt, w') ∧
    calls w' = (calls w + 6)%nat ∧
    store w' =
      mkStore
        (compliance_rules (store w))
        (map (λ a, if bool_decide (ai_ID a = ai_ID action)
                   then mkActionItem (ai_ID a) (ai_DocumentID a) (ai_RuleID a)
                          (ai_Description a) (ai_AssignedTo a) "completed"
                          (ai_Priority a) (ai_DueDate a) (ai_CreatedAt a)
                          (clock w (S (ticks w)))
                   else a)
             (action_items (store w)))
        (map (λ r, if bool_decide (drr_ID r = drr_ID docResult)
                   then mkDocumentRuleResult (drr_ID docResult)
                          (drr_DocumentID docResult) (drr_RuleID docResult)
                          "resolved"
                          (Encodes (JObject
                             (<["explanation" := JString "No issues"]> details)))
                          (clock w (S (S (ticks w))))
                   else r)
             (document_rule_results (store w)))
        (map (λ d, if bool_decide (doc_ID d = doc_ID doc)
                   then mkDocument (doc_ID d) (doc_Title d) (doc_FileType d)
                          (doc_OriginalURL d) (doc_OcrText d)
                          (Encodes (JObject
                             (<["status" := JBool true]> parsedData)))
                          (doc_RiskScore d) (doc_CreatedAt d)
                          (clock w (S (S (S (ticks w)))))
                   else d)
             (documents (store w))).
Proof.
  intros Hans Haction Hresult Hdetails Hdoc Hparsed.
  unfold findActionItem in Haction. unfold findRuleResult in Hresult.
  unfold findDocument in Hdoc.
  unfold UpdateActionItem, db_FirstActionItem. run_step.
  rewrite (Hans (calls w)) by lia. rewrite Haction. cbn [firstOr].
  do 2 run_step. unfold db_UpdateActionItem. run_step.
  rewrite (Hans (S (calls w))) by lia.
  unfold db_FirstDocumentRuleResult. run_step.
  rewrite (Hans (S (S (calls w)))) by lia.
  cbn [compliance_rules action_items document_rule_results documents].
  rewrite Hresult. cbn [firstOr].
  match goal with
  | |- ∃ _, (decodeColumn ?raw ?f ?a ≫= ?k) ?w1 = _ ∧ _ =>
    destruct (run_decodeColumn raw f a k w1) as [extra1 ->]
  end.
  cbn [store faults uuids calls clock ticks logged].
  rewrite Hdetails. run_step.
  unfold db_SaveDocumentRuleResult. run_step.
  rewrite (Hans (S (S (S (calls w))))) by lia.
  unfold db_FirstDocument. run_step.
  rewrite (Hans (S (S (S (S (calls w)))))) by lia.
  cbn [compliance_rules action_items document_rule_results documents
       drr_ID].
  rewrite Hdoc. cbn [firstOr].
  match goal with
  | |- ∃ _, (decodeColumn ?raw ?f ?a ≫= ?k) ?w1 = _ ∧ _ =>
    destruct (run_decodeColumn raw f a k w1) as [extra2 ->]
  end.
  cbn [store faults uuids calls clock ticks logged].
  rewrite Hparsed. run_step.
  unfold db_UpdateDocument. run_step.
  rewrite (Hans (S (S (S (S (S (calls w))))))) by lia.
  run_step. rewrite run_ret.
  eexists. split; [reflexivity|].
  cbn [store calls compliance_rules action_items document_rule_results
       documents].
  split; [lia|reflexivity].
Qed.

(** X21. When the store answers, has the action item, its rule result and
    its document, and neither JSON column is [null], [UpdateActionItem]
    makes six calls of the store and returns no error. Afterwards the
    action item is completed and the other action items are as they were.
    The rule result is resolved and the other rule results are as they
    were; its details are the object its column decoded to, with the
    explanation set to the text that there are no issues. The parsed data
    of the document is the object its column decoded to, with the status
    set to true; the other documents are as they were. A column that holds
    an object decodes to that object, so that its other entries are kept:
    [decodedObject] gives the empty object for a column that holds
    anything else but [null]. *)
Theorem UpdateActionItem_completes (actionID : string) (w : World)
    (action : ActionItem) (docResult : DocumentRuleResult) (doc : Document)
    (details parsedData : Outcome) :
  storeAnswers w →
  findActionItem (store w) actionID = Some action →
  findRuleResult (store w) (ai_DocumentID action) (ai_RuleID action)
    = Some docResult →
  decodedObject (drr_Details docResult) = Some details →
  findDocument (store w) (ai_DocumentID action) = Some doc →
  decodedObject (doc_ParsedData doc) = Some parsedData →
  let run := UpdateActionItem actionID w in
  run.1 = Ok tt ∧
  calls run.2 = (calls w + 6)%nat ∧
  (∀ a, In a (action_items (store run.2)) →
        if bool_decide (ai_ID a = actionID)
        then ai_Status a = "completed"
        else In a (action_items (store w))) ∧
  (∀ r, In r (document_rule_results (store run.2)) →
        if bool_decide (drr_ID r = drr_ID docResult)
        then drr_Status r = "resolved" ∧
             drr_Details r =
               Encodes (JObject
                 (<["explanation" := JString "No issues"]> details))
        else In r (document_rule_results (store w))) ∧
  (∀ d, In d (documents (store run.2)) →
        if bool_decide (doc_ID d = ai_DocumentID action)
        then doc_ParsedData d =
               Encodes (JObject (<["status" := JBool true]> parsedData))
        else In d (documents (store w))) ∧
  (∃ a, In a (action_items (store run.2)) ∧ ai_ID a = actionID) ∧
  (∃ r, In r (document_rule_results (store run.2)) ∧
        drr_ID r = drr_ID docResult) ∧
  (∃ d, In d (documents (store run.2)) ∧ doc_ID d = ai_DocumentID action) ∧
  (∀ m, drr_Details docResult = Encodes (JObject m) → details = m) ∧
  (∀ m, doc_ParsedData doc = Encodes (JObject m) → parsedData = m).
Proof.
  intros Hans Haction Hresult Hdetails Hdoc Hparsed. cbn zeta.
  destruct (UpdateActionItem_run actionID w action docResult doc details
              parsedData Hans Haction Hresult Hdetails Hdoc Hparsed)
    as (w' & -> & Hcalls & Hstore).
  cbn [fst snd]. rewrite Hstore.
  cbn [compliance_rules action_items document_rule_results documents].
  apply firstByKey_bool_decide in Haction as [Hain Hid].
  apply firstByKey_bool_decide in Hdoc as [Hdin Hdid].
  apply firstByKey_Some in Hresult as [Hrin _].
  split; [done|]. split; [exact Hcalls|].
  split; [|split; [|split; [|split; [|split; [|split; [|split]]]]]].
  - intros a (a0 & <- & Hin)%in_map_iff. rewrite Hid.
    destruct (bool_decide (ai_ID a0 = actionID)) eqn:Ha0; cbn [ai_ID].
    + by rewrite Ha0.
    + by rewrite Ha0.
  - intros r (r0 & <- & Hin)%in_map_iff.
    destruct (bool_decide (drr_ID r0 = drr_ID docResult)) eqn:Hr0;
      cbn [drr_ID drr_Status drr_Details].
    + by rewrite bool_decide_eq_true_2.
    + by rewrite Hr0.
  - intros d (d0 & <- & Hin)%in_map_iff. rewrite Hdid.
    destruct (bool_decide (doc_ID d0 = ai_DocumentID action)) eqn:Hd0;
      cbn [doc_ID doc_ParsedData].
    + by rewrite Hd0.
    + by rewrite Hd0.
  - eexists. split.
    + apply in_map_iff. exists action. split; [reflexivity|exact Hain].
    + rewrite bool_decide_eq_true_2 by done. exact Hid.
  - eexists. split.
    + apply in_map_iff. exists docResult. split; [reflexivity|exact Hrin].
    + by rewrite bool_decide_eq_true_2.
  - eexists. split.
    + apply in_map_iff. exists doc. split; [reflexivity|exact Hdin].
    + rewrite bool_decide_eq_true_2 by done. exact Hdid.
  - intros m Hm. rewrite Hm in Hdetails. by injection Hdetails.
  - intros m Hm. rewrite Hm in Hparsed. by injection Hparsed.
Qed.

Lemma UpdateActionItem_completes_witness :
  let run := UpdateActionItem "action1" (quietWorld annotatedStore) in
  run.1 = Ok tt ∧ calls run.2 = 6%nat ∧
  (∀ a, In a (action_items (store run.2)) → ai_Status a = "completed") ∧
  (∀ r, In r (document_rule_results (store run.2)) →
        drr_Status r = "resolved" ∧
        drr_Details r =
          Encodes (JObject
            (<["explanation" := JString "No issues"]> ndaOutcome))) ∧
  (∀ d, In d (documents (store run.2)) →
        doc_ParsedData d =
          Encodes (JObject (<["status" := JBool true]>
                              (<["department" := JString "legal"]> ∅)))).
Proof.
  intros run.
  assert (Hans : storeAnswers (quietWorld annotatedStore))
    by (intros n _; reflexivity).
  destruct (UpdateActionItem_completes "action1" (quietWorld annotatedStore)
              pendingItem
              (mkDocumentRuleResult "result1" "doc1" "rule1" "fail"
                 (Encodes (JObject ndaOutcome)) 0)
              annotatedDocument ndaOutcome
              (<["department" := JString "legal"]> ∅)
              Hans eq_refl eq_refl eq_refl eq_refl eq_refl)
    as (Hok & Hcalls & Hitems & Hresults & Hdocs & _).
  assert (Hai : ai_ID <$> action_items (store run.2) = ["action1"])
    by (vm_compute; reflexivity).
  assert (Hri : drr_ID <$> document_rule_results (store run.2) = ["result1"])
    by (vm_compute; reflexivity).
  assert (Hdi : doc_ID <$> documents (store run.2) = ["doc1"])
    by (vm_compute; reflexivity).
  split; [exact Hok|]. split; [exact Hcalls|]. split; [|split].
  - intros a Hin. specialize (Hitems a Hin).
    assert (Hid : ai_ID a = "action1").
    { apply (in_map ai_ID) in Hin. fold run in Hin.
      change (map ai_ID ?l) with (ai_ID <$> l) in Hin. rewrite Hai in Hin.
      by destruct Hin as [<-|[]]. }
    by rewrite Hid in Hitems.
  - intros r Hin. specialize (Hresults r Hin).
    assert (Hid : drr_ID r = "result1").
    { apply (in_map drr_ID) in Hin. fold run in Hin.
      change (map drr_ID ?l) with (drr_ID <$> l) in Hin. rewrite Hri in Hin.
      by destruct Hin as [<-|[]]. }
    by rewrite Hid in Hresults.
  - intros d Hin. specialize (Hdocs d Hin).
    assert (Hid : doc_ID d = "doc1").
    { apply (in_map doc_ID) in Hin. fold run in Hin.
      change (map doc_ID ?l) with (doc_ID <$> l) in Hin. rewrite Hdi in Hin.
      by destruct Hin as [<-|[]]. }
    by rewrite Hid in Hdocs.
Defined.

(** X22. A document as the ingestion leaves it holds the list of its
    outcomes in the parsed data. Completing one of its action items
    replaces that list by the object whose only entry is a true status:
    the outcomes are gone, and a later [CreateActionItems] for the
    document cannot read the column, returns the error and leaves the
    store alone. *)
Theorem UpdateActionItem_drops_outcome_list (actionID : string) (w : World)
    (action : ActionItem) (docResult : DocumentRuleResult) (doc : Document)
    (details : Outcome) (outcomes : list JSON) :
  storeAnswers w →
  findActionItem (store w) actionID = Some action →
  findRuleResult (store w) (ai_DocumentID action) (ai_RuleID action)
    = Some docResult →
  decodedObject (drr_Details docResult) = Some details →
  findDocument (store w) (ai_DocumentID action) = Some doc →
  doc_ParsedData doc = Encodes (JArray outcomes) →
  let run := UpdateActionItem actionID w in
  run.1 = Ok tt ∧
  ∀ d, In d (documents (store run.2)) →
       doc_ID d = ai_DocumentID action →
       doc_ParsedData d = Encodes (JObject (<["status" := JBool true]> ∅)) ∧
       ∀ (rt : GoRuntime) (w2 : World),
         (∃ err, (CreateActionItems rt d w2).1 = Err err) ∧
         store (CreateActionItems rt d w2).2 = store w2.
Proof.
  intros Hans Haction Hresult Hdetails Hdoc Harray. cbn zeta.
  assert (Hparsed : decodedObject (doc_ParsedData doc) = Some ∅)
    by (by rewrite Harray).
  destruct (UpdateActionItem_run actionID w action docResult doc details
              ∅ Hans Haction Hresult Hdetails Hdoc Hparsed)
    as (w' & -> & Hcalls & Hstore).
  cbn [fst snd]. split; [done|]. rewrite Hstore. cbn [documents].
  apply firstByKey_bool_decide in Hdoc as [_ Hdid].
  intros d (d0 & <- & Hin)%in_map_iff. rewrite Hdid.
  case_bool_decide as Hd0; [|intros Heq; by destruct Hd0].
  intros _. cbn [doc_ParsedData]. split; [done|].
  intros rt w2. unfold CreateActionItems. cbn [doc_ParsedData unmarshalOutcomes].
  split; [by eexists|done].
Qed.

Lemma UpdateActionItem_drops_outcome_list_witness :
  let run := UpdateActionItem "action1" (quietWorld ingestedStore) in
  run.1 = Ok tt ∧
  doc_ParsedData <$> documents (store run.2) =
    [Encodes (JObject (<["status" := JBool true]> ∅))].
Proof.
  intros run.
  assert (Hans : storeAnswers (quietWorld ingestedStore))
    by (intros n _; reflexivity).
  destruct (UpdateActionItem_drops_outcome_list "action1"
              (quietWorld ingestedStore) pendingItem
              (mkDocumentRuleResult "result1" "doc1" "rule1" "fail"
                 (Encodes (JObject ndaOutcome)) 0)
              ndaDocument ndaOutcome [JObject ndaOutcome] Hans eq_refl
              eq_refl eq_refl eq_refl eq_refl) as (Hok & _).
  split; [exact Hok|reflexivity].
Defined.

(** X23. The steps of [UpdateActionItem] are not undone when a later one
    fails. When the action item is found but the store has no rule result
    for its document and rule, the call returns the error of the lookup,
    and the action item is completed all the same; the rule results and
    the documents are as they were. *)
Theorem UpdateActionItem_missing_result (actionID : string) (w : World)
    (action : ActionItem) :
  storeAnswers w →
  findActionItem (store w) actionID = Some action →
  findRuleResult (store w) (ai_DocumentID action) (ai_RuleID action) = None →
  let run := UpdateActionItem actionID w in
  run.1 = Err ErrRecordNotFound ∧
  (∀ a, In a (action_items (store run.2)) → ai_ID a = actionID →
        ai_Status a = "completed") ∧
  (∃ a, In a (action_items (store run.2)) ∧ ai_ID a = actionID) ∧
  document_rule_results (store run.2) = document_rule_results (store w) ∧
  documents (store run.2) = documents (store w).
Proof.
  intros Hans Haction Hresult. cbn zeta.
  unfold findActionItem in Haction. unfold findRuleResult in Hresult.
  unfold UpdateActionItem, db_FirstActionItem. run_step.
  rewrite (Hans (calls w)) by lia. rewrite Haction. cbn [firstOr].
  do 2 run_step. unfold db_UpdateActionItem. run_step.
  rewrite (Hans (S (calls w))) by lia.
  unfold db_FirstDocumentRuleResult. run_step.
  rewrite (Hans (S (S (calls w)))) by lia.
  cbn [compliance_rules action_items document_rule_results documents].
  rewrite Hresult. cbn [firstOr]. run_step. rewrite run_ret.
  cbn [fst snd store action_items document_rule_results documents].
  apply firstByKey_bool_decide in Haction as [Hin Hid].
  split; [done|]. split; [|split; [|done]].
  - intros a (a0 & <- & Hin0)%in_map_iff. rewrite Hid.
    case_bool_decide as Ha0; [done|]. intros Heq. by destruct Ha0.
  - eexists. split.
    + apply in_map_iff. exists action. split; [reflexivity|exact Hin].
    + rewrite bool_decide_eq_true_2 by done. exact Hid.
Qed.

Lemma UpdateActionItem_missing_result_witness :
  let w := quietWorld (mkStore [ndaRule] [pendingItem] [] [ndaDocument]) in
  let run := UpdateActionItem "action1" w in
  run.1 = Err ErrRecordNotFound ∧
  ai_Status <$> action_items (store run.2) = ["completed"].
Proof.
  intros w run.
  assert (Hans : storeAnswers w) by (intros n _; reflexivity).
  destruct (UpdateActionItem_missing_result "action1" w pendingItem Hans
              eq_refl eq_refl) as (Herr & _).
  split; [exact Herr|reflexivity].
Defined.

(** Closes a goal [sameRows] between the store at the start and a store
    written out as the updates made it. *)
Ltac rows_kept Hid :=
  unfold sameRows;
  cbn [store compliance_rules action_items document_rule_results documents];
  repeat split;
  first
    [ done
    | rewrite map_map; apply map_ext; intros ?; case_bool_decide; cbn;
      congruence
    | intros ? (? & <- & ?)%in_map_iff; case_bool_decide; cbn [ai_ID];
      [intros ?; congruence|done] ].

(** X24. Whatever the store answers and wherever the call ends, with an
    error, a panic or neither, [UpdateActionItem] adds no row and deletes
    none: the rules are as they were, every table has the rows it had, by
    their keys and in their order, and an action item with another key
    than the one given is left as it was. *)
Theorem UpdateActionItem_keeps_rows (actionID : string) (w : World) :
  sameRows actionID (store w) (store (UpdateActionItem actionID w).2).
Proof.
  unfold UpdateActionItem, db_FirstActionItem. run_step.
  destruct (faults w (calls w)) as [e|].
  { run_step. rewrite run_ret. cbn [snd]. rows_kept I. }
  destruct (firstByKey _ _ (action_items (store w))) as [action|] eqn:Haction;
    cbn [firstOr].
  2:{ run_step. rewrite run_ret. cbn [snd]. rows_kept I. }
  apply firstByKey_bool_decide in Haction as [_ Hid].
  do 2 run_step. unfold db_UpdateActionItem. run_step.
  destruct (faults w (S (calls w))) as [e|].
  { run_step. rewrite run_ret. cbn [snd]. rows_kept Hid. }
  unfold db_FirstDocumentRuleResult. run_step.
  cbn [compliance_rules action_items document_rule_results documents].
  destruct (faults w (S (S (calls w)))) as [e|].
  { run_step. rewrite run_ret. cbn [snd]. rows_kept Hid. }
  destruct (firstByKey _ _ (document_rule_results (store w))) as [docResult|];
    cbn [firstOr].
  2:{ run_step. rewrite run_ret. cbn [snd]. rows_kept Hid. }
  match goal with
  | |- context [(decodeColumn ?raw ?f ?a ≫= ?k) ?w1] =>
    destruct (run_decodeColumn raw f a k w1) as [extra1 ->]
  end.
  cbn [store faults uuids calls clock ticks logged].
  destruct (decodedObject (drr_Details docResult)) as [details|].
  2:{ rewrite run_ret. cbn [snd]. rows_kept Hid. }
  run_step. unfold db_SaveDocumentRuleResult. run_step.
  cbn [compliance_rules action_items document_rule_results documents drr_ID].
  destruct (faults w (S (S (S (calls w))))) as [e|].
  { run_step. rewrite run_ret. cbn [snd]. rows_kept Hid. }
  unfold db_FirstDocument. run_step.
  cbn [compliance_rules action_items document_rule_results documents].
  destruct (faults w (S (S (S (S (calls w)))))) as [e|].
  { run_step. rewrite run_ret. cbn [snd]. rows_kept Hid. }
  destruct (firstByKey _ _ (documents (store w))) as [doc|]; cbn [firstOr].
  2:{ run_step. rewrite run_ret. cbn [snd]. rows_kept Hid. }
  match goal with
  | |- context [(decodeColumn ?raw ?f ?a ≫= ?k) ?w1] =>
    destruct (run_decodeColumn raw f a k w1) as [extra2 ->]
  end.
  cbn [store faults uuids calls clock ticks logged].
  destruct (decodedObject (doc_ParsedData doc)) as [parsedData|].
  2:{ rewrite run_ret. cbn [snd]. rows_kept Hid. }
  run_step. unfold db_UpdateDocument. run_step.
  cbn [compliance_rules action_items document_rule_results documents].
  destruct (faults w (S (S (S (S (S (calls w))))))) as [e|].
  { run_step. rewrite run_ret. cbn [snd]. rows_kept Hid. }
  run_step. rewrite run_ret. cbn [snd]. rows_kept Hid.
Qed.

(** ** Document ingestion *)

Lemma complianceResults_map (violatedRuleNames : list string)
    (allRules : list ComplianceRule) :
  complianceResults violatedRuleNames allRules =
  map (complianceResultOf violatedRuleNames) allRules.
Proof.
  unfold complianceResults.
  assert (H : ∀ acc,
    fold_left (λ acc rule, acc ++ [complianceResultOf violatedRuleNames rule])
              allRules acc
    = acc ++ map (complianceResultOf violatedRuleNames) allRules).
  { induction allRules as [|rule rest IH]; intros acc; cbn.
    - by rewrite app_nil_r.
    - by rewrite IH, <- app_assoc. }
  apply (H []).
Qed.

Lemma complianceResultOf_fields (violatedRuleNames : list string)
    (rule : ComplianceRule) :
  let o := complianceResultOf violatedRuleNames rule in
  asString (o !! "rule_name") = Some (rule_Name rule) ∧
  asString (o !! "severity") = Some (rule_Severity rule) ∧
  hasFailed o = contains violatedRuleNames (rule_Name rule).
Proof.
  cbn zeta. unfold complianceResultOf, hasFailed.
  destruct (contains violatedRuleNames (rule_Name rule)).
  - rewrite !(lookup_insert_ne _ "explanation") by done.
    rewrite !(lookup_insert_ne _ "status" "rule_name") by done.
    rewrite !(lookup_insert_ne _ "status" "severity") by done.
    rewrite (lookup_insert_eq _ "status"), (lookup_insert_eq _ "rule_name").
    rewrite (lookup_insert_ne _ "rule_name" "severity") by done.
    rewrite lookup_insert_eq. by rewrite bool_decide_eq_true_2.
  - rewrite (lookup_insert_eq _ "rule_name").
    rewrite !(lookup_insert_ne _ "rule_name") by done.
    rewrite (lookup_insert_eq _ "severity").
    rewrite !(lookup_insert_ne _ "severity") by done.
    rewrite lookup_insert_eq. by rewrite bool_decide_eq_false_2.
Qed.

Lemma catalogRule_none (rules : list ComplianceRule) (name : string) :
  ¬ In name (map rule_Name rules) →
  filter (λ r, rule_Name r = name) rules = [].
Proof.
  induction rules as [|r rules IH]; [done|]. cbn [map In]. intros Hnot.
  rewrite filter_cons_False by (intros Heq; apply Hnot; by left).
  apply IH. intros Hin. apply Hnot. by right.
Qed.

Lemma catalogRule_NoDup (rules : list ComplianceRule) (rule : ComplianceRule) :
  List.NoDup (map rule_Name rules) → In rule rules →
  catalogRule rules (rule_Name rule) = Some rule.
Proof.
  unfold catalogRule. induction rules as [|r rules IH]; [done|].
  cbn [map]. intros [Hnot Hnd]%List.NoDup_cons_iff [->|Hin].
  - rewrite filter_cons_True by done.
    by rewrite (catalogRule_none rules (rule_Name rule) Hnot).
  - rewrite filter_cons_False; [by apply IH|].
    intros Heq. apply Hnot. rewrite Heq. by apply in_map.
Qed.

Lemma sumZ_map_ext {A : Type} (f g : A → Z) (l : list A) :
  (∀ x, In x l → f x = g x) → sumZ (map f l) = sumZ (map g l).
Proof.
  unfold sumZ. induction l as [|x l IH]; [done|]. intros Hfg. cbn.
  rewrite (Hfg x) by (by left). rewrite IH; [done|].
  intros y Hy. apply Hfg. by right.
Qed.

(** X25. The score of an ingested document: the outcome list that
    [UploadAndProcessDocument] builds from the names the classifier
    returned scores, when the limiter admits the computation, the sum of
    the weights of the catalog rules that were named. A name that is not
    in the catalog adds nothing. *)
Theorem ingestion_score (rl : RateLimiter) (tSince tNow : Time)
    (violatedRuleNames : list string) (allRules : list ComplianceRule) :
  (Allow rl tSince tNow "risk_score_calculation").1 = true →
  3 * Z.of_nat (length allRules) < 2 ^ 53 →
  List.NoDup (map rule_Name allRules) →
  (CalculateRiskScore rl tSince tNow
     (complianceResults violatedRuleNames allRules) allRules).1 =
  sumZ (map (λ rule, if contains violatedRuleNames (rule_Name rule)
                     then weightOf (rule_Severity rule) else 0)
            allRules).
Proof.
  intros Hok Hlen Hnd.
  rewrite CalculateRiskScore_admitted;
    [|exact Hok|by rewrite complianceResults_map, length_map].
  rewrite complianceResults_map.
  rewrite expectedScore_named.
  2:{ apply Forall_forall. intros o [rule [<- _]]%list_elem_of_In%in_map_iff _.
      destruct (complianceResultOf_fields violatedRuleNames rule) as [Hname _].
      rewrite Hname. by eexists. }
  change (contribution allRules 0 <$> map (complianceResultOf violatedRuleNames) allRules)
    with (map (contribution allRules 0)
              (map (complianceResultOf violatedRuleNames) allRules)).
  rewrite map_map. apply sumZ_map_ext. intros rule Hin.
  destruct (complianceResultOf_fields violatedRuleNames rule)
    as (Hname & _ & Hfail).
  unfold contribution, lookupName. rewrite Hfail, Hname.
  destruct (contains violatedRuleNames (rule_Name rule)); [|done].
  cbn. by rewrite (catalogRule_NoDup allRules rule Hnd Hin).
Qed.

Lemma ingestion_score_witness :
  let violated := ["NDA Check"; "Unheard Of"] in
  let allRules := [ndaRule; paymentRule; customRule] in
  (Allow (NewRateLimiter 100 Minute 0) 1 1 "risk_score_calculation").1 = true ∧
  3 * Z.of_nat (length allRules) < 2 ^ 53 ∧
  List.NoDup (map rule_Name allRules) ∧
  (CalculateRiskScore (NewRateLimiter 100 Minute 0) 1 1
     (complianceResults violated allRules) allRules).1 = 3.
Proof.
  intros violated allRules.
  assert (Hok : (Allow (NewRateLimiter 100 Minute 0) 1 1
                       "risk_score_calculation").1 = true) by reflexivity.
  assert (Hlen : 3 * Z.of_nat (length allRules) < 2 ^ 53) by reflexivity.
  assert (Hnd : List.NoDup (map rule_Name allRules)).
  { apply (NoDup_ListNoDup _), (bool_decide_unpack _). vm_compute. exact I. }
  split; [exact Hok|]. split; [exact Hlen|]. split; [exact Hnd|].
  exact (ingestion_score (NewRateLimiter 100 Minute 0) 1 1 violated allRules
           Hok Hlen Hnd).
Defined.

Lemma unmarshalOutcomes_marshalResults (results : list Outcome) :
  unmarshalOutcomes (marshalResults results) = inr results.
Proof.
  assert (Hobjects : ∀ l : list Outcome,
            mapM (λ v, match v with
                       | JObject m => Some m
                       | JNull => Some ∅
                       | _ => None
                       end) (JObject <$> l) = Some l).
  { induction l as [|o l IH]; [done|]. cbn. cbn in IH. by rewrite IH. }
  destruct results as [|o rest]; [done|].
  unfold marshalResults, unmarshalOutcomes. by rewrite Hobjects.
Qed.

Lemma ingested_actionable (s : Store) (violatedRuleNames : list string)
    (rules : list ComplianceRule) :
  (∀ rule, In rule rules →
           ∃ found, ruleNamed s (rule_Name rule) = Some found ∧
                    rule_ID found ≠ "") →
  map fst (omap (actionable s)
                (map (complianceResultOf violatedRuleNames) rules)) =
  map (complianceResultOf violatedRuleNames)
      (List.filter (λ rule, contains violatedRuleNames (rule_Name rule)) rules).
Proof.
  induction rules as [|rule rest IH]; intros Hfound; [done|].
  cbn [map omap list_omap List.filter].
  destruct (complianceResultOf_fields violatedRuleNames rule)
    as (Hname & _ & Hfail).
  destruct (Hfound rule ltac:(by left)) as (found & Hrule & Hid).
  specialize (IH (λ r Hr, Hfound r (or_intror Hr))).
  unfold actionable at 1. rewrite Hfail, Hname.
  destruct (contains violatedRuleNames (rule_Name rule)); [|exact IH].
  cbn. rewrite Hrule. cbn. rewrite bool_decide_eq_false_2 by done.
  cbn [map fst]. by rewrite IH.
Qed.

Lemma actionItemFor_priorities (rt : GoRuntime) (doc : Document)
    (clock : nat → Time) (founds : list (Outcome * ComplianceRule))
    (newActions : list ActionItem) :
  Forall2 (actionItemFor rt doc clock) founds newActions →
  map ai_Priority newActions =
  map (λ o, strings_Title rt (strings_ToLower rt (fieldOr o "severity")))
      (map fst founds).
Proof.
  induction 1 as [|found a founds newActions Hfor _ IH]; [done|].
  cbn [map]. rewrite IH. f_equal.
  by destruct Hfor as (_ & _ & _ & -> & _).
Qed.

(** X26. The action items of an ingested document: for a document whose
    parsed data is the outcome list that [UploadAndProcessDocument] builds,
    over a catalog in which every rule has a key, [CreateActionItems]
    decodes the list it was given and creates one action item for each
    rule of the catalog that the classifier named, in the order of the
    catalog, with the title-cased severity of the rule as its priority. *)
Theorem ingestion_action_items (rt : GoRuntime) (doc : Document) (w : World)
    (violatedRuleNames : list string) :
  storeAnswers w →
  Forall (λ rule, rule_ID rule ≠ "") (compliance_rules (store w)) →
  doc_ParsedData doc =
    marshalResults
      (complianceResults violatedRuleNames (compliance_rules (store w))) →
  let named :=
    List.filter (λ rule, contains violatedRuleNames (rule_Name rule))
                (compliance_rules (store w)) in
  ∃ w' newActions,
    CreateActionItems rt doc w = (Ok tt, w') ∧
    action_items (store w') = action_items (store w) ++ newActions ∧
    length newActions = length named ∧
    map ai_Priority newActions =
      map (λ rule, strings_Title rt (strings_ToLower rt (rule_Severity rule)))
          named.
Proof.
  intros Hans Hkeys Hdata. cbn zeta.
  unfold CreateActionItems.
  rewrite Hdata, unmarshalOutcomes_marshalResults, complianceResults_map.
  destruct (createLoop_spec rt doc
              (map (complianceResultOf violatedRuleNames)
                   (compliance_rules (store w))) w Hans)
    as (w' & nA & nR & nL & Hrun & _ & _ & Ha & _ & _ & HfA & _).
  exists w', nA. split; [exact Hrun|]. split; [exact Ha|].
  apply actionItemFor_priorities in HfA.
  rewrite ingested_actionable in HfA.
  2:{ intros rule Hin. unfold ruleNamed.
      destruct (firstByKey rule_ID
                  (λ r, bool_decide (rule_Name r = rule_Name rule))
                  (compliance_rules (store w))) as [found|] eqn:Hfind.
      - exists found. split; [done|].
        apply firstByKey_Some in Hfind as [Hfound _].
        apply (proj1 (Forall_forall _ _) Hkeys found).
        by apply list_elem_of_In.
      - pose proof (firstByKey_None _ _ _ rule Hfind Hin) as Hnone.
        cbn in Hnone.
        by rewrite bool_decide_eq_true_2 in Hnone. }
  rewrite map_map in HfA. split.
  - apply (f_equal length) in HfA. by rewrite !length_map in HfA.
  - rewrite HfA. apply map_ext. intros rule. unfold fieldOr.
    by destruct (complianceResultOf_fields violatedRuleNames rule)
      as (_ & -> & _).
Qed.

Lemma ingestion_action_items_witness :
  let catalog := [ndaRule; paymentRule; customRule] in
  let violated := ["Custom Rule"; "Unheard Of"; "NDA Check"] in
  let doc := mkDocument "doc1" "agreement" "pdf" "https://store/agreement.pdf"
               "The parties agree."
               (marshalResults (complianceResults violated catalog)) 5 0 0 in
  let w := quietWorld (mkStore catalog [] [] []) in
  storeAnswers w ∧
  ∃ w' newActions,
    CreateActionItems sampleRuntime doc w = (Ok tt, w') ∧
    action_items (store w') = newActions ∧
    map ai_Priority newActions = ["High"; "Medium"].
Proof.
  intros catalog violated doc w.
  assert (Hans : storeAnswers w) by (intros n _; reflexivity).
  assert (Hkeys : Forall (λ rule, rule_ID rule ≠ "")
                         (compliance_rules (store w)))
    by (repeat constructor; discriminate).
  split; [exact Hans|].
  destruct (ingestion_action_items sampleRuntime doc w violated Hans Hkeys
              eq_refl) as (w' & nA & Hrun & Ha & _ & Hprio).
  exists w', nA. split; [exact Hrun|]. split; [exact Ha|]. exact Hprio.
Defined.

(** ** RuleChecker *)

(** X27. A verdict of [CheckRuleCompliance] is closed: the map it returns
    is the object the service sent, under the name of the rule that was
    asked about, and its status is pass when the service said exactly
    that and fail in every other case, be the status of the service
    another word, not a text, or missing. Every other entry is passed on.
    A verdict is only given for a text and a rule name that are not
    empty. *)
Theorem CheckRuleCompliance_verdict (env : CheckEnv) (rl : RateLimiter)
    (ocrText ruleName rulePattern : string) (verdict : Outcome) :
  (CheckRuleCompliance env rl ocrText ruleName rulePattern).1 = Ok verdict →
  ocrText ≠ "" ∧ ruleName ≠ "" ∧
  verdict !! "rule_name" = Some (JString ruleName) ∧
  ∃ resp content rest answer,
    checkRetry env 3 0 = Some resp ∧
    check_Body resp = Some (Wellformed (content :: rest)) ∧
    unmarshalMap content = MapOf answer ∧
    verdict !! "status" =
      Some (JString (if bool_decide (asString (answer !! "status")
                                     = Some "pass")
                     then "pass" else "fail")) ∧
    ∀ key, key ≠ "status" → key ≠ "rule_name" →
           verdict !! key = answer !! key.
Proof.
  unfold CheckRuleCompliance.
  destruct (Allow _ _ _ "rule_compliance_check") as [[] rl'];
    cbn [negb fst]; [|discriminate].
  case_bool_decide as Htext; [discriminate|].
  case_bool_decide as Hname; [discriminate|].
  destruct (checkMarshalFails env); [discriminate|].
  destruct (checkNewRequestErr env); [discriminate|].
  destruct (checkRetry env 3 0) as [resp|] eqn:Hretry; [|discriminate].
  case_bool_decide; [discriminate|].
  destruct (check_Body resp) as [[|[|content rest]]|] eqn:Hbody;
    try discriminate.
  destruct (isEmptyColumn content); [discriminate|].
  destruct (unmarshalMap content) as [|answer|] eqn:Hcontent;
    try discriminate.
  intros [= <-]. split; [done|]. split; [done|].
  split; [apply lookup_insert_eq|].
  exists resp, content, rest, answer. repeat split; try done.
  - rewrite lookup_insert_ne by done.
    destruct (asString (answer !! "status")) as [status|] eqn:Hstatus;
      cbn [default from_option id].
    + repeat case_bool_decide; simplify_eq;
        first [apply lookup_insert_eq | by destruct_or! | idtac].
      destruct (answer !! "status") as [[]|]; cbn in Hstatus; by simplify_eq.
    + rewrite bool_decide_eq_false_2 by (intros [?|?]; discriminate).
      rewrite (bool_decide_eq_false_2 ("" = "pass")) by discriminate.
      rewrite (bool_decide_eq_false_2 (None = Some "pass")) by discriminate.
      apply lookup_insert_eq.
  - intros key Hs Hr. rewrite lookup_insert_ne by done.
    repeat case_bool_decide; try done; by rewrite lookup_insert_ne.
Qed.

Lemma CheckRuleCompliance_verdict_witness :
  let answer : Outcome :=
    <["status" := JString "partial_pass"]>
      (<["confidence_score" := JNumber "0.8"]> ∅) in
  let run := CheckRuleCompliance (checkEnvOf (Encodes (JObject answer)))
               (NewRateLimiter 100 Minute 0) "The parties agree."
               "NDA Check" "non-disclosure" in
  ∃ verdict,
    run.1 = Ok verdict ∧
    verdict !! "rule_name" = Some (JString "NDA Check") ∧
    verdict !! "status" = Some (JString "fail") ∧
    verdict !! "confidence_score" = Some (JNumber "0.8").
Proof.
  intros answer run.
  assert (Hrun : run.1 =
                 Ok (<["rule_name" := JString "NDA Check"]>
                       (<["status" := JString "fail"]> answer)))
    by reflexivity.
  eexists. split; [exact Hrun|].
  destruct (CheckRuleCompliance_verdict
              (checkEnvOf (Encodes (JObject answer)))
              (NewRateLimiter 100 Minute 0) "The parties agree."
              "NDA Check" "non-disclosure" _ Hrun)
    as (_ & _ & Hname & _).
  split; [exact Hname|]. split; reflexivity.
Defined.

(** X28. When the content of the answer is the JSON text [null], the
    checker panics: the text decodes without an error to the nil map, and
    the default case of the normalisation assigns the status to it. *)
Theorem CheckRuleCompliance_null_content_panics (env : CheckEnv)
    (rl : RateLimiter) (ocrText ruleName rulePattern : string)
    (resp : CheckResponse) (rest : list RawJSON) :
  (Allow rl (checkClock env).1 (checkClock env).2
         "rule_compliance_check").1 = true →
  ocrText ≠ "" → ruleName ≠ "" →
  checkMarshalFails env = false →
  checkNewRequestErr env = None →
  checkRetry env 3 0 = Some resp →
  check_StatusCode resp = 200 →
  check_Body resp = Some (Wellformed (Encodes JNull :: rest)) →
  (CheckRuleCompliance env rl ocrText ruleName rulePattern).1 =
  Panic nilMapPanic.
Proof.
  intros Hgate Htext Hname Hmarshal Hreq Hretry Hstatus Hbody.
  unfold CheckRuleCompliance.
  destruct (Allow _ _ _ "rule_compliance_check") as [ok rl'].
  cbn [fst] in Hgate. subst ok. cbn [negb fst].
  rewrite (bool_decide_eq_false_2 _ Htext), (bool_decide_eq_false_2 _ Hname).
  rewrite Hmarshal, Hreq, Hretry, Hstatus, Hbody.
  by rewrite bool_decide_eq_false_2 by (intros Hne; by apply Hne).
Qed.

Lemma CheckRuleCompliance_null_content_panics_witness :
  (CheckRuleCompliance (checkEnvOf (Encodes JNull))
     (NewRateLimiter 100 Minute 0) "The parties agree." "NDA Check"
     "non-disclosure").1 = Panic nilMapPanic.
Proof.
  apply (CheckRuleCompliance_null_content_panics
           (checkEnvOf (Encodes JNull)) (NewRateLimiter 100 Minute 0)
           "The parties agree." "NDA Check" "non-disclosure"
           (mkCheckResponse 200 (Some (Wellformed [Encodes JNull]))) []);
    first [reflexivity | discriminate].
Defined.

(** ** Document listing *)

Lemma unmarshalMaps_marshalResults (results : list Outcome) :
  unmarshalMaps (marshalResults results) = inr (Some <$> results).
Proof.
  assert (Hobjects : ∀ l : list Outcome,
            mapM (λ v, match v with
                       | JObject m => Some (Some m)
                       | JNull => Some None
                       | _ => None
                       end) (JObject <$> l) = Some (Some <$> l)).
  { induction l as [|o l IH]; [done|]. cbn. cbn in IH. by rewrite IH. }
  destruct results as [|o rest]; [done|].
  unfold marshalResults, unmarshalMaps. by rewrite Hobjects.
Qed.

Lemma complianceResultOf_status (violatedRuleNames : list string)
    (rule : ComplianceRule) :
  asString (complianceResultOf violatedRuleNames rule !! "status") =
  Some (if contains violatedRuleNames (rule_Name rule)
        then "fail" else "pass").
Proof.
  unfold complianceResultOf.
  destruct (contains violatedRuleNames (rule_Name rule)).
  - rewrite (lookup_insert_ne _ "explanation") by done.
    by rewrite lookup_insert_eq.
  - rewrite !(lookup_insert_ne _ _ "status") by done.
    by rewrite lookup_insert_eq.
Qed.

(** The loop leaves the outcomes of an ingested document as they are and
    reports a failure as soon as one of them has failed. *)
Lemma processResults_ingested (rt : GoRuntime)
    (applicableRuleNames violatedRuleNames : list string)
    (rules : list ComplianceRule) :
  Forall (λ rule, rule_Name rule ≠ "") rules →
  ∀ (overallStatus : string) (details : list Outcome),
    processResults rt applicableRuleNames
      (Some <$> map (complianceResultOf violatedRuleNames) rules)
      overallStatus details =
    Ok (if existsb (λ rule, contains violatedRuleNames (rule_Name rule)) rules
        then "fail" else overallStatus,
        details ++ map (complianceResultOf violatedRuleNames) rules).
Proof.
  induction 1 as [|rule rules Hname _ IH]; intros overallStatus details.
  { cbn. by rewrite app_nil_r. }
  cbn [map fmap list_fmap processResults existsb].
  destruct (complianceResultOf_fields violatedRuleNames rule)
    as (Hrule & _ & _).
  unfold chooseRuleName, nonEmptyString. cbn [mbind option_bind].
  rewrite Hrule, bool_decide_eq_true_2 by done.
  assert (Hsame : <["rule_name" := JString (rule_Name rule)]>
                    (complianceResultOf violatedRuleNames rule)
                  = complianceResultOf violatedRuleNames rule).
  { apply insert_id.
    destruct (complianceResultOf violatedRuleNames rule !! "rule_name")
      as [[]|]; cbn in Hrule; by simplify_eq. }
  rewrite Hsame.
  change (list_fmap _ _ Some (map (complianceResultOf violatedRuleNames) rules))
    with (Some <$> map (complianceResultOf violatedRuleNames) rules).
  rewrite IH, <- app_assoc. cbn [app].
  rewrite complianceResultOf_status.
  destruct (contains violatedRuleNames (rule_Name rule)); cbn [orb].
  - rewrite bool_decide_eq_true_2 by discriminate.
    by destruct (existsb _ rules).
  - by rewrite bool_decide_eq_false_2 by (intros Hne; by apply Hne).
Qed.

(** X29. Listing an ingested document: for a document with text whose
    parsed data is the outcome list that [UploadAndProcessDocument] builds
    over a catalog without empty names, when the classifier returns names,
    [processDocumentCompliance] returns no error and a map in which the
    compliance details are that outcome list, unchanged, the compliance
    status is fail exactly when the list holds a rule that was named at
    the ingestion, and the applicable rules are the names the classifier
    has returned now. *)
Theorem processDocumentCompliance_ingested (rt : GoRuntime)
    (env : ClassifyEnv) (g : Limiters) (doc : Document)
    (applicableRuleNames violatedRuleNames : list string)
    (allRules : list ComplianceRule) :
  doc_OcrText doc ≠ "" →
  (DetermineApplicableRules rt env g (doc_OcrText doc)).1
    = Ok applicableRuleNames →
  applicableRuleNames ≠ [] →
  Forall (λ rule, rule_Name rule ≠ "") allRules →
  doc_ParsedData doc =
    marshalResults (complianceResults violatedRuleNames allRules) →
  ∃ docMap,
    (processDocumentCompliance rt env g doc).1 = Returned docMap None ∧
    docMap !! "compliance_details" =
      Some (DOutcomes (complianceResults violatedRuleNames allRules)) ∧
    docMap !! "compliance_status" =
      Some (DString
              (if existsb (λ rule, contains violatedRuleNames (rule_Name rule))
                          allRules
               then "fail" else "pass")) ∧
    docMap !! "applicable_rules" = Some (DNames applicableRuleNames).
Proof.
  intros Htext Hnames Hsome Hrules Hdata. unfold processDocumentCompliance.
  rewrite (bool_decide_eq_false_2 _ Htext).
  destruct (DetermineApplicableRules rt env g (doc_OcrText doc))
    as [applicable g'].
  cbn [fst] in Hnames. subst applicable.
  rewrite bool_decide_eq_false_2 by (by destruct applicableRuleNames).
  rewrite Hdata.
  assert (Hfull : isEmptyColumn
                    (marshalResults
                       (complianceResults violatedRuleNames allRules))
                  = false)
    by (by destruct (complianceResults violatedRuleNames allRules)).
  rewrite Hfull, unmarshalMaps_marshalResults, complianceResults_map.
  rewrite (processResults_ingested rt applicableRuleNames violatedRuleNames
             allRules Hrules). cbn [app fst].
  eexists. split; [reflexivity|]. split; [|split].
  - rewrite lookup_insert_ne by done. by rewrite lookup_insert_eq.
  - rewrite !(lookup_insert_ne _ _ "compliance_status") by done.
    by rewrite lookup_insert_eq.
  - by rewrite lookup_insert_eq.
Qed.

Lemma processDocumentCompliance_ingested_witness :
  let catalog := [ndaRule; paymentRule] in
  let doc := mkDocument "doc1" "agreement" "pdf" "https://store/agreement.pdf"
               "The parties agree."
               (marshalResults (complianceResults ["NDA Check"] catalog))
               3 0 0 in
  let env := classifyEnvOf catalog (remoteSuggests ["Payment Terms Specification"]) in
  ∃ docMap,
    (processDocumentCompliance sampleRuntime env (initialLimiters 0) doc).1
      = Returned docMap None ∧
    docMap !! "compliance_status" = Some (DString "fail") ∧
    docMap !! "applicable_rules" =
      Some (DNames ["Payment Terms Specification"]).
Proof.
  intros catalog doc env.
  destruct (processDocumentCompliance_ingested sampleRuntime env
              (initialLimiters 0) doc ["Payment Terms Specification"]
              ["NDA Check"] catalog)
    as (docMap & Hrun & _ & Hstatus & Happlicable);
    [discriminate|reflexivity|discriminate
    |repeat constructor; discriminate|reflexivity|].
  exists docMap. split; [exact Hrun|]. split; [exact Hstatus|exact Happlicable].
Defined.

(** X30. The type assertion on the explanation is not checked. When the
    first outcome of the parsed data bears no rule name, neither under
    rule_name nor under rule, and its explanation is not a text, be it
    missing, [null] or of another type, or the outcome itself is [null],
    [processDocumentCompliance] panics, and with it the listing of the
    documents. *)
Theorem processDocumentCompliance_unnamed_outcome_panics (rt : GoRuntime)
    (env : ClassifyEnv) (g : Limiters) (doc : Document)
    (applicableRuleNames : list string) (first : option Outcome)
    (rest : list (option Outcome)) :
  doc_OcrText doc ≠ "" →
  (DetermineApplicableRules rt env g (doc_OcrText doc)).1
    = Ok applicableRuleNames →
  applicableRuleNames ≠ [] →
  isEmptyColumn (doc_ParsedData doc) = false →
  unmarshalMaps (doc_ParsedData doc) = inr (first :: rest) →
  nonEmptyString (first ≫= (λ m, m !! "rule_name")) = None →
  nonEmptyString (first ≫= (λ m, m !! "rule")) = None →
  asString (first ≫= (λ m, m !! "explanation")) = None →
  (processDocumentCompliance rt env g doc).1 =
  Panicked (conversionPanic (first ≫= (λ m, m !! "explanation"))).
Proof.
  intros Htext Hnames Hsome Hfull Hdata Hname Hrule Hexplanation.
  unfold processDocumentCompliance.
  rewrite (bool_decide_eq_false_2 _ Htext).
  destruct (DetermineApplicableRules rt env g (doc_OcrText doc))
    as [applicable g'].
  cbn [fst] in Hnames. subst applicable.
  rewrite bool_decide_eq_false_2 by (by destruct applicableRuleNames).
  rewrite Hfull, Hdata. cbn [processResults].
  unfold chooseRuleName. rewrite Hname, Hrule.
  destruct applicableRuleNames as [|name names]; [done|].
  by destruct (first ≫= (λ m, m !! "explanation")) as [[]|].
Qed.

Lemma processDocumentCompliance_unnamed_outcome_panics_witness :
  let outcome : Outcome := <["status" := JString "fail"]> ∅ in
  let doc := mkDocument "doc1" "agreement" "pdf" "https://store/agreement.pdf"
               "The parties agree." (Encodes (JArray [JObject outcome]))
               3 0 0 in
  let env := classifyEnvOf [ndaRule] (remoteSuggests ["NDA Check"]) in
  (processDocumentCompliance sampleRuntime env (initialLimiters 0) doc).1 =
  Panicked "interface conversion: interface {} is nil, not string".
Proof.
  intros outcome doc env.
  apply (processDocumentCompliance_unnamed_outcome_panics sampleRuntime env
           (initialLimiters 0) doc ["NDA Check"] (Some outcome) []);
    first [reflexivity | discriminate].
Defined.
